(** * mono-conc-hash: the GC-aware concurrent hash table of the Mono runtime

    A shallow embedding of [mono/metadata/mono-conc-hash.c] as seen by the
    single mutator thread, the properties of its design document checked
    against it, and further properties of the code: what lookup, remove,
    insert, iteration, destruction and a resize do to one another.

    Conventions of the embedding:
    - a [gpointer] is the 64-bit address it holds, [NULL] is [0];
    - a C [int] is a [Z] in the signed 32-bit range, every arithmetic
      operation that can leave the range is followed by [int_wrap];
    - the arrays [keys] and [values] of a generation are lists, read with
      [array_get] and written with [array_set];
    - a loop of the source is a [Fixpoint] on a fuel counter, one unit of
      fuel per iteration (a [goto retry] is an iteration too); running out
      of fuel is the outcome [Spinning];
    - [g_assert] and [g_error] abort the process: the outcome [Fatal];
    - memory barriers and hazard pointers do nothing in a sequential run
      and are left out; the write barrier of the collector is a store. *)

From Stdlib Require Import ZArith List Bool Lia Permutation.
Import ListNotations.
Local Open Scope Z_scope.

(** ** Machine data *)

Definition gpointer := Z.
Definition NULL : gpointer := 0.

(** A C [int]: the signed 32-bit value congruent to [z]. *)
Definition int_wrap (z : Z) : Z := (z + 2 ^ 31) mod 2 ^ 32 - 2 ^ 31.

Definition INITIAL_SIZE : Z := 32.
Definition EXPAND_RATIO : Z := 2.

(** [(gpointer)(ssize_t)-1]: the address with all 64 bits set. *)
Definition PTR_TOMBSTONE : gpointer := 2 ^ 64 - 1.

(** [(int)(size * LOAD_FACTOR)] with [LOAD_FACTOR = 0.75f].  The product is
    computed in single precision; for the sizes the table uses (a power of
    two, at most [2^30]) it is exact, and the cast truncates toward zero. *)
Definition load_factor_of (size : Z) : Z := Z.quot (size * 3) 4.

(** Modelled from the spec: the four GC-tracking modes [{None,
    KeyIsReference, ValueIsReference, BothAreReferences}].  The header that
    declares [MonoGHashGCType] is not part of the sources read here; the
    code tests the two bits below and rejects anything above their union.
    A value of the enumeration is an unsigned integer. *)
Definition MONO_HASH_CONSERVATIVE_GC : Z := 0.
Definition MONO_HASH_KEY_GC : Z := 1.
Definition MONO_HASH_VALUE_GC : Z := 2.
Definition MONO_HASH_KEY_VALUE_GC : Z := Z.lor MONO_HASH_KEY_GC MONO_HASH_VALUE_GC.

(** [gc & flag] used as a C condition. *)
Definition has_flag (gc flag : Z) : bool := negb (Z.land gc flag =? 0).

(** The part of [MonoDomain] the table reads through [mono_domain_get ()]. *)
Record MonoDomain := { ephemeron_tombstone : gpointer }.

(** Modelled from the spec: [g_direct_hash], the pointer-identity hash of
    the runtime's glib layer, is defined outside the sources read here; it
    returns the pointer converted to a [guint]. *)
Definition g_direct_hash (v : gpointer) : Z := v mod 2 ^ 32.

Definition array_get (a : list gpointer) (i : Z) : gpointer :=
  nth (Z.to_nat i) a NULL.

Fixpoint set_nth (a : list gpointer) (n : nat) (x : gpointer) : list gpointer :=
  match a, n with
  | [], _ => []
  | _ :: tl, O => x :: tl
  | y :: tl, S m => y :: set_nth tl m x
  end.

Definition array_set (a : list gpointer) (i : Z) (x : gpointer) : list gpointer :=
  set_nth a (Z.to_nat i) x.

Arguments array_get : simpl never.
Arguments array_set : simpl never.

(** ** The two structures *)

Record conc_table := {
  table_size : Z;
  ct_gc_type : Z;
  keys : list gpointer;
  values : list gpointer
}.

(** A destroy callback is known by its address only; calling it is an
    event of the run. *)
Definition GDestroyNotify := Z.

Inductive event :=
| Call (f : GDestroyNotify) (arg : gpointer).

Record MonoConcGHashTable := {
  table : conc_table;
  hash_func : gpointer -> Z;
  equal_func : option (gpointer -> gpointer -> bool);
  element_count : Z;
  overflow_count : Z;
  key_destroy_func : option GDestroyNotify;
  value_destroy_func : option GDestroyNotify;
  gc_type : Z
}.

Inductive fatal :=
| assertion_failed
| wrong_gc_type
| out_of_memory.

Inductive outcome (A : Type) : Type :=
| Done (a : A)
| Fatal (why : fatal)
| Spinning.

Arguments Done {A} a.
Arguments Fatal {A} why.
Arguments Spinning {A}.

Definition with_table (h : MonoConcGHashTable) (t : conc_table) : MonoConcGHashTable :=
  {| table := t; hash_func := hash_func h; equal_func := equal_func h;
     element_count := element_count h; overflow_count := overflow_count h;
     key_destroy_func := key_destroy_func h;
     value_destroy_func := value_destroy_func h; gc_type := gc_type h |}.

Definition with_element_count (h : MonoConcGHashTable) (n : Z) : MonoConcGHashTable :=
  {| table := table h; hash_func := hash_func h; equal_func := equal_func h;
     element_count := n; overflow_count := overflow_count h;
     key_destroy_func := key_destroy_func h;
     value_destroy_func := value_destroy_func h; gc_type := gc_type h |}.

Definition with_overflow_count (h : MonoConcGHashTable) (n : Z) : MonoConcGHashTable :=
  {| table := table h; hash_func := hash_func h; equal_func := equal_func h;
     element_count := element_count h; overflow_count := n;
     key_destroy_func := key_destroy_func h;
     value_destroy_func := value_destroy_func h; gc_type := gc_type h |}.

Definition with_gc_type (h : MonoConcGHashTable) (ty : Z) : MonoConcGHashTable :=
  {| table := table h; hash_func := hash_func h; equal_func := equal_func h;
     element_count := element_count h; overflow_count := overflow_count h;
     key_destroy_func := key_destroy_func h;
     value_destroy_func := value_destroy_func h; gc_type := ty |}.

(** ** Generations *)

(** [conc_table_new]: both arrays come zeroed from [g_new0], which aborts
    when the request cannot be served; a negative [size] is such a
    request.  The mode is read from the handle as it is at the call. *)
Definition conc_table_new (hash : MonoConcGHashTable) (size : Z) : option conc_table :=
  if size <? 0 then None
  else Some {| table_size := size;
               ct_gc_type := gc_type hash;
               keys := repeat NULL (Z.to_nat size);
               values := repeat NULL (Z.to_nat size) |}.

Definition key_is_tombstone (dom : MonoDomain) (hash : MonoConcGHashTable)
    (ptr : gpointer) : bool :=
  if has_flag (gc_type hash) MONO_HASH_KEY_GC
  then ptr =? ephemeron_tombstone dom
  else ptr =? PTR_TOMBSTONE.

Definition mix_hash (hash : Z) : Z :=
  Z.lxor (Z.shiftr (int_wrap (hash * 215497)) 16)
         (int_wrap (int_wrap (hash * 1823231) + hash)).

(** [set_key], [set_value]: the source stores through the write barrier
    of the collector when the generation tracks the cell and directly
    otherwise; either way the cell ends up holding the pointer. *)
Definition set_key (t : conc_table) (slot : Z) (key : gpointer) : conc_table :=
  {| table_size := table_size t; ct_gc_type := ct_gc_type t;
     keys := array_set (keys t) slot key; values := values t |}.

Definition set_key_to_tombstone (dom : MonoDomain) (t : conc_table) (slot : Z)
    : conc_table :=
  if has_flag (ct_gc_type t) MONO_HASH_KEY_GC
  then set_key t slot (ephemeron_tombstone dom)
  else set_key t slot PTR_TOMBSTONE.

Definition set_value (t : conc_table) (slot : Z) (value : gpointer) : conc_table :=
  {| table_size := table_size t; ct_gc_type := ct_gc_type t;
     keys := keys t; values := array_set (values t) slot value |}.

(** The [while (table->keys [i])] loop of [insert_one_local]: the first
    slot from [i] on whose key cell is null. *)
Fixpoint first_null_key (fuel : nat) (t : conc_table) (table_mask i : Z) : option Z :=
  match fuel with
  | O => None
  | S fuel' =>
      if array_get (keys t) i =? NULL then Some i
      else first_null_key fuel' t table_mask (Z.land (i + 1) table_mask)
  end.

Definition insert_one_local (fuel : nat) (t : conc_table) (hf : gpointer -> Z)
    (key value : gpointer) : outcome conc_table :=
  let table_mask := table_size t - 1 in
  let hash := mix_hash (int_wrap (hf key)) in
  let i := Z.land hash table_mask in
  match first_null_key fuel t table_mask i with
  | None => Spinning
  | Some i => Done (set_value (set_key t i key) i value)
  end.

(** The [for] loop of [expand_table], [n] slots of the old generation left
    to visit from index [i] on. *)
Fixpoint expand_loop (fuel : nat) (dom : MonoDomain) (hash_table : MonoConcGHashTable)
    (old_table : conc_table) (n : nat) (i : Z) (new_table : conc_table)
    : outcome conc_table :=
  match n with
  | O => Done new_table
  | S n' =>
      let k := array_get (keys old_table) i in
      if negb (k =? NULL) && negb (key_is_tombstone dom hash_table k) then
        match insert_one_local fuel new_table (hash_func hash_table) k
                (array_get (values old_table) i) with
        | Done t => expand_loop fuel dom hash_table old_table n' (i + 1) t
        | Fatal why => Fatal why
        | Spinning => Spinning
        end
      else expand_loop fuel dom hash_table old_table n' (i + 1) new_table
  end.

Definition expand_table (fuel : nat) (dom : MonoDomain) (hash_table : MonoConcGHashTable)
    : outcome MonoConcGHashTable :=
  let old_table := table hash_table in
  match conc_table_new hash_table (int_wrap (table_size old_table * EXPAND_RATIO)) with
  | None => Fatal out_of_memory
  | Some new_table =>
      match expand_loop fuel dom hash_table old_table
              (Z.to_nat (table_size old_table)) 0 new_table with
      | Done new_table =>
          Done (with_overflow_count (with_table hash_table new_table)
                  (load_factor_of (table_size new_table)))
      | Fatal why => Fatal why
      | Spinning => Spinning
      end
  end.

(** ** Construction *)

(** [g_new0 (MonoConcGHashTable, 1)], with the two function fields the
    constructor stores first. *)
Definition zeroed_handle (hf : gpointer -> Z)
    (eq : option (gpointer -> gpointer -> bool)) : MonoConcGHashTable :=
  {| table := {| table_size := 0; ct_gc_type := 0; keys := []; values := [] |};
     hash_func := hf; equal_func := eq;
     element_count := 0; overflow_count := 0;
     key_destroy_func := None; value_destroy_func := None;
     gc_type := 0 |}.

Definition mono_conc_g_hash_table_new_type
    (hash_func : option (gpointer -> Z))
    (key_equal_func : option (gpointer -> gpointer -> bool))
    (type : Z) : outcome MonoConcGHashTable :=
  let hf := match hash_func with None => g_direct_hash | Some f => f end in
  let hash := zeroed_handle hf key_equal_func in
  match conc_table_new hash INITIAL_SIZE with
  | None => Fatal out_of_memory
  | Some t =>
      let hash := with_table hash t in
      let hash := with_element_count hash 0 in
      let hash := with_overflow_count hash (load_factor_of INITIAL_SIZE) in
      let hash := with_gc_type hash type in
      if type >? MONO_HASH_KEY_VALUE_GC then Fatal wrong_gc_type
      else Done hash
  end.

(** ** Lookup *)

(** What [mono_conc_g_hash_table_lookup_extended] hands back: its boolean
    result and the two cells it writes through [orig_key_ptr] and
    [value_ptr]. *)
Definition lookup_result : Type := (bool * gpointer * gpointer)%type.

(** The probe loop of the branch without an equality function.  On a null
    value under a matching key the source jumps back to [retry], which
    reloads the generation and starts again from the home slot. *)
Fixpoint lookup_identity (fuel : nat) (t : conc_table) (key : gpointer)
    (hash table_mask i : Z) : outcome lookup_result :=
  match fuel with
  | O => Spinning
  | S fuel' =>
      let orig_key := array_get (keys t) i in
      if orig_key =? NULL then Done (false, NULL, NULL)
      else if key =? orig_key then
        let value := array_get (values t) i in
        if value =? NULL
        then lookup_identity fuel' t key hash table_mask (Z.land hash table_mask)
        else Done (true, orig_key, value)
      else lookup_identity fuel' t key hash table_mask (Z.land (i + 1) table_mask)
  end.

(** The probe loop of the branch with an equality function. *)
Fixpoint lookup_equal (fuel : nat) (dom : MonoDomain) (hash_table : MonoConcGHashTable)
    (equal : gpointer -> gpointer -> bool) (t : conc_table) (key : gpointer)
    (hash table_mask i : Z) : outcome lookup_result :=
  match fuel with
  | O => Spinning
  | S fuel' =>
      let orig_key := array_get (keys t) i in
      if orig_key =? NULL then Done (false, NULL, NULL)
      else if negb (key_is_tombstone dom hash_table orig_key) && equal key orig_key then
        let value := array_get (values t) i in
        if value =? NULL
        then lookup_equal fuel' dom hash_table equal t key hash table_mask
               (Z.land hash table_mask)
        else Done (true, orig_key, value)
      else lookup_equal fuel' dom hash_table equal t key hash table_mask
             (Z.land (i + 1) table_mask)
  end.

(** After a probe that ends on an empty slot the source compares
    [hash_table->table] with the generation it probed; with no other thread
    running they are the same and the function reports not-found. *)
Definition mono_conc_g_hash_table_lookup_extended (fuel : nat) (dom : MonoDomain)
    (hash_table : MonoConcGHashTable) (key : gpointer) : outcome lookup_result :=
  let hash := mix_hash (int_wrap (hash_func hash_table key)) in
  let t := table hash_table in
  let table_mask := table_size t - 1 in
  let i := Z.land hash table_mask in
  match equal_func hash_table with
  | None => lookup_identity fuel t key hash table_mask i
  | Some equal => lookup_equal fuel dom hash_table equal t key hash table_mask i
  end.

Definition mono_conc_g_hash_table_lookup (fuel : nat) (dom : MonoDomain)
    (hash : MonoConcGHashTable) (key : gpointer) : outcome gpointer :=
  match mono_conc_g_hash_table_lookup_extended fuel dom hash key with
  | Done (true, _, value) => Done value
  | Done (false, _, _) => Done NULL
  | Fatal why => Fatal why
  | Spinning => Spinning
  end.

(** [mono_conc_g_hash_table_foreach]: the pairs [func] is called with, in
    the order of the calls. *)
Fixpoint foreach_loop (dom : MonoDomain) (hash_table : MonoConcGHashTable)
    (t : conc_table) (n : nat) (i : Z) : list (gpointer * gpointer) :=
  match n with
  | O => []
  | S n' =>
      let k := array_get (keys t) i in
      if negb (k =? NULL) && negb (key_is_tombstone dom hash_table k)
      then (k, array_get (values t) i) :: foreach_loop dom hash_table t n' (i + 1)
      else foreach_loop dom hash_table t n' (i + 1)
  end.

Definition mono_conc_g_hash_table_foreach (dom : MonoDomain)
    (hash_table : MonoConcGHashTable) : list (gpointer * gpointer) :=
  let t := table hash_table in
  foreach_loop dom hash_table t (Z.to_nat (table_size t)) 0.

(** ** Insert *)

(** The store of both branches of insert: value cell, then key cell, then
    the counter. *)
Definition insert_here (hash_table : MonoConcGHashTable) (t : conc_table) (i : Z)
    (key value : gpointer) : MonoConcGHashTable :=
  let t := set_value t i value in
  let t := set_key t i key in
  with_element_count (with_table hash_table t) (int_wrap (element_count hash_table + 1)).

Fixpoint insert_identity (fuel : nat) (dom : MonoDomain) (hash_table : MonoConcGHashTable)
    (t : conc_table) (key value : gpointer) (table_mask i : Z)
    : outcome (MonoConcGHashTable * gpointer) :=
  match fuel with
  | O => Spinning
  | S fuel' =>
      let cur_key := array_get (keys t) i in
      if (cur_key =? NULL) || key_is_tombstone dom hash_table cur_key
      then Done (insert_here hash_table t i key value, NULL)
      else if key =? cur_key then Done (hash_table, array_get (values t) i)
      else insert_identity fuel' dom hash_table t key value table_mask
             (Z.land (i + 1) table_mask)
  end.

Fixpoint insert_equal (fuel : nat) (dom : MonoDomain) (hash_table : MonoConcGHashTable)
    (equal : gpointer -> gpointer -> bool)
    (t : conc_table) (key value : gpointer) (table_mask i : Z)
    : outcome (MonoConcGHashTable * gpointer) :=
  match fuel with
  | O => Spinning
  | S fuel' =>
      let cur_key := array_get (keys t) i in
      if (cur_key =? NULL) || key_is_tombstone dom hash_table cur_key
      then Done (insert_here hash_table t i key value, NULL)
      else if equal key cur_key then Done (hash_table, array_get (values t) i)
      else insert_equal fuel' dom hash_table equal t key value table_mask
             (Z.land (i + 1) table_mask)
  end.

(** Returns the handle after the call and the C result: [NULL] on success,
    the value already stored otherwise. *)
Definition mono_conc_g_hash_table_insert (fuel : nat) (dom : MonoDomain)
    (hash_table : MonoConcGHashTable) (key value : gpointer)
    : outcome (MonoConcGHashTable * gpointer) :=
  if key =? NULL then Fatal assertion_failed
  else if value =? NULL then Fatal assertion_failed
  else
    let hash := mix_hash (int_wrap (hash_func hash_table key)) in
    match (if element_count hash_table >=? overflow_count hash_table
           then expand_table fuel dom hash_table
           else Done hash_table) with
    | Done hash_table =>
        let t := table hash_table in
        let table_mask := table_size t - 1 in
        let i := Z.land hash table_mask in
        match equal_func hash_table with
        | None => insert_identity fuel dom hash_table t key value table_mask i
        | Some equal => insert_equal fuel dom hash_table equal t key value table_mask i
        end
    | Fatal why => Fatal why
    | Spinning => Spinning
    end.

(** ** Remove *)

(** The destroy callbacks of remove, key first. *)
Definition destroy_calls (hash_table : MonoConcGHashTable) (cur_key value : gpointer)
    : list event :=
  (match key_destroy_func hash_table with
   | Some f => [Call f cur_key]
   | None => []
   end) ++
  (match value_destroy_func hash_table with
   | Some f => [Call f value]
   | None => []
   end).

Definition remove_result : Type := (MonoConcGHashTable * gpointer * list event)%type.

Fixpoint remove_identity (fuel : nat) (dom : MonoDomain) (hash_table : MonoConcGHashTable)
    (t : conc_table) (key : gpointer) (table_mask i : Z) : outcome remove_result :=
  match fuel with
  | O => Spinning
  | S fuel' =>
      let cur_key := array_get (keys t) i in
      if cur_key =? NULL then Done (hash_table, NULL, [])
      else if key =? cur_key then
        let value := array_get (values t) i in
        let t := set_value t i NULL in
        let t := set_key_to_tombstone dom t i in
        let hash_table' :=
          with_element_count (with_table hash_table t)
            (int_wrap (element_count hash_table - 1)) in
        Done (hash_table', value, destroy_calls hash_table cur_key value)
      else remove_identity fuel' dom hash_table t key table_mask
             (Z.land (i + 1) table_mask)
  end.

Fixpoint remove_equal (fuel : nat) (dom : MonoDomain) (hash_table : MonoConcGHashTable)
    (equal : gpointer -> gpointer -> bool)
    (t : conc_table) (key : gpointer) (table_mask i : Z) : outcome remove_result :=
  match fuel with
  | O => Spinning
  | S fuel' =>
      let cur_key := array_get (keys t) i in
      if cur_key =? NULL then Done (hash_table, NULL, [])
      else if negb (key_is_tombstone dom hash_table cur_key) && equal key cur_key then
        let value := array_get (values t) i in
        let t := set_value t i NULL in
        let t := set_key_to_tombstone dom t i in
        Done (with_table hash_table t, value, destroy_calls hash_table cur_key value)
      else remove_equal fuel' dom hash_table equal t key table_mask
             (Z.land (i + 1) table_mask)
  end.

Definition mono_conc_g_hash_table_remove (fuel : nat) (dom : MonoDomain)
    (hash_table : MonoConcGHashTable) (key : gpointer) : outcome remove_result :=
  if key =? NULL then Fatal assertion_failed
  else
    let hash := mix_hash (int_wrap (hash_func hash_table key)) in
    let t := table hash_table in
    let table_mask := table_size t - 1 in
    let i := Z.land hash table_mask in
    match equal_func hash_table with
    | None => remove_identity fuel dom hash_table t key table_mask i
    | Some equal => remove_equal fuel dom hash_table equal t key table_mask i
    end.

(** ** Destruction *)

(** The loop of [mono_conc_g_hash_table_destroy] over the slots of the
    current generation: the destroy callbacks it invokes, in the order of
    the calls. *)
Fixpoint destroy_loop (dom : MonoDomain) (hash_table : MonoConcGHashTable)
    (t : conc_table) (n : nat) (i : Z) : list event :=
  match n with
  | O => []
  | S n' =>
      let k := array_get (keys t) i in
      if negb (k =? NULL) && negb (key_is_tombstone dom hash_table k)
      then (match key_destroy_func hash_table with
            | Some f => [Call f k]
            | None => []
            end) ++
           (match value_destroy_func hash_table with
            | Some f => [Call f (array_get (values t) i)]
            | None => []
            end) ++
           destroy_loop dom hash_table t n' (i + 1)
      else destroy_loop dom hash_table t n' (i + 1)
  end.

(** [mono_conc_g_hash_table_destroy]: the loop runs only when one of the
    two callbacks is set.  The generation and the handle are freed
    afterwards; no operation may follow. *)
Definition mono_conc_g_hash_table_destroy (dom : MonoDomain)
    (hash_table : MonoConcGHashTable) : list event :=
  match key_destroy_func hash_table, value_destroy_func hash_table with
  | None, None => []
  | _, _ =>
      let t := table hash_table in
      destroy_loop dom hash_table t (Z.to_nat (table_size t)) 0
  end.

(** ** Runs of the mutator *)

Inductive op :=
| Insert (key value : gpointer)
| Remove (key : gpointer).

Definition apply_op (fuel : nat) (dom : MonoDomain) (h : MonoConcGHashTable) (o : op)
    : outcome MonoConcGHashTable :=
  match o with
  | Insert k v =>
      match mono_conc_g_hash_table_insert fuel dom h k v with
      | Done (h', _) => Done h'
      | Fatal why => Fatal why
      | Spinning => Spinning
      end
  | Remove k =>
      match mono_conc_g_hash_table_remove fuel dom h k with
      | Done (h', _, _) => Done h'
      | Fatal why => Fatal why
      | Spinning => Spinning
      end
  end.

Fixpoint run (fuel : nat) (dom : MonoDomain) (h : MonoConcGHashTable) (ops : list op)
    : outcome MonoConcGHashTable :=
  match ops with
  | [] => Done h
  | o :: rest =>
      match apply_op fuel dom h o with
      | Done h' => run fuel dom h' rest
      | Fatal why => Fatal why
      | Spinning => Spinning
      end
  end.

(** One completed mutation. *)
Inductive step (dom : MonoDomain) (h h' : MonoConcGHashTable) : Prop :=
| step_insert (fuel : nat) (k v r : gpointer) :
    mono_conc_g_hash_table_insert fuel dom h k v = Done (h', r) -> step dom h h'
| step_remove (fuel : nat) (k r : gpointer) (ev : list event) :
    mono_conc_g_hash_table_remove fuel dom h k = Done (h', r, ev) -> step dom h h'.

Inductive reachable_from (dom : MonoDomain) (h0 : MonoConcGHashTable)
    : MonoConcGHashTable -> Prop :=
| reach_start : reachable_from dom h0 h0
| reach_step (h h' : MonoConcGHashTable) :
    reachable_from dom h0 h -> step dom h h' -> reachable_from dom h0 h'.

(** The states of a table: what the constructor returns, and whatever
    completed inserts and removes make of it. *)
Definition reachable (dom : MonoDomain) (h : MonoConcGHashTable) : Prop :=
  exists hf eq ty h0,
    mono_conc_g_hash_table_new_type hf eq ty = Done h0 /\ reachable_from dom h0 h.

(** ** The design document's addressing scheme *)

(** The mixing function in the words of the design document: the product
    reduced to 32 bits, shifted right by 16 (a division that rounds down),
    XOR the 32-bit value of [h * 1823231 + h]. *)
Definition spec_mix (h : Z) : Z :=
  Z.lxor (int_wrap (h * 215497) / 2 ^ 16) (int_wrap (h * 1823231 + h)).

(** Home slot of [key] in a generation of capacity [C], and the [n]-th slot
    of its linear probe sequence. *)
Definition home_slot (C : Z) (hf : gpointer -> Z) (key : gpointer) : Z :=
  mix_hash (int_wrap (hf key)) mod C.

Definition probe_slot (C : Z) (hf : gpointer -> Z) (key : gpointer) (n : nat) : Z :=
  (home_slot C hf key + Z.of_nat n) mod C.

Definition is_pow2 (C : Z) : Prop := exists n, 0 <= n /\ C = 2 ^ n.

(** ** Shape of a handle *)

(** The fields no mutation writes. *)
Definition same_config (h h' : MonoConcGHashTable) : Prop :=
  hash_func h' = hash_func h /\ equal_func h' = equal_func h /\
  gc_type h' = gc_type h /\
  key_destroy_func h' = key_destroy_func h /\
  value_destroy_func h' = value_destroy_func h.

(** The current generation has [2^n] slots. *)
Definition generation_of_size (t : conc_table) (n : Z) : Prop :=
  table_size t = 2 ^ n /\
  length (keys t) = Z.to_nat (2 ^ n) /\ length (values t) = Z.to_nat (2 ^ n).

Definition well_sized (h : MonoConcGHashTable) : Prop :=
  exists n, 5 <= n <= 30 /\ generation_of_size (table h) n /\
            overflow_count h = load_factor_of (2 ^ n).

(** What a completed remove leaves of the handle: either nothing changed,
    or one slot of the same generation was overwritten. *)
Definition removed_at (dom : MonoDomain) (h h' : MonoConcGHashTable) (j : Z) : Prop :=
  table h' = set_key_to_tombstone dom (set_value (table h) j NULL) j /\
  overflow_count h' = overflow_count h /\ same_config h h'.

(** ** Probes *)

(** Number of key cells of an array that are not null. *)
Definition occupied (a : list gpointer) : nat :=
  length (filter (fun c => negb (c =? NULL)) a).

(** [true] when every cell of [a] passes [p]; the probe loops below never
    leave a generation all of whose key cells pass their "keep going"
    test. *)
Definition every_cell (p : gpointer -> bool) (a : list gpointer) : bool := forallb p a.

(** The test [expand_table], iteration and destruction make on a key cell:
    neither null nor a tombstone for the handle. *)
Definition is_live (dom : MonoDomain) (h : MonoConcGHashTable) (c : gpointer) : bool :=
  negb (c =? NULL) && negb (key_is_tombstone dom h c).

(** The test under which the probe of lookup takes the cell [c] for [key]:
    identity without an equality function, otherwise the equality function
    on cells that are no tombstone. *)
Definition lookup_matches (dom : MonoDomain) (h : MonoConcGHashTable)
    (key c : gpointer) : bool :=
  match equal_func h with
  | None => key =? c
  | Some equal => negb (key_is_tombstone dom h c) && equal key c
  end.

(** The test insert makes on an occupied cell. *)
Definition insert_same (h : MonoConcGHashTable) (key c : gpointer) : bool :=
  match equal_func h with
  | None => key =? c
  | Some equal => equal key c
  end.

(** The shape the two probe loops of lookup share: [matches] is the test
    that takes a cell for the key. *)
Fixpoint lookup_probe (matches : gpointer -> bool) (fuel : nat) (t : conc_table)
    (hash table_mask i : Z) : outcome lookup_result :=
  match fuel with
  | O => Spinning
  | S fuel' =>
      let orig_key := array_get (keys t) i in
      if orig_key =? NULL then Done (false, NULL, NULL)
      else if matches orig_key then
        let value := array_get (values t) i in
        if value =? NULL
        then lookup_probe matches fuel' t hash table_mask (Z.land hash table_mask)
        else Done (true, orig_key, value)
      else lookup_probe matches fuel' t hash table_mask (Z.land (i + 1) table_mask)
  end.

(** The shape the two probe loops of insert share: [same] is the test made
    on a cell that is neither null nor a tombstone. *)
Fixpoint insert_probe (same : gpointer -> bool) (fuel : nat) (dom : MonoDomain)
    (hash_table : MonoConcGHashTable) (t : conc_table) (key value : gpointer)
    (table_mask i : Z) : outcome (MonoConcGHashTable * gpointer) :=
  match fuel with
  | O => Spinning
  | S fuel' =>
      let cur_key := array_get (keys t) i in
      if (cur_key =? NULL) || key_is_tombstone dom hash_table cur_key
      then Done (insert_here hash_table t i key value, NULL)
      else if same cur_key then Done (hash_table, array_get (values t) i)
      else insert_probe same fuel' dom hash_table t key value table_mask
             (Z.land (i + 1) table_mask)
  end.

(** The shape the two probe loops of remove share: [matches] is the test
    that takes a cell for the key, [counted] tells whether the branch
    decrements the element count. *)
Fixpoint remove_probe (matches : gpointer -> bool) (counted : bool) (fuel : nat)
    (dom : MonoDomain) (hash_table : MonoConcGHashTable) (t : conc_table)
    (table_mask i : Z) : outcome remove_result :=
  match fuel with
  | O => Spinning
  | S fuel' =>
      let cur_key := array_get (keys t) i in
      if cur_key =? NULL then Done (hash_table, NULL, [])
      else if matches cur_key then
        let value := array_get (values t) i in
        let t := set_value t i NULL in
        let t := set_key_to_tombstone dom t i in
        let hash_table' := with_table hash_table t in
        Done (if counted
              then with_element_count hash_table' (int_wrap (element_count hash_table - 1))
              else hash_table',
              value, destroy_calls hash_table cur_key value)
      else remove_probe matches counted fuel' dom hash_table t table_mask
             (Z.land (i + 1) table_mask)
  end.

(** No occupied cell of [a] is taken for [key] by lookup. *)
Definition absent (dom : MonoDomain) (h : MonoConcGHashTable) (key : gpointer)
    (a : list gpointer) : Prop :=
  forall c, In c a -> c <> NULL -> lookup_matches dom h key c = false.

(** The probe for [key] in the generation [t] meets, after [m] live slots
    that hold nothing else it would take for [key], a live slot that holds
    [ok] next to the non-null value [v0], and takes [ok] for [key]. *)
Definition found_at (dom : MonoDomain) (h : MonoConcGHashTable) (t : conc_table)
    (key : gpointer) (m : nat) (ok v0 : gpointer) : Prop :=
  let slot := probe_slot (table_size t) (hash_func h) key in
  array_get (keys t) (slot m) = ok /\ array_get (values t) (slot m) = v0 /\
  v0 <> NULL /\ is_live dom h ok = true /\ lookup_matches dom h key ok = true /\
  forall d, (d < m)%nat ->
    is_live dom h (array_get (keys t) (slot d)) = true /\
    (lookup_matches dom h key (array_get (keys t) (slot d)) = true ->
     array_get (keys t) (slot d) = ok /\ array_get (values t) (slot d) = v0).

(** Every live slot of [t] that lookup would take for [key] holds the pair
    [(ok, v0)]: the key has no second entry. *)
Definition single_entry (dom : MonoDomain) (h : MonoConcGHashTable) (t : conc_table)
    (key ok v0 : gpointer) : Prop :=
  forall i, 0 <= i < table_size t ->
    is_live dom h (array_get (keys t) i) = true ->
    lookup_matches dom h key (array_get (keys t) i) = true ->
    array_get (keys t) i = ok /\ array_get (values t) i = v0.

(** At most one live slot of the current generation holds a key that
    lookup takes for [key]. *)
Definition one_entry (dom : MonoDomain) (h : MonoConcGHashTable) (key : gpointer) : Prop :=
  forall i j,
    0 <= i < table_size (table h) -> 0 <= j < table_size (table h) ->
    is_live dom h (array_get (keys (table h)) i) = true ->
    is_live dom h (array_get (keys (table h)) j) = true ->
    lookup_matches dom h key (array_get (keys (table h)) i) = true ->
    lookup_matches dom h key (array_get (keys (table h)) j) = true ->
    i = j.

(** The probe for [key] passes [m] occupied slots that lookup does not take
    for [key], and then reads the key cell [c]. *)
Definition probe_reaches (dom : MonoDomain) (h : MonoConcGHashTable)
    (key : gpointer) (m : nat) (c : gpointer) : Prop :=
  let slot := probe_slot (table_size (table h)) (hash_func h) key in
  array_get (keys (table h)) (slot m) = c /\
  forall d, (d < m)%nat ->
    array_get (keys (table h)) (slot d) <> NULL /\
    lookup_matches dom h key (array_get (keys (table h)) (slot d)) = false.

(** What iteration makes of slot [i] of the generation [t]: the pair the
    slot holds when its key is live for the handle, nothing otherwise. *)
Definition entry_at (dom : MonoDomain) (h : MonoConcGHashTable) (t : conc_table) (i : Z)
    : list (gpointer * gpointer) :=
  if is_live dom h (array_get (keys t) i)
  then [(array_get (keys t) i, array_get (values t) i)]
  else [].

(** ** Invariants of a generation *)

(** The slot invariant of the design document at slot [i]: the value cell
    is null exactly when the slot is empty or a tombstone, where a
    tombstone is what [key_is_tombstone] recognises. *)
Definition slot_invariant_at (dom : MonoDomain) (h : MonoConcGHashTable) (i : Z) : bool :=
  let k := array_get (keys (table h)) i in
  let v := array_get (values (table h)) i in
  Bool.eqb (v =? NULL) ((k =? NULL) || key_is_tombstone dom h k).

Definition slot_invariant (dom : MonoDomain) (h : MonoConcGHashTable) : bool :=
  forallb (fun n => slot_invariant_at dom h (Z.of_nat n))
          (seq 0 (Z.to_nat (table_size (table h)))).

(** The slot invariant on every slot of the generation [t], with the
    tombstones the handle [h] recognises. *)
Definition cells_ok (dom : MonoDomain) (h : MonoConcGHashTable) (t : conc_table) : Prop :=
  forall i, 0 <= i < table_size t ->
    Bool.eqb (array_get (values t) i =? NULL)
             ((array_get (keys t) i =? NULL)
              || key_is_tombstone dom h (array_get (keys t) i)) = true.

Definition slot_ok (dom : MonoDomain) (h : MonoConcGHashTable) : Prop :=
  cells_ok dom h (table h).

(** The generation marks removed keys with the tombstone the handle
    recognises. *)
Definition modes_agree (h : MonoConcGHashTable) : Prop :=
  has_flag (ct_gc_type (table h)) MONO_HASH_KEY_GC = has_flag (gc_type h) MONO_HASH_KEY_GC.

(** The keys a run inserts are no tombstone for the handle [h]. *)
Definition inserts_no_tombstone (dom : MonoDomain) (h : MonoConcGHashTable)
    (ops : list op) : Prop :=
  Forall (fun o => match o with
                   | Insert k _ => key_is_tombstone dom h k = false
                   | Remove _ => True
                   end) ops.

(** Linear probing as an invariant of a generation: from the home slot of
    the key it holds up to an occupied slot, no slot is empty. *)
Definition chained (hf : gpointer -> Z) (t : conc_table) : Prop :=
  forall j, 0 <= j < table_size t -> array_get (keys t) j <> NULL ->
  exists m, Z.of_nat m < table_size t /\
    j = probe_slot (table_size t) hf (array_get (keys t) j) m /\
    forall d, (d < m)%nat ->
      array_get (keys t) (probe_slot (table_size t) hf (array_get (keys t) j) d) <> NULL.

(** The occupied slots of the new generation [t] are copies of live slots
    of [old] below index [i], and each of those has a copy. *)
Definition copied (dom : MonoDomain) (h : MonoConcGHashTable) (old t : conc_table)
    (i : Z) : Prop :=
  (forall j, 0 <= j < table_size t -> array_get (keys t) j <> NULL ->
     exists i0, 0 <= i0 < i /\ is_live dom h (array_get (keys old) i0) = true /\
       array_get (keys t) j = array_get (keys old) i0 /\
       array_get (values t) j = array_get (values old) i0) /\
  (forall i0, 0 <= i0 < i -> is_live dom h (array_get (keys old) i0) = true ->
     exists j, 0 <= j < table_size t /\
       array_get (keys t) j = array_get (keys old) i0 /\
       array_get (values t) j = array_get (values old) i0).

(** The key [set_key_to_tombstone] writes into the generation [t]. *)
Definition tombstone_of (dom : MonoDomain) (t : conc_table) : gpointer :=
  if has_flag (ct_gc_type t) MONO_HASH_KEY_GC
  then ephemeron_tombstone dom
  else PTR_TOMBSTONE.

(** Linear probing as an invariant of the handle: from the home slot of a
    live key up to the slot that holds it, no slot is empty. *)
Definition linked (dom : MonoDomain) (h : MonoConcGHashTable) : Prop :=
  forall j, 0 <= j < table_size (table h) ->
    is_live dom h (array_get (keys (table h)) j) = true ->
    exists m, Z.of_nat m < table_size (table h) /\
      let slot := probe_slot (table_size (table h)) (hash_func h)
                    (array_get (keys (table h)) j) in
      j = slot m /\
      forall d, (d < m)%nat -> array_get (keys (table h)) (slot d) <> NULL.

(** The invariants of a handle whose generation was created in the mode
    of the handle: the capacity is a power of two with its threshold, a
    removed slot is marked with the tombstone the handle recognises and
    that tombstone is not the null pointer, the slot invariant holds, and
    the probe chains are unbroken. *)
Definition sound (dom : MonoDomain) (h : MonoConcGHashTable) : Prop :=
  well_sized h /\ modes_agree h /\ tombstone_of dom (table h) <> NULL /\
  slot_ok dom h /\ linked dom h.

(** No operation of a run has the tombstone of the handle [h] for its
    key. *)
Definition keys_no_tombstone (dom : MonoDomain) (h : MonoConcGHashTable)
    (ops : list op) : Prop :=
  Forall (fun o => match o with
                   | Insert k _ => key_is_tombstone dom h k = false
                   | Remove k => key_is_tombstone dom h k = false
                   end) ops.

(** The element count against what iteration visits: never less, never
    above the threshold, and equal in a table without an equality
    function. *)
Definition counted (dom : MonoDomain) (h : MonoConcGHashTable) : Prop :=
  Z.of_nat (length (mono_conc_g_hash_table_foreach dom h)) <= element_count h /\
  element_count h <= overflow_count h /\
  (equal_func h = None ->
   element_count h = Z.of_nat (length (mono_conc_g_hash_table_foreach dom h))).

(** ** A claim of the design document, as it is worded *)

(** C5 as it is stated: whenever lookup finds [k] with the value [v0], a
    completed [insert (k, v1)] returns [v0] and leaves the handle as it
    was. *)
Definition insert_if_absent_claim (dom : MonoDomain) : Prop :=
  forall h fuel k ok v0 v1 h' r,
    reachable dom h ->
    mono_conc_g_hash_table_lookup_extended fuel dom h k = Done (true, ok, v0) ->
    mono_conc_g_hash_table_insert fuel dom h k v1 = Done (h', r) ->
    r = v0 /\ h' = h.

(** ** Concrete runs *)

(** A domain whose ephemeron tombstone is the object at address [4096]. *)
Definition a_domain : MonoDomain := {| ephemeron_tombstone := 4096 |}.

(** A hash function for a caller to pass: the low 32 bits of the key. *)
Definition low_bits (key : gpointer) : Z := key mod 2 ^ 32.

(** The keys [8, 16, ..., 8 * n]. *)
Definition aligned_keys (n : nat) : list gpointer :=
  map (fun i => Z.of_nat i * 8) (seq 1 n).

(** Insert each key (with itself as value) and remove it again. *)
Definition churn (ks : list gpointer) : list op :=
  flat_map (fun k => [Insert k k; Remove k]) ks.

(** Insert the keys [8 * i] with value [i], for [i] from [first] on. *)
Definition fill (first count : nat) : list op :=
  map (fun i => Insert (Z.of_nat i * 8) (Z.of_nat i)) (seq first count).

(** A handle as the constructor leaves it for the hash function
    [low_bits], but for the generation, the element count and the
    threshold. *)
Definition handle_with (eq : option (gpointer -> gpointer -> bool)) (ty : Z)
    (t : conc_table) (count overflow : Z) : MonoConcGHashTable :=
  {| table := t; hash_func := low_bits; equal_func := eq;
     element_count := count; overflow_count := overflow;
     key_destroy_func := None; value_destroy_func := None; gc_type := ty |}.

(** A first generation whose 32 key cells all hold [PTR_TOMBSTONE]. *)
Definition worn_out_generation : conc_table :=
  {| table_size := 32; ct_gc_type := 0;
     keys := repeat PTR_TOMBSTONE 32; values := repeat NULL 32 |}.

(** The handle around a worn-out first generation: no live element. *)
Definition worn_out_table (ty : Z) : MonoConcGHashTable :=
  handle_with None ty worn_out_generation 0 24.

(** A first generation that holds the given cells [(slot, key, value)] and
    is empty elsewhere. *)
Definition first_generation (cells : list (Z * gpointer * gpointer)) : conc_table :=
  fold_left (fun t c => let '(slot, k, v) := c in set_value (set_key t slot k) slot v)
    cells
    {| table_size := 32; ct_gc_type := 0;
       keys := repeat NULL 32; values := repeat NULL 32 |}.

(** The handle a run of [ops] leaves, from a table just constructed with
    the hash function [low_bits], the equality function [eq] and the mode
    [ty]. *)
Definition table_after (dom : MonoDomain)
    (eq : option (gpointer -> gpointer -> bool)) (ty : Z) (ops : list op)
    : option MonoConcGHashTable :=
  match mono_conc_g_hash_table_new_type (Some low_bits) eq ty with
  | Done h0 =>
      match run 64 dom h0 ops with
      | Done h => Some h
      | _ => None
      end
  | _ => None
  end.

(** The data of a handle, without its function fields. *)
Definition snapshot (h : MonoConcGHashTable) : conc_table * Z * Z :=
  (table h, element_count h, overflow_count h).

Definition snapshot_of (o : outcome MonoConcGHashTable) : option (conc_table * Z * Z) :=
  match o with
  | Done h => Some (snapshot h)
  | _ => None
  end.

(** Two runs that end with the element count on the threshold of the
    first generation.  The second inserts [360] once more after the
    removal of [136] has left a tombstone in their common home slot. *)
Definition remove_8_then_fill : list op :=
  [Insert 8 80; Remove 8] ++ fill 2 24.

Definition twice_360_then_fill : list op :=
  [Insert 136 1; Insert 360 2; Remove 136; Insert 360 3] ++ fill 1 16 ++ fill 18 6.

(** The table just constructed with the hash function [low_bits], no
    equality function and the conservative mode; the same table after
    [insert (8, 80)], and after [insert (16, 2)] as well.  Under
    [low_bits] the key [8] has the home slot 26 and the key [16] the home
    slot 20. *)
Definition empty_table : MonoConcGHashTable :=
  handle_with None 0 (first_generation []) 0 24.

Definition table_of_8 : MonoConcGHashTable :=
  handle_with None 0 (first_generation [(26, 8, 80)]) 1 24.

Definition table_of_8_16 : MonoConcGHashTable :=
  handle_with None 0 (first_generation [(26, 8, 80); (20, 16, 2)]) 2 24.

(** A handle with both destroy callbacks set, at the addresses [kf] and
    [vf]. *)
Definition with_destroy_funcs (h : MonoConcGHashTable) (kf vf : GDestroyNotify)
    : MonoConcGHashTable :=
  {| table := table h; hash_func := hash_func h; equal_func := equal_func h;
     element_count := element_count h; overflow_count := overflow_count h;
     key_destroy_func := Some kf; value_destroy_func := Some vf;
     gc_type := gc_type h |}.

(** * Properties *)

(** ** Machine arithmetic *)

Lemma int_wrap_range z : - 2 ^ 31 <= int_wrap z < 2 ^ 31.
Proof.
  unfold int_wrap.
  pose proof (Z.mod_pos_bound (z + 2 ^ 31) (2 ^ 32) ltac:(lia)). lia.
Qed.

Lemma int_wrap_small z : - 2 ^ 31 <= z < 2 ^ 31 -> int_wrap z = z.
Proof.
  intros Hz. unfold int_wrap. rewrite Z.mod_small; lia.
Qed.

Lemma int_wrap_add_l a b : int_wrap (int_wrap a + b) = int_wrap (a + b).
Proof.
  unfold int_wrap.
  replace ((a + 2 ^ 31) mod 2 ^ 32 - 2 ^ 31 + b + 2 ^ 31)
    with ((a + 2 ^ 31) mod 2 ^ 32 + b) by lia.
  rewrite Z.add_mod_idemp_l by lia.
  do 2 f_equal. lia.
Qed.

Lemma int_range_shiftr z : - 2 ^ 31 <= z < 2 ^ 31 <-> (Z.shiftr z 31 = 0 \/ Z.shiftr z 31 = -1).
Proof.
  rewrite Z.shiftr_div_pow2 by lia.
  pose proof (Z.div_mod z (2 ^ 31) ltac:(lia)) as E.
  pose proof (Z.mod_pos_bound z (2 ^ 31) ltac:(lia)) as B.
  split; intros H.
  - assert (z / 2 ^ 31 = 0 \/ z / 2 ^ 31 = -1) by nia. assumption.
  - destruct H as [H | H]; rewrite H in E; lia.
Qed.

Lemma lxor_int_range a b :
  - 2 ^ 31 <= a < 2 ^ 31 -> - 2 ^ 31 <= b < 2 ^ 31 -> - 2 ^ 31 <= Z.lxor a b < 2 ^ 31.
Proof.
  intros Ha Hb. apply int_range_shiftr in Ha, Hb. apply int_range_shiftr.
  rewrite Z.shiftr_lxor.
  destruct Ha as [-> | ->], Hb as [-> | ->]; cbn; auto.
Qed.

Lemma shiftr_int_range a n : 0 <= n -> - 2 ^ 31 <= a < 2 ^ 31 -> - 2 ^ 31 <= Z.shiftr a n < 2 ^ 31.
Proof.
  intros Hn Ha. rewrite Z.shiftr_div_pow2 by lia.
  assert (0 < 2 ^ n) by (apply Z.pow_pos_nonneg; lia).
  split.
  - apply Z.div_le_lower_bound; [lia | nia].
  - apply Z.div_lt_upper_bound; [lia | nia].
Qed.

Lemma mix_hash_range h : - 2 ^ 31 <= mix_hash h < 2 ^ 31.
Proof.
  unfold mix_hash. apply lxor_int_range.
  - apply shiftr_int_range; [lia | apply int_wrap_range].
  - apply int_wrap_range.
Qed.

Lemma mix_hash_spec h : mix_hash h = spec_mix h.
Proof.
  unfold mix_hash, spec_mix.
  rewrite Z.shiftr_div_pow2 by lia. rewrite int_wrap_add_l. reflexivity.
Qed.

(** ** Masks of a power-of-two capacity *)

Lemma pow2_pos C : is_pow2 C -> 0 < C.
Proof. intros (n & Hn & ->). apply Z.pow_pos_nonneg; lia. Qed.

Lemma land_mask C m : is_pow2 C -> Z.land m (C - 1) = m mod C.
Proof.
  intros (n & Hn & ->).
  replace (2 ^ n - 1) with (Z.ones n) by (rewrite Z.ones_equiv; lia).
  apply Z.land_ones; assumption.
Qed.

Lemma land_mask_range C m : is_pow2 C -> 0 <= Z.land m (C - 1) < C.
Proof.
  intros HC. rewrite land_mask by assumption.
  apply Z.mod_pos_bound, pow2_pos, HC.
Qed.

Lemma next_slot_mod C m (n : nat) :
  is_pow2 C -> Z.land ((m + Z.of_nat n) mod C + 1) (C - 1) = (m + Z.of_nat (S n)) mod C.
Proof.
  intros HC. rewrite land_mask by assumption.
  pose proof (pow2_pos C HC).
  rewrite Z.add_mod_idemp_l by lia. f_equal. lia.
Qed.

Lemma home_slot_land C hf key :
  is_pow2 C -> Z.land (mix_hash (int_wrap (hf key))) (C - 1) = probe_slot C hf key 0.
Proof.
  intros HC. unfold probe_slot, home_slot. rewrite land_mask by assumption.
  rewrite Z.add_0_r, Z.mod_mod; [reflexivity | pose proof (pow2_pos C HC); lia].
Qed.

Lemma probe_slot_next C hf key n :
  is_pow2 C -> Z.land (probe_slot C hf key n + 1) (C - 1) = probe_slot C hf key (S n).
Proof. intros HC. unfold probe_slot. apply next_slot_mod, HC. Qed.

Lemma probe_slot_range C hf key n : is_pow2 C -> 0 <= probe_slot C hf key n < C.
Proof. intros HC. apply Z.mod_pos_bound, pow2_pos, HC. Qed.

(** ** Every probe loop walks the probe sequence of its key *)

Section ProbeSequence.

Variable C : Z.
Hypothesis HC : is_pow2 C.
Variable hf : gpointer -> Z.
Variable key : gpointer.

Let hash := mix_hash (int_wrap (hf key)).
Let slot := probe_slot C hf key.

Local Ltac next_slot IH n0 :=
  eapply (IH (S n0)); [ | eassumption];
  subst slot; cbv beta; rewrite <- probe_slot_next by exact HC; congruence.

Local Ltac home IH :=
  eapply (IH O); [ | eassumption];
  subst slot hash; cbv beta; apply home_slot_land; exact HC.

Lemma first_null_key_on_path fuel t : forall n0 i j,
  i = slot n0 ->
  first_null_key fuel t (C - 1) i = Some j ->
  exists n, j = slot n /\ array_get (keys t) j = NULL.
Proof.
  induction fuel as [| fuel IH]; intros n0 i j Hi H; cbn in H; [discriminate |].
  destruct (array_get (keys t) i =? NULL) eqn:E.
  - injection H as <-. exists n0. split; [assumption | apply Z.eqb_eq, E].
  - next_slot IH n0.
Qed.

Lemma lookup_identity_on_path fuel t : forall n0 i ok v,
  i = slot n0 ->
  lookup_identity fuel t key hash (C - 1) i = Done (true, ok, v) ->
  exists n, ok = array_get (keys t) (slot n) /\ v = array_get (values t) (slot n).
Proof.
  induction fuel as [| fuel IH]; intros n0 i ok v Hi H; cbn in H; [discriminate |].
  destruct (array_get (keys t) i =? NULL); [discriminate |].
  destruct (key =? array_get (keys t) i).
  - destruct (array_get (values t) i =? NULL).
    + home IH.
    + injection H as <- <-. exists n0. subst i. auto.
  - next_slot IH n0.
Qed.

Lemma lookup_equal_on_path fuel dom h equal t : forall n0 i ok v,
  i = slot n0 ->
  lookup_equal fuel dom h equal t key hash (C - 1) i = Done (true, ok, v) ->
  exists n, ok = array_get (keys t) (slot n) /\ v = array_get (values t) (slot n).
Proof.
  induction fuel as [| fuel IH]; intros n0 i ok v Hi H; cbn in H; [discriminate |].
  destruct (array_get (keys t) i =? NULL); [discriminate |].
  destruct (negb (key_is_tombstone dom h (array_get (keys t) i))
            && equal key (array_get (keys t) i)).
  - destruct (array_get (values t) i =? NULL).
    + home IH.
    + injection H as <- <-. exists n0. subst i. auto.
  - next_slot IH n0.
Qed.

Lemma insert_identity_on_path fuel dom h t value : forall n0 i h' r,
  i = slot n0 ->
  insert_identity fuel dom h t key value (C - 1) i = Done (h', r) ->
  exists n,
    (h' = insert_here h t (slot n) key value /\ r = NULL) \/
    (h' = h /\ r = array_get (values t) (slot n)).
Proof.
  induction fuel as [| fuel IH]; intros n0 i h' r Hi H; cbn in H; [discriminate |].
  destruct ((array_get (keys t) i =? NULL)
            || key_is_tombstone dom h (array_get (keys t) i)).
  - injection H as <- <-. exists n0. subst i. auto.
  - destruct (key =? array_get (keys t) i).
    + injection H as <- <-. exists n0. subst i. auto.
    + next_slot IH n0.
Qed.

Lemma insert_equal_on_path fuel dom h equal t value : forall n0 i h' r,
  i = slot n0 ->
  insert_equal fuel dom h equal t key value (C - 1) i = Done (h', r) ->
  exists n,
    (h' = insert_here h t (slot n) key value /\ r = NULL) \/
    (h' = h /\ r = array_get (values t) (slot n)).
Proof.
  induction fuel as [| fuel IH]; intros n0 i h' r Hi H; cbn in H; [discriminate |].
  destruct ((array_get (keys t) i =? NULL)
            || key_is_tombstone dom h (array_get (keys t) i)).
  - injection H as <- <-. exists n0. subst i. auto.
  - destruct (equal key (array_get (keys t) i)).
    + injection H as <- <-. exists n0. subst i. auto.
    + next_slot IH n0.
Qed.

Lemma remove_identity_on_path fuel dom h t : forall n0 i h' r ev,
  i = slot n0 ->
  remove_identity fuel dom h t key (C - 1) i = Done (h', r, ev) ->
  (h' = h /\ r = NULL) \/
  exists n,
    table h' = set_key_to_tombstone dom (set_value t (slot n) NULL) (slot n) /\
    r = array_get (values t) (slot n).
Proof.
  induction fuel as [| fuel IH]; intros n0 i h' r ev Hi H; cbn in H; [discriminate |].
  destruct (array_get (keys t) i =? NULL).
  - injection H as <- <- _. auto.
  - destruct (key =? array_get (keys t) i).
    + injection H as <- <- _. right. exists n0. subst i. auto.
    + next_slot IH n0.
Qed.

Lemma remove_equal_on_path fuel dom h equal t : forall n0 i h' r ev,
  i = slot n0 ->
  remove_equal fuel dom h equal t key (C - 1) i = Done (h', r, ev) ->
  (h' = h /\ r = NULL) \/
  exists n,
    table h' = set_key_to_tombstone dom (set_value t (slot n) NULL) (slot n) /\
    r = array_get (values t) (slot n).
Proof.
  induction fuel as [| fuel IH]; intros n0 i h' r ev Hi H; cbn in H; [discriminate |].
  destruct (array_get (keys t) i =? NULL).
  - injection H as <- <- _. auto.
  - destruct (negb (key_is_tombstone dom h (array_get (keys t) i))
              && equal key (array_get (keys t) i)).
    + injection H as <- <- _. right. exists n0. subst i. auto.
    + next_slot IH n0.
Qed.

End ProbeSequence.

(** ** Shape of the handle *)

Lemma set_nth_length a : forall n x, length (set_nth a n x) = length a.
Proof. induction a as [| y a IH]; intros [| n] x; cbn; auto. Qed.

Lemma array_set_length a i x : length (array_set a i x) = length a.
Proof. apply set_nth_length. Qed.

Lemma same_config_refl h : same_config h h.
Proof. repeat split. Qed.

Lemma same_config_trans h1 h2 h3 :
  same_config h1 h2 -> same_config h2 h3 -> same_config h1 h3.
Proof. unfold same_config. intuition congruence. Qed.

Lemma well_sized_pow2 h : well_sized h -> is_pow2 (table_size (table h)).
Proof. intros (n & Hn & (Hs & _) & _). exists n. split; [lia | exact Hs]. Qed.

Lemma insert_one_local_size fuel t hf k v t' n :
  insert_one_local fuel t hf k v = Done t' ->
  generation_of_size t n -> generation_of_size t' n /\ ct_gc_type t' = ct_gc_type t.
Proof.
  unfold insert_one_local. intros H (Hs & Hk & Hv).
  destruct (first_null_key _ _ _ _); [| discriminate].
  injection H as <-. unfold generation_of_size. cbn.
  rewrite !array_set_length. repeat split; assumption.
Qed.

Lemma expand_loop_size fuel dom h old : forall cnt i t t' n,
  expand_loop fuel dom h old cnt i t = Done t' ->
  generation_of_size t n -> generation_of_size t' n /\ ct_gc_type t' = ct_gc_type t.
Proof.
  induction cnt as [| cnt IH]; intros i t t' n H Ht; cbn in H.
  - injection H as <-. auto.
  - destruct (negb (array_get (keys old) i =? NULL)
              && negb (key_is_tombstone dom h (array_get (keys old) i))).
    + destruct (insert_one_local _ _ _ _ _) as [t1 | |] eqn:E; try discriminate.
      destruct (insert_one_local_size _ _ _ _ _ _ _ E Ht) as [Ht1 Hg].
      destruct (IH _ _ _ _ H Ht1) as [Ht' Hg']. split; [assumption | congruence].
    + eauto.
Qed.

Lemma int_wrap_double n : 5 <= n <= 30 ->
  int_wrap (2 ^ n * EXPAND_RATIO) = if n <? 30 then 2 ^ (n + 1) else - 2 ^ 31.
Proof.
  intros Hn. unfold EXPAND_RATIO.
  replace (2 ^ n * 2) with (2 ^ (n + 1)) by (rewrite Z.pow_add_r by lia; lia).
  destruct (n <? 30) eqn:E.
  - apply Z.ltb_lt in E. apply int_wrap_small.
    assert (2 ^ (n + 1) <= 2 ^ 30) by (apply Z.pow_le_mono_r; lia).
    assert (0 < 2 ^ (n + 1)) by (apply Z.pow_pos_nonneg; lia). lia.
  - apply Z.ltb_ge in E. replace n with 30 by lia. reflexivity.
Qed.

Lemma conc_table_new_size h n t :
  0 <= n -> conc_table_new h (2 ^ n) = Some t ->
  generation_of_size t n /\ ct_gc_type t = gc_type h.
Proof.
  intros Hn. unfold conc_table_new.
  assert (0 < 2 ^ n) by (apply Z.pow_pos_nonneg; lia).
  destruct (2 ^ n <? 0) eqn:E; [apply Z.ltb_lt in E; lia |].
  intros [= <-]. unfold generation_of_size. cbn. rewrite !repeat_length.
  repeat split.
Qed.

(** A completed resize doubles the capacity and recomputes the threshold;
    it can only complete below [2^30] slots. *)
Lemma expand_table_shape fuel dom h h' n :
  5 <= n <= 30 -> generation_of_size (table h) n ->
  expand_table fuel dom h = Done h' ->
  n < 30 /\ generation_of_size (table h') (n + 1) /\
  overflow_count h' = load_factor_of (2 ^ (n + 1)) /\
  element_count h' = element_count h /\ same_config h h' /\
  ct_gc_type (table h') = gc_type h.
Proof.
  intros Hn Hg. pose proof Hg as (Hs & _). unfold expand_table.
  rewrite Hs, int_wrap_double by assumption.
  destruct (n <? 30) eqn:E; [apply Z.ltb_lt in E | intros; discriminate].
  destruct (conc_table_new h (2 ^ (n + 1))) as [t0 |] eqn:En; [| discriminate].
  apply conc_table_new_size in En; [| lia]. destruct En as [Hg0 Hgc0].
  destruct (expand_loop _ _ _ _ _ _ _) as [t1 | |] eqn:El; try discriminate.
  destruct (expand_loop_size _ _ _ _ _ _ _ _ _ El Hg0) as [Hg1 Hgc1].
  intros [= <-]. cbn. pose proof Hg1 as (Hs1 & _). rewrite Hs1.
  repeat split; try assumption; try congruence. apply Hg1. apply Hg1.
Qed.

Lemma insert_here_shape h t j k v n :
  generation_of_size t n ->
  generation_of_size (table (insert_here h t j k v)) n /\
  overflow_count (insert_here h t j k v) = overflow_count h /\
  same_config h (insert_here h t j k v) /\
  ct_gc_type (table (insert_here h t j k v)) = ct_gc_type t.
Proof.
  intros (Hs & Hk & Hv). unfold generation_of_size, same_config. cbn.
  rewrite !array_set_length. repeat split; assumption.
Qed.

Lemma insert_identity_cases fuel dom h t key value mask : forall i h' r,
  insert_identity fuel dom h t key value mask i = Done (h', r) ->
  (exists j, h' = insert_here h t j key value /\ r = NULL) \/ h' = h.
Proof.
  induction fuel as [| fuel IH]; intros i h' r H; cbn in H; [discriminate |].
  destruct ((array_get (keys t) i =? NULL)
            || key_is_tombstone dom h (array_get (keys t) i)).
  - injection H as <- <-. eauto.
  - destruct (key =? array_get (keys t) i); [injection H as <- <-; auto | eauto].
Qed.

Lemma insert_equal_cases fuel dom h equal t key value mask : forall i h' r,
  insert_equal fuel dom h equal t key value mask i = Done (h', r) ->
  (exists j, h' = insert_here h t j key value /\ r = NULL) \/ h' = h.
Proof.
  induction fuel as [| fuel IH]; intros i h' r H; cbn in H; [discriminate |].
  destruct ((array_get (keys t) i =? NULL)
            || key_is_tombstone dom h (array_get (keys t) i)).
  - injection H as <- <-. eauto.
  - destruct (equal key (array_get (keys t) i)); [injection H as <- <-; auto | eauto].
Qed.

Lemma set_key_to_tombstone_size dom t j n :
  generation_of_size t n ->
  generation_of_size (set_key_to_tombstone dom t j) n /\
  ct_gc_type (set_key_to_tombstone dom t j) = ct_gc_type t.
Proof.
  intros (Hs & Hk & Hv). unfold set_key_to_tombstone, generation_of_size.
  destruct (has_flag _ _); cbn; rewrite !array_set_length; repeat split; assumption.
Qed.

Lemma set_value_size t j v n :
  generation_of_size t n ->
  generation_of_size (set_value t j v) n /\ ct_gc_type (set_value t j v) = ct_gc_type t.
Proof.
  intros (Hs & Hk & Hv). unfold generation_of_size. cbn.
  rewrite !array_set_length. repeat split; assumption.
Qed.

Lemma remove_identity_cases fuel dom h key mask : forall i h' r ev,
  remove_identity fuel dom h (table h) key mask i = Done (h', r, ev) ->
  h' = h \/ exists j, removed_at dom h h' j /\
                      element_count h' = int_wrap (element_count h - 1).
Proof.
  induction fuel as [| fuel IH]; intros i h' r ev H; cbn in H; [discriminate |].
  destruct (array_get (keys (table h)) i =? NULL).
  - injection H as <- _ _. auto.
  - destruct (key =? array_get (keys (table h)) i); [| eauto].
    injection H as <- _ _. right. exists i. repeat split.
Qed.

Lemma remove_equal_cases fuel dom h equal key mask : forall i h' r ev,
  remove_equal fuel dom h equal (table h) key mask i = Done (h', r, ev) ->
  h' = h \/ exists j, removed_at dom h h' j /\ element_count h' = element_count h.
Proof.
  induction fuel as [| fuel IH]; intros i h' r ev H; cbn in H; [discriminate |].
  destruct (array_get (keys (table h)) i =? NULL).
  - injection H as <- _ _. auto.
  - destruct (negb (key_is_tombstone dom h (array_get (keys (table h)) i))
              && equal key (array_get (keys (table h)) i)); [| eauto].
    injection H as <- _ _. right. exists i. repeat split.
Qed.

Lemma new_type_done hf eq ty h :
  mono_conc_g_hash_table_new_type hf eq ty = Done h ->
  ty <= MONO_HASH_KEY_VALUE_GC /\
  generation_of_size (table h) 5 /\
  overflow_count h = load_factor_of INITIAL_SIZE /\
  element_count h = 0 /\
  hash_func h = match hf with None => g_direct_hash | Some f => f end /\
  equal_func h = eq /\ gc_type h = ty /\
  key_destroy_func h = None /\ value_destroy_func h = None /\
  ct_gc_type (table h) = 0.
Proof.
  unfold mono_conc_g_hash_table_new_type, conc_table_new.
  change (INITIAL_SIZE <? 0) with false. cbv beta iota.
  destruct (ty >? MONO_HASH_KEY_VALUE_GC) eqn:E; [discriminate |].
  intros [= <-]. rewrite Z.gtb_ltb in E. apply Z.ltb_ge in E.
  repeat split; assumption.
Qed.

Lemma new_type_well_sized hf eq ty h :
  mono_conc_g_hash_table_new_type hf eq ty = Done h -> well_sized h.
Proof.
  intros H. apply new_type_done in H. exists 5. intuition lia.
Qed.

(** What a completed insert does to the shape of the handle. *)
Lemma insert_shape fuel dom h k v h' r n :
  5 <= n <= 30 -> generation_of_size (table h) n ->
  overflow_count h = load_factor_of (2 ^ n) ->
  mono_conc_g_hash_table_insert fuel dom h k v = Done (h', r) ->
  same_config h h' /\
  if element_count h >=? overflow_count h
  then n < 30 /\ generation_of_size (table h') (n + 1) /\
       overflow_count h' = load_factor_of (2 ^ (n + 1))
  else generation_of_size (table h') n /\ overflow_count h' = overflow_count h.
Proof.
  intros Hn Hg Ho. unfold mono_conc_g_hash_table_insert.
  destruct (k =? NULL); [discriminate |]. destruct (v =? NULL); [discriminate |].
  assert (Hprobe : forall h1 m,
    generation_of_size (table h1) m ->
    match equal_func h1 with
    | None => insert_identity fuel dom h1 (table h1) k v (table_size (table h1) - 1)
                (Z.land (mix_hash (int_wrap (hash_func h k))) (table_size (table h1) - 1))
    | Some equal => insert_equal fuel dom h1 equal (table h1) k v (table_size (table h1) - 1)
                (Z.land (mix_hash (int_wrap (hash_func h k))) (table_size (table h1) - 1))
    end = Done (h', r) ->
    same_config h1 h' /\ generation_of_size (table h') m /\
    overflow_count h' = overflow_count h1).
  { intros h1 m Hg1 H.
    assert (Hc : (exists j, h' = insert_here h1 (table h1) j k v /\ r = NULL) \/ h' = h1).
    { destruct (equal_func h1);
        [eapply insert_equal_cases | eapply insert_identity_cases]; eassumption. }
    destruct Hc as [(j & -> & _) | ->].
    - destruct (insert_here_shape h1 (table h1) j k v m Hg1) as (? & ? & ? & ?). auto.
    - split; [apply same_config_refl | auto]. }
  destruct (element_count h >=? overflow_count h).
  - destruct (expand_table fuel dom h) as [h1 | |] eqn:E; try discriminate.
    destruct (expand_table_shape _ _ _ _ _ Hn Hg E) as (Hlt & Hg1 & Ho1 & _ & Hc1 & _).
    intros H. apply Hprobe with (m := n + 1) in H; [| assumption].
    destruct H as (Hc & Hg' & Ho'). split; [eapply same_config_trans; eassumption |].
    repeat split; try apply Hg'; congruence.
  - intros H. apply Hprobe with (m := n) in H; [| assumption]. tauto.
Qed.

Lemma remove_shape fuel dom h k h' r ev :
  mono_conc_g_hash_table_remove fuel dom h k = Done (h', r, ev) ->
  h' = h \/ exists j, removed_at dom h h' j.
Proof.
  unfold mono_conc_g_hash_table_remove.
  destruct (k =? NULL); [discriminate |].
  destruct (equal_func h); intros H.
  - apply remove_equal_cases in H. destruct H as [-> | (j & ? & _)]; eauto.
  - apply remove_identity_cases in H. destruct H as [-> | (j & ? & _)]; eauto.
Qed.

Lemma removed_at_size dom h h' j n :
  removed_at dom h h' j -> generation_of_size (table h) n ->
  generation_of_size (table h') n.
Proof.
  intros (Ht & _) Hg. rewrite Ht.
  apply set_key_to_tombstone_size, set_value_size, Hg.
Qed.

Lemma step_well_sized dom h h' : step dom h h' -> well_sized h -> well_sized h'.
Proof.
  intros [fuel k v r H | fuel k r ev H] (n & Hn & Hg & Ho).
  - destruct (insert_shape _ _ _ _ _ _ _ _ Hn Hg Ho H) as [_ Hs].
    destruct (element_count h >=? overflow_count h).
    + exists (n + 1). intuition lia.
    + exists n. intuition congruence.
  - apply remove_shape in H. destruct H as [-> | (j & Hr)].
    + exists n. auto.
    + pose proof (removed_at_size _ _ _ _ _ Hr Hg) as Hg'.
      destruct Hr as (_ & Hov & _).
      exists n. split; [assumption | split; [assumption | congruence]].
Qed.

Lemma step_same_config dom h h' : step dom h h' -> well_sized h -> same_config h h'.
Proof.
  intros [fuel k v r H | fuel k r ev H] (n & Hn & Hg & Ho).
  - apply (insert_shape _ _ _ _ _ _ _ _ Hn Hg Ho H).
  - apply remove_shape in H. destruct H as [-> | (j & _ & _ & Hc)];
      [apply same_config_refl | assumption].
Qed.

Lemma reachable_from_invariant dom h0 h :
  reachable_from dom h0 h -> well_sized h0 -> well_sized h /\ same_config h0 h.
Proof.
  induction 1 as [| h h' _ IH Hstep]; intros H0.
  - split; [assumption | apply same_config_refl].
  - destruct (IH H0) as [Hw Hc]. split.
    + eapply step_well_sized; eassumption.
    + eapply same_config_trans; [eassumption | eapply step_same_config; eassumption].
Qed.

Lemma reachable_well_sized dom h : reachable dom h -> well_sized h.
Proof.
  intros (hf & eq & ty & h0 & Hnew & Hr).
  apply (reachable_from_invariant _ _ _ Hr), (new_type_well_sized _ _ _ _ Hnew).
Qed.

(** ** The public operations address slots by the probe sequence *)

Lemma lookup_on_path fuel dom h key ok v :
  is_pow2 (table_size (table h)) ->
  mono_conc_g_hash_table_lookup_extended fuel dom h key = Done (true, ok, v) ->
  exists n, let j := probe_slot (table_size (table h)) (hash_func h) key n in
            ok = array_get (keys (table h)) j /\ v = array_get (values (table h)) j.
Proof.
  intros HC. unfold mono_conc_g_hash_table_lookup_extended.
  destruct (equal_func h) as [equal |]; intros H.
  - eapply (lookup_equal_on_path _ HC) with (n0 := O); [| exact H].
    apply home_slot_land, HC.
  - eapply (lookup_identity_on_path _ HC) with (n0 := O); [| exact H].
    apply home_slot_land, HC.
Qed.

Lemma insert_probe_on_path fuel dom h1 hf key value h' r :
  is_pow2 (table_size (table h1)) ->
  match equal_func h1 with
  | None => insert_identity fuel dom h1 (table h1) key value (table_size (table h1) - 1)
              (Z.land (mix_hash (int_wrap (hf key))) (table_size (table h1) - 1))
  | Some equal => insert_equal fuel dom h1 equal (table h1) key value
              (table_size (table h1) - 1)
              (Z.land (mix_hash (int_wrap (hf key))) (table_size (table h1) - 1))
  end = Done (h', r) ->
  exists n, let j := probe_slot (table_size (table h1)) hf key n in
    (h' = insert_here h1 (table h1) j key value /\ r = NULL) \/
    (h' = h1 /\ r = array_get (values (table h1)) j).
Proof.
  intros HC. destruct (equal_func h1) as [equal |]; intros H.
  - eapply (insert_equal_on_path _ HC) with (n0 := O); [| exact H].
    apply home_slot_land, HC.
  - eapply (insert_identity_on_path _ HC) with (n0 := O); [| exact H].
    apply home_slot_land, HC.
Qed.

Lemma insert_on_path fuel dom h key value h' r :
  well_sized h ->
  mono_conc_g_hash_table_insert fuel dom h key value = Done (h', r) ->
  exists h1 n,
    (if element_count h >=? overflow_count h
     then expand_table fuel dom h = Done h1 else h1 = h) /\
    let j := probe_slot (table_size (table h1)) (hash_func h) key n in
    (h' = insert_here h1 (table h1) j key value /\ r = NULL) \/
    (h' = h1 /\ r = array_get (values (table h1)) j).
Proof.
  intros (m & Hm & Hg & Ho). unfold mono_conc_g_hash_table_insert.
  destruct (key =? NULL); [discriminate |]. destruct (value =? NULL); [discriminate |].
  destruct (element_count h >=? overflow_count h).
  - destruct (expand_table fuel dom h) as [h1 | |] eqn:E; try discriminate.
    destruct (expand_table_shape _ _ _ _ _ Hm Hg E) as (Hlt & (Hs1 & _) & _).
    intros H. apply insert_probe_on_path in H.
    + destruct H as (n & H). exists h1, n. split; [reflexivity | exact H].
    + exists (m + 1). split; [lia | exact Hs1].
  - intros H. apply insert_probe_on_path in H.
    + destruct H as (n & H). exists h, n. split; [reflexivity | exact H].
    + destruct Hg as (Hs & _). exists m. split; [lia | exact Hs].
Qed.

Lemma remove_on_path fuel dom h key h' r ev :
  is_pow2 (table_size (table h)) ->
  mono_conc_g_hash_table_remove fuel dom h key = Done (h', r, ev) ->
  (h' = h /\ r = NULL) \/
  exists n, let j := probe_slot (table_size (table h)) (hash_func h) key n in
    table h' = set_key_to_tombstone dom (set_value (table h) j NULL) j /\
    r = array_get (values (table h)) j.
Proof.
  intros HC. unfold mono_conc_g_hash_table_remove.
  destruct (key =? NULL); [discriminate |].
  destruct (equal_func h) as [equal |]; intros H.
  - eapply (remove_equal_on_path _ HC) with (n0 := O); [| exact H].
    apply home_slot_land, HC.
  - eapply (remove_identity_on_path _ HC) with (n0 := O); [| exact H].
    apply home_slot_land, HC.
Qed.

Lemma rehash_on_path fuel t hf key value t' :
  is_pow2 (table_size t) ->
  insert_one_local fuel t hf key value = Done t' ->
  exists n, let j := probe_slot (table_size t) hf key n in
    array_get (keys t) j = NULL /\ t' = set_value (set_key t j key) j value.
Proof.
  intros HC. unfold insert_one_local.
  destruct (first_null_key _ _ _ _) as [j |] eqn:E; [| discriminate].
  intros [= <-].
  eapply (first_null_key_on_path _ HC) with (n0 := O) in E;
    [| apply home_slot_land, HC].
  destruct E as (n & -> & Hnull). exists n. cbv zeta. auto.
Qed.

(** ** Runs reach reachable states *)

Lemma run_reachable_from dom fuel : forall ops h0 h,
  run fuel dom h0 ops = Done h -> reachable_from dom h0 h.
Proof.
  intros ops h0 h H.
  assert (G : forall hs, reachable_from dom hs h0 -> reachable_from dom hs h).
  { revert h0 H. induction ops as [| o ops IH]; intros h0 H hs Hs; cbn in H.
    - injection H as <-. assumption.
    - destruct (apply_op fuel dom h0 o) as [h1 | |] eqn:E; try discriminate.
      apply (IH _ H). apply reach_step with (h := h0); [assumption |].
      destruct o as [k v | k]; cbn in E.
      + destruct (mono_conc_g_hash_table_insert fuel dom h0 k v) as [[h2 r] | |] eqn:E2;
          try discriminate.
        injection E as ->. eapply step_insert; eassumption.
      + destruct (mono_conc_g_hash_table_remove fuel dom h0 k) as [[[h2 r] ev] | |] eqn:E2;
          try discriminate.
        injection E as ->. eapply step_remove; eassumption. }
  apply G, reach_start.
Qed.

Lemma run_reachable dom fuel hf eq ty h0 ops h :
  mono_conc_g_hash_table_new_type hf eq ty = Done h0 ->
  run fuel dom h0 ops = Done h -> reachable dom h.
Proof.
  intros Hnew Hrun. exists hf, eq, ty, h0. split; [assumption |].
  eapply run_reachable_from; eassumption.
Qed.

Lemma table_after_reachable dom eq ty ops h :
  table_after dom eq ty ops = Some h -> reachable dom h.
Proof.
  unfold table_after.
  destruct (mono_conc_g_hash_table_new_type (Some low_bits) eq ty) as [h0 | |] eqn:E0;
    try discriminate.
  destruct (run 64 dom h0 ops) as [h1 | |] eqn:E1; try discriminate.
  intros [= <-]. eapply run_reachable; eassumption.
Qed.

(** ** Handles from their data *)

Lemma handle_with_snapshot h eq ty t c o :
  hash_func h = low_bits -> equal_func h = eq -> gc_type h = ty ->
  key_destroy_func h = None -> value_destroy_func h = None ->
  snapshot h = (t, c, o) -> h = handle_with eq ty t c o.
Proof.
  destruct h. unfold snapshot, handle_with. cbn.
  intros -> -> -> -> -> [= -> -> ->]. reflexivity.
Qed.

Lemma table_after_snapshot dom eq ty ops t c o :
  option_map snapshot (table_after dom eq ty ops) = Some (t, c, o) ->
  table_after dom eq ty ops = Some (handle_with eq ty t c o).
Proof.
  unfold table_after.
  destruct (mono_conc_g_hash_table_new_type (Some low_bits) eq ty) as [h0 | |] eqn:E0;
    try discriminate.
  destruct (run 64 dom h0 ops) as [h | |] eqn:E1; try discriminate.
  cbn. intros [= Hs]. f_equal.
  pose proof (new_type_well_sized _ _ _ _ E0) as Hw.
  apply new_type_done in E0.
  destruct E0 as (_ & _ & _ & _ & Hhf & Heq & Hty & Hkd & Hvd & _).
  apply run_reachable_from in E1.
  destruct (reachable_from_invariant _ _ _ E1 Hw) as (_ & C1 & C2 & C3 & C4 & C5).
  cbn in Hhf. apply handle_with_snapshot; unfold snapshot; congruence.
Qed.

Lemma expand_table_config fuel dom h h' :
  expand_table fuel dom h = Done h' -> same_config h h'.
Proof.
  unfold expand_table.
  destruct (conc_table_new _ _); [| discriminate].
  destruct (expand_loop _ _ _ _ _ _ _); try discriminate.
  intros [= <-]. repeat split.
Qed.

Lemma expand_table_snapshot fuel dom eq ty t0 c0 o0 t c o :
  snapshot_of (expand_table fuel dom (handle_with eq ty t0 c0 o0)) = Some (t, c, o) ->
  expand_table fuel dom (handle_with eq ty t0 c0 o0) = Done (handle_with eq ty t c o).
Proof.
  destruct (expand_table _ _ _) as [h | |] eqn:E; try discriminate.
  cbn. intros [= Ht Hc Ho]. f_equal.
  destruct (expand_table_config _ _ _ _ E) as (C1 & C2 & C3 & C4 & C5).
  cbn in C1, C2, C3, C4, C5.
  apply handle_with_snapshot; unfold snapshot; congruence.
Qed.

(** ** Probes end where a key cell is null *)

Lemma occupied_repeat_null n : occupied (repeat NULL n) = 0%nat.
Proof. induction n as [| n IH]; [reflexivity | exact IH]. Qed.

Lemma occupied_le_length a : (occupied a <= length a)%nat.
Proof. apply filter_length_le. Qed.

Lemma occupied_set_nth a : forall n x,
  (occupied (set_nth a n x) <= S (occupied a))%nat.
Proof.
  unfold occupied.
  induction a as [| y a IH]; intros [| n] x; cbn; try lia.
  - destruct (negb (x =? NULL)), (negb (y =? NULL)); cbn; lia.
  - specialize (IH n x). destruct (negb (y =? NULL)); cbn; lia.
Qed.

(** An array with fewer occupied cells than cells has a null cell. *)
Lemma null_cell_exists a :
  (occupied a < length a)%nat ->
  exists n, (n < length a)%nat /\ nth n a NULL = NULL.
Proof.
  unfold occupied. induction a as [| y a IH]; cbn; [lia |].
  destruct (y =? NULL) eqn:E; cbn.
  - intros _. exists O. split; [lia | apply Z.eqb_eq, E].
  - intros H. destruct IH as (n & Hn & Hnull); [lia |].
    exists (S n). split; [lia | exact Hnull].
Qed.

Section Stops.

Variable C : Z.
Hypothesis HC : is_pow2 C.
Variable t : conc_table.

(** The cell [d] steps after [i] on the way round the generation. *)
Let ahead (i : Z) (d : nat) : Z := (i + Z.of_nat d) mod C.

Lemma ahead_zero i : 0 <= i < C -> ahead i 0 = i.
Proof. intros Hi. unfold ahead. rewrite Z.add_0_r. apply Z.mod_small, Hi. Qed.

Lemma ahead_next i d : ahead (Z.land (i + 1) (C - 1)) d = ahead i (S d).
Proof.
  unfold ahead. rewrite land_mask by exact HC.
  pose proof (pow2_pos C HC).
  rewrite Z.add_mod_idemp_l by lia. f_equal. lia.
Qed.

(** A null cell anywhere in the generation is ahead of every slot, less
    than a full round away. *)
Lemma null_cell_ahead i :
  Z.of_nat (length (keys t)) = C -> (occupied (keys t) < length (keys t))%nat ->
  0 <= i < C ->
  exists d, (d < Z.to_nat C)%nat /\ array_get (keys t) (ahead i d) = NULL.
Proof.
  intros Hlen Hocc Hi. destruct (null_cell_exists _ Hocc) as (n & Hn & Hnull).
  exists (Z.to_nat ((Z.of_nat n - i) mod C)).
  pose proof (Z.mod_pos_bound (Z.of_nat n - i) C ltac:(lia)) as Hb.
  split; [lia |].
  unfold ahead. rewrite Z2Nat.id by lia.
  rewrite Z.add_mod_idemp_r by lia.
  replace (i + (Z.of_nat n - i)) with (Z.of_nat n) by lia.
  rewrite Z.mod_small by lia.
  unfold array_get. rewrite Nat2Z.id. exact Hnull.
Qed.

Lemma first_null_key_stops : forall d fuel i,
  (d < fuel)%nat -> 0 <= i < C ->
  array_get (keys t) (ahead i d) = NULL ->
  exists j, first_null_key fuel t (C - 1) i = Some j.
Proof.
  induction d as [| d IH]; intros [| fuel] i Hd Hi Hnull; try lia; cbn.
  - rewrite ahead_zero in Hnull by exact Hi.
    rewrite Hnull. cbn. eauto.
  - destruct (array_get (keys t) i =? NULL); [eauto |].
    apply IH; [lia | apply land_mask_range, HC | rewrite ahead_next; exact Hnull].
Qed.

Lemma insert_identity_stops dom h key value : forall d fuel i,
  (d < fuel)%nat -> 0 <= i < C ->
  array_get (keys t) (ahead i d) = NULL ->
  exists h' r, insert_identity fuel dom h t key value (C - 1) i = Done (h', r).
Proof.
  induction d as [| d IH]; intros [| fuel] i Hd Hi Hnull; try lia; cbn.
  - rewrite ahead_zero in Hnull by exact Hi.
    rewrite Hnull. cbn. eauto.
  - destruct (_ || _); [eauto |].
    destruct (key =? _); [eauto |].
    apply IH; [lia | apply land_mask_range, HC | rewrite ahead_next; exact Hnull].
Qed.

Lemma insert_equal_stops dom h equal key value : forall d fuel i,
  (d < fuel)%nat -> 0 <= i < C ->
  array_get (keys t) (ahead i d) = NULL ->
  exists h' r, insert_equal fuel dom h equal t key value (C - 1) i = Done (h', r).
Proof.
  induction d as [| d IH]; intros [| fuel] i Hd Hi Hnull; try lia; cbn.
  - rewrite ahead_zero in Hnull by exact Hi.
    rewrite Hnull. cbn. eauto.
  - destruct (_ || _); [eauto |].
    destruct (equal key _); [eauto |].
    apply IH; [lia | apply land_mask_range, HC | rewrite ahead_next; exact Hnull].
Qed.

Lemma remove_identity_stops dom h key : forall d fuel i,
  (d < fuel)%nat -> 0 <= i < C ->
  array_get (keys t) (ahead i d) = NULL ->
  exists res, remove_identity fuel dom h t key (C - 1) i = Done res.
Proof.
  induction d as [| d IH]; intros [| fuel] i Hd Hi Hnull; try lia; cbn.
  - rewrite ahead_zero in Hnull by exact Hi.
    rewrite Hnull. cbn. eauto.
  - destruct (_ =? NULL); [eauto |].
    destruct (key =? _); [eauto |].
    apply IH; [lia | apply land_mask_range, HC | rewrite ahead_next; exact Hnull].
Qed.

Lemma remove_equal_stops dom h equal key : forall d fuel i,
  (d < fuel)%nat -> 0 <= i < C ->
  array_get (keys t) (ahead i d) = NULL ->
  exists res, remove_equal fuel dom h equal t key (C - 1) i = Done res.
Proof.
  induction d as [| d IH]; intros [| fuel] i Hd Hi Hnull; try lia; cbn.
  - rewrite ahead_zero in Hnull by exact Hi.
    rewrite Hnull. cbn. eauto.
  - destruct (_ =? NULL); [eauto |].
    destruct (_ && _); [eauto |].
    apply IH; [lia | apply land_mask_range, HC | rewrite ahead_next; exact Hnull].
Qed.

End Stops.

(** ** A resize always completes *)

Lemma generation_pow2 t n : 0 <= n -> generation_of_size t n -> is_pow2 (table_size t).
Proof. intros Hn (Hs & _). exists n. auto. Qed.

Lemma generation_keys_length t n :
  0 <= n -> generation_of_size t n -> Z.of_nat (length (keys t)) = table_size t.
Proof.
  intros Hn (Hs & Hk & _). rewrite Hs, Hk.
  apply Z2Nat.id, Z.pow_nonneg. lia.
Qed.

Lemma insert_one_local_completes fuel t hf k v n :
  0 <= n -> generation_of_size t n ->
  (occupied (keys t) < length (keys t))%nat ->
  (Z.to_nat (table_size t) <= fuel)%nat ->
  exists t', insert_one_local fuel t hf k v = Done t' /\
             (occupied (keys t') <= S (occupied (keys t)))%nat.
Proof.
  intros Hn Hg Hocc Hfuel.
  pose proof (generation_pow2 _ _ Hn Hg) as Hp.
  pose proof (generation_keys_length _ _ Hn Hg) as Hlen.
  unfold insert_one_local.
  set (i := Z.land _ _).
  assert (Hi : 0 <= i < table_size t) by apply land_mask_range, Hp.
  destruct (null_cell_ahead _ t i Hlen Hocc Hi) as (d & Hd & Hnull).
  destruct (first_null_key_stops _ Hp t d fuel i ltac:(lia) Hi Hnull) as (j & ->).
  eexists. split; [reflexivity |]. cbn [keys set_value set_key]. apply occupied_set_nth.
Qed.

Lemma expand_loop_completes fuel dom h old n : forall cnt i t,
  0 <= n -> generation_of_size t n ->
  (occupied (keys t) + cnt < length (keys t))%nat ->
  (Z.to_nat (table_size t) <= fuel)%nat ->
  exists t', expand_loop fuel dom h old cnt i t = Done t' /\
             (occupied (keys t') <= occupied (keys t) + cnt)%nat.
Proof.
  induction cnt as [| cnt IH]; intros i t Hn Hg Hocc Hfuel; cbn.
  - eexists. split; [reflexivity | lia].
  - destruct (_ && _).
    + destruct (insert_one_local_completes fuel t (hash_func h)
                  (array_get (keys old) i) (array_get (values old) i) n Hn Hg
                  ltac:(lia) Hfuel) as (t1 & E & Hocc1).
      rewrite E.
      destruct (insert_one_local_size _ _ _ _ _ _ _ E Hg) as [Hg1 _].
      pose proof Hg as (Hs & Hk & _). pose proof Hg1 as (Hs1 & Hk1 & _).
      destruct (IH (i + 1) t1 Hn Hg1) as (t' & E' & Hocc'); [lia | lia |].
      exists t'. split; [exact E' | lia].
    + destruct (IH (i + 1) t Hn Hg) as (t' & E' & Hocc'); [lia | lia |].
      exists t'. split; [exact E' | lia].
Qed.

Lemma pow2_double_nat n : 0 <= n ->
  Z.to_nat (2 ^ (n + 1)) = (Z.to_nat (2 ^ n) + Z.to_nat (2 ^ n))%nat.
Proof.
  intros Hn. rewrite Z.pow_add_r by lia.
  assert (0 < 2 ^ n) by (apply Z.pow_pos_nonneg; lia). lia.
Qed.

Lemma expand_table_completes fuel dom h n :
  5 <= n < 30 -> generation_of_size (table h) n ->
  (Z.to_nat (2 ^ (n + 1)) <= fuel)%nat ->
  exists h', expand_table fuel dom h = Done h' /\
             (occupied (keys (table h')) <= Z.to_nat (2 ^ n))%nat.
Proof.
  intros Hn Hg Hfuel. pose proof Hg as (Hs & _). unfold expand_table.
  rewrite Hs, int_wrap_double by lia.
  replace (n <? 30) with true by (symmetry; apply Z.ltb_lt; lia).
  assert (Hpos : 0 < 2 ^ n) by (apply Z.pow_pos_nonneg; lia).
  assert (Hpos1 : 0 < 2 ^ (n + 1)) by (apply Z.pow_pos_nonneg; lia).
  unfold conc_table_new.
  replace (2 ^ (n + 1) <? 0) with false by (symmetry; apply Z.ltb_ge; lia).
  set (t0 := {| table_size := 2 ^ (n + 1); ct_gc_type := gc_type h;
                keys := repeat NULL (Z.to_nat (2 ^ (n + 1)));
                values := repeat NULL (Z.to_nat (2 ^ (n + 1))) |}).
  assert (Hg0 : generation_of_size t0 (n + 1))
    by (unfold generation_of_size, t0; cbn; rewrite !repeat_length; auto).
  destruct (expand_loop_completes fuel dom h (table h) (n + 1)
              (Z.to_nat (2 ^ n)) 0 t0 ltac:(lia) Hg0) as (t' & E & Hocc).
  - unfold t0. cbn [keys].
    rewrite occupied_repeat_null, repeat_length, pow2_double_nat; lia.
  - unfold t0. cbn [table_size]. exact Hfuel.
  - rewrite E. eexists. split; [reflexivity |]. cbn [table with_overflow_count with_table].
    unfold t0 in Hocc. cbn [keys] in Hocc. rewrite occupied_repeat_null in Hocc. lia.
Qed.

(** An insert that has to resize returns, whatever the mode and whatever
    the old generation holds. *)
Lemma insert_with_resize_completes fuel dom h k v :
  well_sized h -> table_size (table h) < 2 ^ 30 ->
  element_count h >= overflow_count h ->
  k <> NULL -> v <> NULL ->
  (Z.to_nat (2 * table_size (table h)) <= fuel)%nat ->
  exists h' r, mono_conc_g_hash_table_insert fuel dom h k v = Done (h', r).
Proof.
  intros (n & Hn & Hg & Ho) Hsmall Hc Hk Hv Hfuel.
  pose proof Hg as (Hs & _). rewrite Hs in Hsmall, Hfuel.
  assert (Hn' : n < 30).
  { destruct (Z.lt_ge_cases n 30) as [? | Hge]; [assumption |].
    assert (2 ^ 30 <= 2 ^ n) by (apply Z.pow_le_mono_r; lia). lia. }
  replace (2 * 2 ^ n) with (2 ^ (n + 1)) in Hfuel by (rewrite Z.pow_add_r by lia; lia).
  destruct (expand_table_completes fuel dom h n ltac:(lia) Hg Hfuel) as (h1 & E & Hocc).
  destruct (expand_table_shape _ _ _ _ _ Hn Hg E) as (_ & Hg1 & _).
  unfold mono_conc_g_hash_table_insert.
  apply Z.eqb_neq in Hk, Hv. rewrite Hk, Hv.
  replace (element_count h >=? overflow_count h) with true
    by (symmetry; rewrite Z.geb_leb; apply Z.leb_le; lia).
  rewrite E.
  pose proof (generation_pow2 _ (n + 1) ltac:(lia) Hg1) as Hp.
  pose proof (generation_keys_length _ (n + 1) ltac:(lia) Hg1) as Hlen.
  pose proof Hg1 as (Hs1 & Hk1 & _).
  set (i := Z.land _ _).
  assert (Hi : 0 <= i < table_size (table h1)) by apply land_mask_range, Hp.
  destruct (null_cell_ahead _ (table h1) i Hlen) as (d & Hd & Hnull);
    [rewrite Hk1, pow2_double_nat by lia;
     assert (0 < 2 ^ n) by (apply Z.pow_pos_nonneg; lia); lia
    | exact Hi |].
  rewrite Hs1 in Hd.
  destruct (equal_func h1).
  - apply (insert_equal_stops _ Hp (table h1) dom h1 _ k v d fuel i); [lia | exact Hi | exact Hnull].
  - apply (insert_identity_stops _ Hp (table h1) dom h1 k v d fuel i); [lia | exact Hi | exact Hnull].
Qed.

(** ** Capacity *)

Lemma well_sized_facts h :
  well_sized h ->
  is_pow2 (table_size (table h)) /\ INITIAL_SIZE <= table_size (table h) /\
  overflow_count h = load_factor_of (table_size (table h)).
Proof.
  intros Hw. split; [apply well_sized_pow2, Hw |].
  destruct Hw as (n & Hn & (Hs & _) & Ho). rewrite Hs. split; [| exact Ho].
  change INITIAL_SIZE with (2 ^ 5). apply Z.pow_le_mono_r; lia.
Qed.

Lemma insert_capacity fuel dom h k v h' r :
  well_sized h ->
  mono_conc_g_hash_table_insert fuel dom h k v = Done (h', r) ->
  if element_count h >=? overflow_count h
  then table_size (table h') = EXPAND_RATIO * table_size (table h) /\
       overflow_count h' = load_factor_of (table_size (table h'))
  else table_size (table h') = table_size (table h) /\
       overflow_count h' = overflow_count h.
Proof.
  intros (n & Hn & Hg & Ho) H.
  destruct (insert_shape _ _ _ _ _ _ _ _ Hn Hg Ho H) as [_ Hs].
  destruct Hg as (Hsz & _).
  destruct (element_count h >=? overflow_count h).
  - destruct Hs as (_ & (Hsz' & _) & Ho'). rewrite Hsz', Hsz. split; [| exact Ho'].
    rewrite Z.pow_add_r by lia. unfold EXPAND_RATIO. lia.
  - destruct Hs as ((Hsz' & _) & Ho'). split; congruence.
Qed.

Lemma remove_capacity fuel dom h k h' r ev :
  mono_conc_g_hash_table_remove fuel dom h k = Done (h', r, ev) ->
  table_size (table h') = table_size (table h) /\ overflow_count h' = overflow_count h.
Proof.
  intros H. apply remove_shape in H. destruct H as [-> | (j & Ht & Ho & _)]; [auto |].
  split; [| exact Ho]. rewrite Ht. unfold set_key_to_tombstone.
  destruct (has_flag _ _); reflexivity.
Qed.

(** C8: a table just constructed has 32 slots and the threshold 24; in
    every reachable state the capacity is a power of two, at least 32, and
    the threshold is three quarters of it; an insert that finds the element
    count at or above the threshold returns (below [2^30] slots, where the
    doubled size still fits an [int]), and when it returns it leaves exactly
    twice the capacity, with the threshold recomputed from it; any other
    completed insert leaves capacity and threshold as they were, and so
    does every completed remove.  (Lookup and iteration return no
    handle.) *)
Theorem capacity_invariant (dom : MonoDomain) :
  (forall hf eq ty h,
     mono_conc_g_hash_table_new_type hf eq ty = Done h ->
     table_size (table h) = 32 /\ overflow_count h = 24) /\
  (forall h, reachable dom h ->
     is_pow2 (table_size (table h)) /\ 32 <= table_size (table h) /\
     overflow_count h = load_factor_of (table_size (table h))) /\
  (forall h fuel k v, reachable dom h ->
     element_count h >= overflow_count h -> table_size (table h) < 2 ^ 30 ->
     k <> NULL -> v <> NULL ->
     (Z.to_nat (2 * table_size (table h)) <= fuel)%nat ->
     exists h' r, mono_conc_g_hash_table_insert fuel dom h k v = Done (h', r)) /\
  (forall h fuel k v h' r, reachable dom h ->
     mono_conc_g_hash_table_insert fuel dom h k v = Done (h', r) ->
     is_pow2 (table_size (table h')) /\
     if element_count h >=? overflow_count h
     then table_size (table h') = 2 * table_size (table h) /\
          overflow_count h' = load_factor_of (table_size (table h'))
     else table_size (table h') = table_size (table h) /\
          overflow_count h' = overflow_count h) /\
  (forall h fuel k h' r ev,
     mono_conc_g_hash_table_remove fuel dom h k = Done (h', r, ev) ->
     table_size (table h') = table_size (table h) /\
     overflow_count h' = overflow_count h).
Proof.
  split; [| split; [| split; [| split]]].
  - intros hf eq ty h H. apply new_type_done in H.
    destruct H as (_ & (Hs & _) & Ho & _). split; [exact Hs | exact Ho].
  - intros h Hr. apply well_sized_facts, reachable_well_sized with (dom := dom), Hr.
  - intros h fuel k v Hr Hc Hs.
    apply insert_with_resize_completes;
      [apply (reachable_well_sized _ _ Hr) | exact Hs | exact Hc].
  - intros h fuel k v h' r Hr H.
    pose proof (reachable_well_sized _ _ Hr) as Hw. split.
    + apply well_sized_pow2, (step_well_sized dom h h'); [| exact Hw].
      eapply step_insert, H.
    + apply (insert_capacity _ _ _ _ _ _ _ Hw H).
  - intros h fuel k h' r ev H. apply (remove_capacity _ _ _ _ _ _ _ H).
Qed.

(** ** Usage violations *)

Lemma insert_identity_not_fatal fuel dom h t key value mask why : forall i,
  insert_identity fuel dom h t key value mask i <> Fatal why.
Proof.
  induction fuel as [| fuel IH]; intros i; cbn; [discriminate |].
  destruct (_ || _); [discriminate |].
  destruct (key =? _); [discriminate | apply IH].
Qed.

Lemma insert_equal_not_fatal fuel dom h equal t key value mask why : forall i,
  insert_equal fuel dom h equal t key value mask i <> Fatal why.
Proof.
  induction fuel as [| fuel IH]; intros i; cbn; [discriminate |].
  destruct (_ || _); [discriminate |].
  destruct (equal key _); [discriminate | apply IH].
Qed.

Lemma remove_identity_not_fatal fuel dom h t key mask why : forall i,
  remove_identity fuel dom h t key mask i <> Fatal why.
Proof.
  induction fuel as [| fuel IH]; intros i; cbn; [discriminate |].
  destruct (_ =? NULL); [discriminate |].
  destruct (key =? _); [discriminate | apply IH].
Qed.

Lemma remove_equal_not_fatal fuel dom h equal t key mask why : forall i,
  remove_equal fuel dom h equal t key mask i <> Fatal why.
Proof.
  induction fuel as [| fuel IH]; intros i; cbn; [discriminate |].
  destruct (_ =? NULL); [discriminate |].
  destruct (_ && _); [discriminate | apply IH].
Qed.

Lemma lookup_identity_not_fatal fuel t key hash mask why : forall i,
  lookup_identity fuel t key hash mask i <> Fatal why.
Proof.
  induction fuel as [| fuel IH]; intros i; cbn; [discriminate |].
  destruct (_ =? NULL); [discriminate |].
  destruct (key =? _); [| apply IH].
  destruct (_ =? NULL); [apply IH | discriminate].
Qed.

Lemma lookup_equal_not_fatal fuel dom h equal t key hash mask why : forall i,
  lookup_equal fuel dom h equal t key hash mask i <> Fatal why.
Proof.
  induction fuel as [| fuel IH]; intros i; cbn; [discriminate |].
  destruct (_ =? NULL); [discriminate |].
  destruct (_ && _); [| apply IH].
  destruct (_ =? NULL); [apply IH | discriminate].
Qed.

Lemma expand_loop_not_fatal fuel dom h old why : forall cnt i t,
  expand_loop fuel dom h old cnt i t <> Fatal why.
Proof.
  induction cnt as [| cnt IH]; intros i t; cbn; [discriminate |].
  destruct (_ && _); [| apply IH].
  unfold insert_one_local. destruct (first_null_key _ _ _ _); [apply IH | discriminate].
Qed.

(** The one fatal outcome of a resize is the allocation of a generation
    whose size no longer fits an [int]. *)
Lemma expand_table_fatal fuel dom h why :
  expand_table fuel dom h = Fatal why ->
  why = out_of_memory /\ int_wrap (table_size (table h) * EXPAND_RATIO) < 0.
Proof.
  unfold expand_table, conc_table_new.
  destruct (int_wrap _ <? 0) eqn:E.
  - intros [= <-]. apply Z.ltb_lt in E. auto.
  - destruct (expand_loop _ _ _ _ _ _ _) eqn:El; try discriminate.
    apply expand_loop_not_fatal in El. contradiction.
Qed.

Lemma insert_fatal fuel dom h k v why :
  mono_conc_g_hash_table_insert fuel dom h k v = Fatal why ->
  (why = assertion_failed /\ (k = NULL \/ v = NULL)) \/
  (why = out_of_memory /\ k <> NULL /\ v <> NULL /\
   element_count h >= overflow_count h /\
   int_wrap (table_size (table h) * EXPAND_RATIO) < 0).
Proof.
  unfold mono_conc_g_hash_table_insert.
  destruct (k =? NULL) eqn:Ek; [apply Z.eqb_eq in Ek; intros [= <-]; auto |].
  destruct (v =? NULL) eqn:Ev; [apply Z.eqb_eq in Ev; intros [= <-]; auto |].
  apply Z.eqb_neq in Ek, Ev.
  destruct (element_count h >=? overflow_count h) eqn:Ec.
  - destruct (expand_table fuel dom h) as [h1 | why1 |] eqn:E.
    + destruct (equal_func h1); intros H;
        [apply insert_equal_not_fatal in H | apply insert_identity_not_fatal in H];
        contradiction.
    + intros [= <-]. apply expand_table_fatal in E. destruct E as [-> Hneg].
      right. rewrite Z.geb_leb in Ec. apply Z.leb_le in Ec. repeat split; auto; lia.
    + discriminate.
  - destruct (equal_func h); intros H;
      [apply insert_equal_not_fatal in H | apply insert_identity_not_fatal in H];
      contradiction.
Qed.

Lemma remove_fatal fuel dom h k why :
  mono_conc_g_hash_table_remove fuel dom h k = Fatal why <->
  why = assertion_failed /\ k = NULL.
Proof.
  unfold mono_conc_g_hash_table_remove. split.
  - destruct (k =? NULL) eqn:Ek; [apply Z.eqb_eq in Ek; intros [= <-]; auto |].
    destruct (equal_func h); intros H;
      [apply remove_equal_not_fatal in H | apply remove_identity_not_fatal in H];
      contradiction.
  - intros [-> ->]. reflexivity.
Qed.

Lemma lookup_not_fatal fuel dom h k why :
  mono_conc_g_hash_table_lookup_extended fuel dom h k <> Fatal why.
Proof.
  unfold mono_conc_g_hash_table_lookup_extended.
  destruct (equal_func h); [apply lookup_equal_not_fatal | apply lookup_identity_not_fatal].
Qed.

Lemma new_type_fatal hf eq ty why :
  mono_conc_g_hash_table_new_type hf eq ty = Fatal why <->
  why = wrong_gc_type /\ MONO_HASH_KEY_VALUE_GC < ty.
Proof.
  unfold mono_conc_g_hash_table_new_type, conc_table_new.
  change (INITIAL_SIZE <? 0) with false. cbv beta iota.
  rewrite Z.gtb_ltb. destruct (MONO_HASH_KEY_VALUE_GC <? ty) eqn:E.
  - apply Z.ltb_lt in E. split; [intros [= <-]; auto | intros [-> _]; reflexivity].
  - apply Z.ltb_ge in E. split; [discriminate | intros [_ H]; lia].
Qed.

Lemma reachable_insert_out_of_memory dom h :
  reachable dom h -> int_wrap (table_size (table h) * EXPAND_RATIO) < 0 ->
  table_size (table h) = 2 ^ 30.
Proof.
  intros Hr Hneg. apply reachable_well_sized in Hr.
  destruct Hr as (n & Hn & (Hs & _) & _). rewrite Hs in *.
  rewrite int_wrap_double in Hneg by assumption.
  destruct (n <? 30) eqn:E.
  - assert (0 < 2 ^ (n + 1)) by (apply Z.pow_pos_nonneg; lia). lia.
  - apply Z.ltb_ge in E. replace n with 30 by lia. reflexivity.
Qed.

(** C9: insert aborts on an assertion exactly when the key or the value is
    null, remove aborts exactly when the key is null, the constructor
    aborts exactly when the mode (an unsigned value) is none of the four
    modes, and lookup never aborts.  The only other abort of the model is
    the allocation failure of a resize, which a reachable table meets only
    at [2^30] slots with non-null arguments: it is the resource exhaustion
    of the design document, not a usage violation. *)
Theorem usage_violations :
  (forall fuel dom h k v,
     mono_conc_g_hash_table_insert fuel dom h k v = Fatal assertion_failed <->
     k = NULL \/ v = NULL) /\
  (forall fuel dom h k why,
     mono_conc_g_hash_table_remove fuel dom h k = Fatal why <->
     why = assertion_failed /\ k = NULL) /\
  (forall hf eq ty why, 0 <= ty ->
     mono_conc_g_hash_table_new_type hf eq ty = Fatal why <->
     why = wrong_gc_type /\
     ~ In ty [MONO_HASH_CONSERVATIVE_GC; MONO_HASH_KEY_GC; MONO_HASH_VALUE_GC;
              MONO_HASH_KEY_VALUE_GC]) /\
  (forall fuel dom h k why,
     mono_conc_g_hash_table_lookup_extended fuel dom h k <> Fatal why) /\
  (forall fuel dom h k v why, reachable dom h ->
     mono_conc_g_hash_table_insert fuel dom h k v = Fatal why ->
     why <> assertion_failed ->
     why = out_of_memory /\ k <> NULL /\ v <> NULL /\
     element_count h >= overflow_count h /\ table_size (table h) = 2 ^ 30).
Proof.
  split; [| split; [| split; [| split]]].
  - intros fuel dom h k v. split.
    + intros H. apply insert_fatal in H.
      destruct H as [[_ H] | [H _]]; [exact H | discriminate].
    + unfold mono_conc_g_hash_table_insert. intros [-> | ->]; [reflexivity |].
      destruct (k =? NULL); reflexivity.
  - intros fuel dom h k why. apply remove_fatal.
  - intros hf eq ty why Hty. rewrite new_type_fatal.
    change MONO_HASH_KEY_VALUE_GC with 3. unfold In.
    change MONO_HASH_CONSERVATIVE_GC with 0. change MONO_HASH_KEY_GC with 1.
    change MONO_HASH_VALUE_GC with 2.
    split; intros [Hw H]; (split; [exact Hw | lia]).
  - intros fuel dom h k why. apply lookup_not_fatal.
  - intros fuel dom h k v why Hr H Hwhy. apply insert_fatal in H.
    destruct H as [[-> _] | (-> & Hk & Hv & Hc & Hneg)]; [contradiction |].
    repeat split; try assumption.
    apply (reachable_insert_out_of_memory _ _ Hr Hneg).
Qed.

(** ** A null hash function *)

(** C10: with a null hash function and a valid mode the constructor
    returns, and what it returns is the table it returns for
    [g_direct_hash]; in every state that inserts and removes reach from it
    the handle still holds [g_direct_hash], the function every operation,
    the rehash of a resize included, reads from the handle, and the slot
    that lookup, insert and remove settle on lies on the probe sequence
    that [g_direct_hash] gives the key. *)
Theorem null_hash_func_is_g_direct_hash (dom : MonoDomain)
    (eq : option (gpointer -> gpointer -> bool)) (ty : Z) :
  ty <= MONO_HASH_KEY_VALUE_GC ->
  exists h0,
    mono_conc_g_hash_table_new_type None eq ty = Done h0 /\
    mono_conc_g_hash_table_new_type (Some g_direct_hash) eq ty = Done h0 /\
    forall h, reachable_from dom h0 h ->
      hash_func h = g_direct_hash /\
      (forall fuel key ok v,
         mono_conc_g_hash_table_lookup_extended fuel dom h key = Done (true, ok, v) ->
         exists n, let j := probe_slot (table_size (table h)) g_direct_hash key n in
           ok = array_get (keys (table h)) j /\ v = array_get (values (table h)) j) /\
      (forall fuel key value h' r,
         mono_conc_g_hash_table_insert fuel dom h key value = Done (h', r) ->
         exists h1 n,
           (if element_count h >=? overflow_count h
            then expand_table fuel dom h = Done h1 else h1 = h) /\
           let j := probe_slot (table_size (table h1)) g_direct_hash key n in
           (h' = insert_here h1 (table h1) j key value /\ r = NULL) \/
           (h' = h1 /\ r = array_get (values (table h1)) j)) /\
      (forall fuel key h' r ev,
         mono_conc_g_hash_table_remove fuel dom h key = Done (h', r, ev) ->
         (h' = h /\ r = NULL) \/
         exists n, let j := probe_slot (table_size (table h)) g_direct_hash key n in
           table h' = set_key_to_tombstone dom (set_value (table h) j NULL) j /\
           r = array_get (values (table h)) j).
Proof.
  intros Hty.
  destruct (mono_conc_g_hash_table_new_type None eq ty) as [h0 | why |] eqn:E.
  - exists h0. split; [reflexivity | split; [exact E |]].
    intros h Hr.
    pose proof (new_type_well_sized _ _ _ _ E) as Hw0.
    apply new_type_done in E. destruct E as (_ & _ & _ & _ & Hhf & _).
    destruct (reachable_from_invariant _ _ _ Hr Hw0) as (Hw & Hc & _).
    assert (Hh : hash_func h = g_direct_hash) by congruence.
    pose proof (well_sized_pow2 _ Hw) as Hp.
    split; [exact Hh |]. rewrite <- Hh.
    split; [| split].
    + intros fuel key ok v. apply lookup_on_path, Hp.
    + intros fuel key value h' r. apply insert_on_path, Hw.
    + intros fuel key h' r ev. apply remove_on_path, Hp.
  - apply new_type_fatal in E. lia.
  - unfold mono_conc_g_hash_table_new_type, conc_table_new in E.
    change (INITIAL_SIZE <? 0) with false in E. cbv beta iota in E.
    destruct (ty >? MONO_HASH_KEY_VALUE_GC); discriminate.
Qed.

(** ** Remove and the element count *)

(** With an equality function the remove loop never writes the counter. *)
Lemma remove_equal_keeps_count fuel dom h equal k h' r ev :
  equal_func h = Some equal ->
  mono_conc_g_hash_table_remove fuel dom h k = Done (h', r, ev) ->
  element_count h' = element_count h.
Proof.
  intros He. unfold mono_conc_g_hash_table_remove. rewrite He.
  destruct (k =? NULL); [discriminate |]. intros H.
  apply remove_equal_cases in H. destruct H as [-> | (j & _ & H)]; auto.
Qed.

(** Without one, a remove that overwrites a slot counts it down. *)
Lemma remove_identity_counts_down fuel dom h k h' r ev :
  equal_func h = None ->
  mono_conc_g_hash_table_remove fuel dom h k = Done (h', r, ev) ->
  h' = h \/ element_count h' = int_wrap (element_count h - 1).
Proof.
  intros He. unfold mono_conc_g_hash_table_remove. rewrite He.
  destruct (k =? NULL); [discriminate |]. intros H.
  apply remove_identity_cases in H. destruct H as [-> | (j & _ & H)]; auto.
Qed.

(** C1, for a table with an equality function: the key [8] is inserted with
    value [80] into a new table and found by lookup; [remove] returns [80],
    leaves a tombstone and lookup no longer finds the key, but the element
    count is still [1].  The same run on a table without an equality
    function ends with the count at [0]. *)
Theorem remove_with_equal_func_keeps_element_count :
  let h0 := handle_with (Some Z.eqb) 0 (first_generation []) 0 24 in
  let h1 := handle_with (Some Z.eqb) 0 (first_generation [(26, 8, 80)]) 1 24 in
  let h2 := handle_with (Some Z.eqb) 0 (first_generation [(26, PTR_TOMBSTONE, NULL)]) 1 24 in
  mono_conc_g_hash_table_new_type (Some low_bits) (Some Z.eqb) MONO_HASH_CONSERVATIVE_GC
    = Done h0 /\
  mono_conc_g_hash_table_insert 1 a_domain h0 8 80 = Done (h1, NULL) /\
  mono_conc_g_hash_table_lookup_extended 1 a_domain h1 8 = Done (true, 8, 80) /\
  mono_conc_g_hash_table_remove 1 a_domain h1 8 = Done (h2, 80, []) /\
  mono_conc_g_hash_table_lookup_extended 2 a_domain h2 8 = Done (false, NULL, NULL) /\
  element_count h1 = 1 /\ element_count h2 = 1 /\
  table_after a_domain None MONO_HASH_CONSERVATIVE_GC [Insert 8 80; Remove 8]
    = Some (handle_with None 0 (first_generation [(26, PTR_TOMBSTONE, NULL)]) 0 24).
Proof.
  cbv zeta. repeat apply conj; reflexivity.
Qed.

(** ** A generation without a slot to stop at *)

Lemma array_get_every_cell p a i :
  every_cell p a = true -> 0 <= i < Z.of_nat (length a) -> p (array_get a i) = true.
Proof.
  intros H Hi. unfold every_cell in H. rewrite forallb_forall in H.
  apply H. unfold array_get. apply nth_In. lia.
Qed.

Section NoWayOut.

Variable C : Z.
Hypothesis HC : is_pow2 C.
Variable t : conc_table.
Hypothesis Hlen : Z.of_nat (length (keys t)) = C.
Variable key : gpointer.

Local Ltac stuck IH :=
  apply IH; apply land_mask_range; exact HC.

(** No key cell is null and none holds [key]: the identity probes of
    lookup and remove go round for ever. *)
Section Identity.

Hypothesis Hblocked :
  every_cell (fun c => negb (c =? NULL) && negb (key =? c)) (keys t) = true.

Lemma blocked_cell i : 0 <= i < C ->
  (array_get (keys t) i =? NULL) = false /\ (key =? array_get (keys t) i) = false.
Proof.
  intros Hi. rewrite <- Hlen in Hi.
  pose proof (array_get_every_cell _ _ _ Hblocked Hi) as H. cbv beta in H.
  apply andb_true_iff in H. destruct H as [H1 H2].
  apply negb_true_iff in H1, H2. auto.
Qed.

Lemma lookup_identity_spins hash : forall fuel i, 0 <= i < C ->
  lookup_identity fuel t key hash (C - 1) i = Spinning.
Proof.
  induction fuel as [| fuel IH]; intros i Hi; cbn; [reflexivity |].
  destruct (blocked_cell i Hi) as [-> ->]. stuck IH.
Qed.

Lemma remove_identity_spins dom h : forall fuel i, 0 <= i < C ->
  remove_identity fuel dom h t key (C - 1) i = Spinning.
Proof.
  induction fuel as [| fuel IH]; intros i Hi; cbn; [reflexivity |].
  destruct (blocked_cell i Hi) as [-> ->]. stuck IH.
Qed.

End Identity.

(** No key cell is null, none is a tombstone the handle recognises and
    none holds [key]: the identity probe of insert goes round for ever. *)
Lemma insert_identity_spins dom h value :
  every_cell (fun c => negb (c =? NULL) && negb (key_is_tombstone dom h c)
                       && negb (key =? c)) (keys t) = true ->
  forall fuel i, 0 <= i < C ->
  insert_identity fuel dom h t key value (C - 1) i = Spinning.
Proof.
  intros Hblocked.
  induction fuel as [| fuel IH]; intros i Hi; cbn; [reflexivity |].
  pose proof Hi as Hi'. rewrite <- Hlen in Hi'.
  pose proof (array_get_every_cell _ _ _ Hblocked Hi') as H. cbv beta in H.
  apply andb_true_iff in H. destruct H as [H H3].
  apply andb_true_iff in H. destruct H as [H1 H2].
  apply negb_true_iff in H1, H2, H3. rewrite H1, H2, H3. cbn. stuck IH.
Qed.

End NoWayOut.

(** ** Tombstones and termination *)

Section Blocked.

Variable dom : MonoDomain.
Variable h : MonoConcGHashTable.
Hypothesis Hpow2 : is_pow2 (table_size (table h)).
Hypothesis Hlen : Z.of_nat (length (keys (table h))) = table_size (table h).
Hypothesis Hidentity : equal_func h = None.
Variable key : gpointer.

Lemma lookup_spins_when_blocked :
  every_cell (fun c => negb (c =? NULL) && negb (key =? c)) (keys (table h)) = true ->
  forall fuel, mono_conc_g_hash_table_lookup_extended fuel dom h key = Spinning.
Proof.
  intros Hb fuel. unfold mono_conc_g_hash_table_lookup_extended. rewrite Hidentity.
  apply (lookup_identity_spins _ Hpow2 _ Hlen _ Hb), land_mask_range, Hpow2.
Qed.

Lemma remove_spins_when_blocked :
  key <> NULL ->
  every_cell (fun c => negb (c =? NULL) && negb (key =? c)) (keys (table h)) = true ->
  forall fuel, mono_conc_g_hash_table_remove fuel dom h key = Spinning.
Proof.
  intros Hk Hb fuel. unfold mono_conc_g_hash_table_remove. rewrite Hidentity.
  apply Z.eqb_neq in Hk. rewrite Hk.
  apply (remove_identity_spins _ Hpow2 _ Hlen _ Hb), land_mask_range, Hpow2.
Qed.

Lemma insert_spins_when_blocked value :
  key <> NULL -> value <> NULL ->
  element_count h < overflow_count h ->
  every_cell (fun c => negb (c =? NULL) && negb (key_is_tombstone dom h c)
                       && negb (key =? c)) (keys (table h)) = true ->
  forall fuel, mono_conc_g_hash_table_insert fuel dom h key value = Spinning.
Proof.
  intros Hk Hv Hcount Hb fuel. unfold mono_conc_g_hash_table_insert.
  apply Z.eqb_neq in Hk, Hv. rewrite Hk, Hv.
  replace (element_count h >=? overflow_count h) with false
    by (symmetry; rewrite Z.geb_leb; apply Z.leb_gt; exact Hcount).
  rewrite Hidentity.
  apply (insert_identity_spins _ Hpow2 _ Hlen), land_mask_range, Hpow2. exact Hb.
Qed.

End Blocked.

Lemma worn_out_is_pow2 ty : is_pow2 (table_size (table (worn_out_table ty))).
Proof. exists 5. split; [lia | reflexivity]. Qed.

(** C2, on a table without an equality function in the conservative mode:
    inserting and removing the keys [8, 16, ..., 352] one after the other
    leaves a generation of 32 tombstones and no live element, so no resize
    is due; in that reachable state neither [lookup (8)] nor [remove (8)]
    returns, whatever the number of iterations allowed. *)
Theorem tombstones_make_lookup_and_remove_spin :
  table_after a_domain None MONO_HASH_CONSERVATIVE_GC (churn (aligned_keys 44))
    = Some (worn_out_table MONO_HASH_CONSERVATIVE_GC) /\
  reachable a_domain (worn_out_table MONO_HASH_CONSERVATIVE_GC) /\
  (forall fuel,
     mono_conc_g_hash_table_lookup_extended fuel a_domain
       (worn_out_table MONO_HASH_CONSERVATIVE_GC) 8 = Spinning) /\
  (forall fuel,
     mono_conc_g_hash_table_remove fuel a_domain
       (worn_out_table MONO_HASH_CONSERVATIVE_GC) 8 = Spinning).
Proof.
  assert (Hrun : table_after a_domain None MONO_HASH_CONSERVATIVE_GC
                   (churn (aligned_keys 44))
                 = Some (worn_out_table MONO_HASH_CONSERVATIVE_GC))
    by reflexivity.
  split; [exact Hrun | split; [exact (table_after_reachable _ _ _ _ _ Hrun) |]].
  split.
  - apply lookup_spins_when_blocked;
      [apply worn_out_is_pow2 | reflexivity | reflexivity | vm_compute; reflexivity].
  - apply remove_spins_when_blocked;
      [apply worn_out_is_pow2 | reflexivity | reflexivity | discriminate
      | vm_compute; reflexivity].
Qed.

(** ** Lookup and remove return while a slot is empty *)

Section LookupStops.

Variable C : Z.
Hypothesis HC : is_pow2 C.
Variable t : conc_table.
Variable key : gpointer.

Lemma lookup_identity_stops hash :
  (forall j, 0 <= j < C -> array_get (keys t) j = key -> array_get (values t) j <> NULL) ->
  forall d fuel i,
  (d < fuel)%nat -> 0 <= i < C ->
  array_get (keys t) ((i + Z.of_nat d) mod C) = NULL ->
  exists res, lookup_identity fuel t key hash (C - 1) i = Done res.
Proof.
  intros Hval.
  induction d as [| d IH]; intros [| fuel] i Hd Hi Hnull; try lia; cbn.
  - rewrite ahead_zero in Hnull by exact Hi. rewrite Hnull. cbn. eauto.
  - destruct (_ =? NULL); [eauto |].
    destruct (key =? _) eqn:E.
    + apply Z.eqb_eq in E. symmetry in E. apply (Hval i Hi) in E.
      apply Z.eqb_neq in E. rewrite E. eauto.
    + apply IH; [lia | apply land_mask_range, HC |].
      rewrite (ahead_next _ HC). exact Hnull.
Qed.

Lemma lookup_equal_stops dom h equal hash :
  (forall j, 0 <= j < C ->
     key_is_tombstone dom h (array_get (keys t) j) = false ->
     equal key (array_get (keys t) j) = true -> array_get (values t) j <> NULL) ->
  forall d fuel i,
  (d < fuel)%nat -> 0 <= i < C ->
  array_get (keys t) ((i + Z.of_nat d) mod C) = NULL ->
  exists res, lookup_equal fuel dom h equal t key hash (C - 1) i = Done res.
Proof.
  intros Hval.
  induction d as [| d IH]; intros [| fuel] i Hd Hi Hnull; try lia; cbn.
  - rewrite ahead_zero in Hnull by exact Hi. rewrite Hnull. cbn. eauto.
  - destruct (_ =? NULL); [eauto |].
    destruct (key_is_tombstone dom h _) eqn:Et; cbn.
    + apply IH; [lia | apply land_mask_range, HC |].
      rewrite (ahead_next _ HC). exact Hnull.
    + destruct (equal key _) eqn:E.
      * apply (Hval i Hi Et) in E. apply Z.eqb_neq in E. rewrite E. eauto.
      * apply IH; [lia | apply land_mask_range, HC |].
        rewrite (ahead_next _ HC). exact Hnull.
Qed.

End LookupStops.

(** With one null key cell in the generation remove returns within one
    round of the table. *)
Lemma remove_returns fuel dom h key :
  well_sized h -> key <> NULL ->
  (occupied (keys (table h)) < length (keys (table h)))%nat ->
  (Z.to_nat (table_size (table h)) <= fuel)%nat ->
  exists res, mono_conc_g_hash_table_remove fuel dom h key = Done res.
Proof.
  intros Hw Hk Hocc Hfuel.
  pose proof (well_sized_pow2 _ Hw) as Hp.
  destruct Hw as (n & Hn & Hg & _).
  pose proof (generation_keys_length _ n ltac:(lia) Hg) as Hlen.
  unfold mono_conc_g_hash_table_remove.
  apply Z.eqb_neq in Hk. rewrite Hk.
  set (i := Z.land _ _).
  assert (Hi : 0 <= i < table_size (table h)) by apply land_mask_range, Hp.
  destruct (null_cell_ahead _ (table h) i Hlen Hocc Hi) as (d & Hd & Hnull).
  destruct (equal_func h).
  - apply (remove_equal_stops _ Hp (table h) dom h _ key d fuel i);
      [lia | exact Hi | exact Hnull].
  - apply (remove_identity_stops _ Hp (table h) dom h key d fuel i);
      [lia | exact Hi | exact Hnull].
Qed.

(** So does lookup, provided no cell it takes for the key has a null
    value (the state of a slot in the middle of a removal). *)
Lemma lookup_returns fuel dom h key :
  well_sized h ->
  (occupied (keys (table h)) < length (keys (table h)))%nat ->
  (forall j, 0 <= j < table_size (table h) ->
     lookup_matches dom h key (array_get (keys (table h)) j) = true ->
     array_get (values (table h)) j <> NULL) ->
  (Z.to_nat (table_size (table h)) <= fuel)%nat ->
  exists res, mono_conc_g_hash_table_lookup_extended fuel dom h key = Done res.
Proof.
  intros Hw Hocc Hval Hfuel.
  pose proof (well_sized_pow2 _ Hw) as Hp.
  destruct Hw as (n & Hn & Hg & _).
  pose proof (generation_keys_length _ n ltac:(lia) Hg) as Hlen.
  unfold mono_conc_g_hash_table_lookup_extended.
  set (i := Z.land _ _).
  assert (Hi : 0 <= i < table_size (table h)) by apply land_mask_range, Hp.
  destruct (null_cell_ahead _ (table h) i Hlen Hocc Hi) as (d & Hd & Hnull).
  unfold lookup_matches in Hval.
  destruct (equal_func h) as [equal |].
  - apply (lookup_equal_stops _ Hp (table h) key dom h equal _) with (d := d);
      [| lia | exact Hi | exact Hnull].
    intros j Hj Ht He. apply (Hval j Hj). rewrite Ht, He. reflexivity.
  - apply (lookup_identity_stops _ Hp (table h) key _) with (d := d);
      [| lia | exact Hi | exact Hnull].
    intros j Hj He. apply (Hval j Hj). rewrite He. apply Z.eqb_refl.
Qed.

(** ** Insert of an absent key, then lookup *)

Lemma nth_set_nth_same a : forall n x d,
  (n < length a)%nat -> nth n (set_nth a n x) d = x.
Proof.
  induction a as [| y a IH]; intros [| n] x d Hn; cbn in *; try lia; auto.
  apply IH. lia.
Qed.

Lemma nth_set_nth_other a : forall n m x d,
  n <> m -> nth m (set_nth a n x) d = nth m a d.
Proof.
  induction a as [| y a IH]; intros [| n] [| m] x d Hnm; cbn; auto; try congruence.
Qed.

Lemma array_get_set_same a i x :
  0 <= i < Z.of_nat (length a) -> array_get (array_set a i x) i = x.
Proof. intros Hi. apply nth_set_nth_same. lia. Qed.

Lemma array_get_set_other a i j x :
  0 <= i -> 0 <= j -> i <> j -> array_get (array_set a i x) j = array_get a j.
Proof. intros Hi Hj Hij. apply nth_set_nth_other. lia. Qed.

Lemma array_get_in a i : array_get a i = NULL \/ In (array_get a i) a.
Proof.
  unfold array_get. destruct (Nat.lt_ge_cases (Z.to_nat i) (length a)) as [H | H].
  - right. apply nth_In, H.
  - left. apply nth_overflow, H.
Qed.

Lemma in_array_set a i x c : In c (array_set a i x) -> c = x \/ In c a.
Proof.
  unfold array_set. generalize (Z.to_nat i). clear i.
  induction a as [| y a IH]; intros [| n]; cbn; try tauto.
  - intros [H | H]; auto.
  - intros [H | H]; auto. destruct (IH _ H); auto.
Qed.

Lemma lookup_identity_probe fuel t key hash mask : forall i,
  lookup_identity fuel t key hash mask i = lookup_probe (Z.eqb key) fuel t hash mask i.
Proof.
  induction fuel as [| fuel IH]; intros i; cbn; [reflexivity |].
  rewrite !IH. reflexivity.
Qed.

Lemma lookup_equal_probe fuel dom h equal t key hash mask : forall i,
  lookup_equal fuel dom h equal t key hash mask i
  = lookup_probe (fun c => negb (key_is_tombstone dom h c) && equal key c)
      fuel t hash mask i.
Proof.
  induction fuel as [| fuel IH]; intros i; cbn; [reflexivity |].
  rewrite !IH. reflexivity.
Qed.

Lemma insert_identity_probe fuel dom h t key value mask : forall i,
  insert_identity fuel dom h t key value mask i
  = insert_probe (Z.eqb key) fuel dom h t key value mask i.
Proof.
  induction fuel as [| fuel IH]; intros i; cbn; [reflexivity |].
  rewrite IH. reflexivity.
Qed.

Lemma insert_equal_probe fuel dom h equal t key value mask : forall i,
  insert_equal fuel dom h equal t key value mask i
  = insert_probe (equal key) fuel dom h t key value mask i.
Proof.
  induction fuel as [| fuel IH]; intros i; cbn; [reflexivity |].
  rewrite IH. reflexivity.
Qed.

Section RoundTrip.

Variable C : Z.
Hypothesis HC : is_pow2 C.
Variable dom : MonoDomain.
Variable h : MonoConcGHashTable.
Variable t : conc_table.
Hypothesis Hkeys : Z.of_nat (length (keys t)) = C.
Hypothesis Hvalues : Z.of_nat (length (values t)) = C.
Variables key value : gpointer.
Hypothesis Hkey : key <> NULL.
Hypothesis Hvalue : value <> NULL.
Variables same matches : gpointer -> bool.

(** On a cell that is no tombstone the two tests agree, lookup takes the
    key itself for the key, and no occupied cell is taken for it. *)
Hypothesis Hagree : forall c, key_is_tombstone dom h c = false -> matches c = same c.
Hypothesis Hself : matches key = true.
Hypothesis Habsent : forall c, In c (keys t) -> c <> NULL -> matches c = false.

Lemma insert_probe_then_lookup hash : forall fuel i h' r,
  0 <= i < C ->
  insert_probe same fuel dom h t key value (C - 1) i = Done (h', r) ->
  r = NULL /\
  exists j, 0 <= j < C /\ h' = insert_here h t j key value /\
    ((array_get (keys t) j =? NULL) || key_is_tombstone dom h (array_get (keys t) j)) = true /\
    lookup_probe matches fuel (table h') hash (C - 1) i = Done (true, key, value).
Proof.
  induction fuel as [| fuel IH]; intros i h' r Hi H; cbn in H; [discriminate |].
  destruct ((array_get (keys t) i =? NULL)
            || key_is_tombstone dom h (array_get (keys t) i)) eqn:Efree.
  - injection H as <- <-. split; [reflexivity |]. exists i.
    repeat split; try assumption; try apply Hi.
    cbn. rewrite !array_get_set_same by lia.
    apply Z.eqb_neq in Hkey, Hvalue. rewrite Hkey, Hself, Hvalue. reflexivity.
  - apply orb_false_iff in Efree. destruct Efree as [Enull Etomb].
    destruct (same (array_get (keys t) i)) eqn:Esame.
    + exfalso. rewrite <- Hagree in Esame by exact Etomb.
      apply Z.eqb_neq in Enull.
      destruct (array_get_in (keys t) i) as [E0 | Hin]; [contradiction |].
      rewrite (Habsent _ Hin Enull) in Esame. discriminate.
    + apply IH in H; [| apply land_mask_range, HC].
      destruct H as (-> & j & Hj & -> & Hfree & Hlookup).
      split; [reflexivity |]. exists j. repeat split; try assumption; try apply Hj.
      assert (Hij : j <> i).
      { intros ->. rewrite Enull, Etomb in Hfree. discriminate. }
      cbn in Hlookup |- *.
      rewrite array_get_set_other by lia.
      rewrite Enull, Hagree, Esame by exact Etomb. exact Hlookup.
Qed.

End RoundTrip.

Lemma insert_one_local_keys fuel t hf k v t' c :
  insert_one_local fuel t hf k v = Done t' ->
  In c (keys t') -> c = k \/ In c (keys t).
Proof.
  unfold insert_one_local. destruct (first_null_key _ _ _ _); [| discriminate].
  intros [= <-]. cbn. apply in_array_set.
Qed.

Lemma expand_loop_keys fuel dom h old c : forall cnt i t t',
  expand_loop fuel dom h old cnt i t = Done t' ->
  In c (keys t') -> In c (keys t) \/ In c (keys old).
Proof.
  induction cnt as [| cnt IH]; intros i t t' H Hin; cbn in H.
  - injection H as <-. auto.
  - destruct (negb (array_get (keys old) i =? NULL) && _) eqn:Elive.
    + destruct (insert_one_local _ _ _ _ _) as [t1 | |] eqn:E; try discriminate.
      destruct (IH _ _ _ H Hin) as [Hin1 | Hold]; [| auto].
      destruct (insert_one_local_keys _ _ _ _ _ _ _ E Hin1) as [-> | Hin0]; [| auto].
      right. apply andb_true_iff in Elive. destruct Elive as [Enull _].
      apply negb_true_iff, Z.eqb_neq in Enull.
      destruct (array_get_in (keys old) i); [contradiction | assumption].
    + eauto.
Qed.

Lemma expand_table_keys fuel dom h h' c :
  expand_table fuel dom h = Done h' ->
  In c (keys (table h')) -> c = NULL \/ In c (keys (table h)).
Proof.
  unfold expand_table, conc_table_new.
  destruct (_ <? 0); [discriminate |].
  destruct (expand_loop _ _ _ _ _ _ _) as [t1 | |] eqn:E; try discriminate.
  intros [= <-] Hin. cbn in Hin.
  destruct (expand_loop_keys _ _ _ _ _ _ _ _ _ E Hin) as [H | H]; [| auto].
  left. cbn in H. apply repeat_spec in H. exact H.
Qed.

Lemma lookup_matches_config dom h h' key c :
  same_config h h' -> lookup_matches dom h' key c = lookup_matches dom h key c.
Proof.
  intros (_ & He & Hg & _). unfold lookup_matches, key_is_tombstone.
  rewrite He, Hg. reflexivity.
Qed.

Lemma lookup_as_probe fuel dom h key :
  mono_conc_g_hash_table_lookup_extended fuel dom h key
  = lookup_probe (lookup_matches dom h key) fuel (table h)
      (mix_hash (int_wrap (hash_func h key))) (table_size (table h) - 1)
      (Z.land (mix_hash (int_wrap (hash_func h key))) (table_size (table h) - 1)).
Proof.
  unfold mono_conc_g_hash_table_lookup_extended, lookup_matches.
  destruct (equal_func h); [apply lookup_equal_probe | apply lookup_identity_probe].
Qed.

Lemma insert_probe_as_probe fuel dom h t key value mask i :
  match equal_func h with
  | None => insert_identity fuel dom h t key value mask i
  | Some equal => insert_equal fuel dom h equal t key value mask i
  end = insert_probe (insert_same h key) fuel dom h t key value mask i.
Proof.
  unfold insert_same.
  destruct (equal_func h); [apply insert_equal_probe | apply insert_identity_probe].
Qed.

(** The probe of insert on the current generation of [h1], for a key that
    lookup would not find there, followed by lookup. *)
Lemma insert_probe_round_trip fuel dom h1 hf key value h' r n :
  0 <= n -> generation_of_size (table h1) n ->
  key <> NULL -> value <> NULL ->
  lookup_matches dom h1 key key = true ->
  absent dom h1 key (keys (table h1)) ->
  hash_func h1 = hf ->
  insert_probe (insert_same h1 key) fuel dom h1 (table h1) key value
    (table_size (table h1) - 1)
    (Z.land (mix_hash (int_wrap (hf key))) (table_size (table h1) - 1)) = Done (h', r) ->
  r = NULL /\
  mono_conc_g_hash_table_lookup_extended fuel dom h' key = Done (true, key, value).
Proof.
  intros Hn Hg Hk Hv Hself Habs Hhf H.
  pose proof (generation_pow2 _ n Hn Hg) as Hp.
  pose proof (generation_keys_length _ n Hn Hg) as Hlen.
  assert (Hlenv : Z.of_nat (length (values (table h1))) = table_size (table h1)).
  { destruct Hg as (Hs & _ & Hvl). rewrite Hs, Hvl. apply Z2Nat.id, Z.pow_nonneg. lia. }
  eapply (insert_probe_then_lookup _ Hp dom h1 (table h1) Hlen Hlenv key value Hk Hv
            (insert_same h1 key) (lookup_matches dom h1 key))
    with (hash := mix_hash (int_wrap (hf key))) in H.
  - destruct H as (-> & j & Hj & -> & _ & Hlookup). split; [reflexivity |].
    rewrite lookup_as_probe.
    replace (lookup_matches dom (insert_here h1 (table h1) j key value) key)
      with (lookup_matches dom h1 key) by reflexivity.
    cbn [table insert_here with_element_count with_table hash_func table_size
         set_key set_value].
    cbn [table insert_here with_element_count with_table table_size
         set_key set_value] in Hlookup.
    rewrite Hhf. exact Hlookup.
  - intros c Ht. unfold lookup_matches, insert_same.
    destruct (equal_func h1); [rewrite Ht |]; reflexivity.
  - exact Hself.
  - exact Habs.
  - apply land_mask_range, Hp.
Qed.

(** Whenever insert returns for a key that lookup would not find, it
    reports success and lookup then returns the pair just stored; this
    holds in every mode, with or without a resize on the way. *)
Lemma insert_then_lookup fuel dom h key value h' r :
  well_sized h -> key <> NULL -> value <> NULL ->
  lookup_matches dom h key key = true ->
  absent dom h key (keys (table h)) ->
  mono_conc_g_hash_table_insert fuel dom h key value = Done (h', r) ->
  r = NULL /\
  mono_conc_g_hash_table_lookup_extended fuel dom h' key = Done (true, key, value).
Proof.
  intros (n & Hn & Hg & Ho) Hk Hv Hself Habs.
  unfold mono_conc_g_hash_table_insert.
  pose proof Hk as Hk'. pose proof Hv as Hv'.
  apply Z.eqb_neq in Hk', Hv'. rewrite Hk', Hv'.
  destruct (element_count h >=? overflow_count h).
  - destruct (expand_table fuel dom h) as [h1 | |] eqn:E; try discriminate.
    destruct (expand_table_shape _ _ _ _ _ Hn Hg E) as (_ & Hg1 & _ & _ & Hc & _).
    rewrite insert_probe_as_probe.
    apply (insert_probe_round_trip fuel dom h1 (hash_func h) key value h' r (n + 1));
      try assumption; try lia.
    + rewrite (lookup_matches_config _ _ _ _ _ Hc). exact Hself.
    + intros c Hin Hc0. rewrite (lookup_matches_config _ _ _ _ _ Hc).
      destruct (expand_table_keys _ _ _ _ _ E Hin) as [-> | Hin0];
        [contradiction | apply Habs; assumption].
    + apply Hc.
  - rewrite insert_probe_as_probe.
    apply (insert_probe_round_trip fuel dom h (hash_func h) key value h' r n);
      try assumption; try lia. reflexivity.
Qed.

(** ** Insert into a first generation that is worn out *)

(** C3, on a table whose keys are tracked by the collector
    ([MONO_HASH_KEY_GC]): the first generation is created before the mode is
    stored in the handle, so [remove] marks its slots with [PTR_TOMBSTONE]
    while [key_is_tombstone] looks for the ephemeron tombstone.  After
    inserting and removing the keys [8, 16, ..., 256] every slot holds such
    a mark, the table has no live element, the key [264] is in no slot, and
    [insert (264, 264)] does not return, whatever the number of iterations
    allowed. *)
Theorem insert_spins_in_key_gc_table :
  table_after a_domain None MONO_HASH_KEY_GC (churn (aligned_keys 32))
    = Some (worn_out_table MONO_HASH_KEY_GC) /\
  reachable a_domain (worn_out_table MONO_HASH_KEY_GC) /\
  ~ In 264 (keys (table (worn_out_table MONO_HASH_KEY_GC))) /\
  (forall fuel,
     mono_conc_g_hash_table_insert fuel a_domain (worn_out_table MONO_HASH_KEY_GC)
       264 264 = Spinning).
Proof.
  assert (Hrun : table_after a_domain None MONO_HASH_KEY_GC (churn (aligned_keys 32))
                 = Some (worn_out_table MONO_HASH_KEY_GC))
    by reflexivity.
  split; [exact Hrun | split; [exact (table_after_reachable _ _ _ _ _ Hrun) |]].
  split.
  - intros Hin. apply repeat_spec in Hin. discriminate.
  - apply insert_spins_when_blocked;
      [apply worn_out_is_pow2 | reflexivity | reflexivity | discriminate | discriminate
      | reflexivity | vm_compute; reflexivity].
Qed.

(** ** The slot invariant, operation by operation *)

Lemma cells_ok_config dom h h' t :
  gc_type h' = gc_type h -> cells_ok dom h t -> cells_ok dom h' t.
Proof.
  intros Hg H i Hi. specialize (H i Hi).
  unfold key_is_tombstone in *. rewrite Hg. exact H.
Qed.

(** Storing a live key with a non-null value keeps the invariant. *)
Lemma cells_ok_store dom h t j key value n :
  0 <= n -> generation_of_size t n -> 0 <= j < table_size t ->
  key <> NULL -> value <> NULL -> key_is_tombstone dom h key = false ->
  cells_ok dom h t ->
  cells_ok dom h (set_key (set_value t j value) j key) /\
  cells_ok dom h (set_value (set_key t j key) j value).
Proof.
  intros Hn Hg Hj Hk Hv Ht Hok.
  pose proof (generation_keys_length _ n Hn Hg) as Hlk.
  assert (Hlv : Z.of_nat (length (values t)) = table_size t).
  { destruct Hg as (Hs & _ & Hvl). rewrite Hs, Hvl. apply Z2Nat.id, Z.pow_nonneg. lia. }
  apply Z.eqb_neq in Hk, Hv.
  split; intros i Hi; cbn in Hi |- *;
    (destruct (Z.eq_dec j i) as [-> | Hne];
     [ rewrite !array_get_set_same by lia; rewrite Hk, Hv, Ht; reflexivity
     | rewrite !array_get_set_other by lia; apply Hok, Hi ]).
Qed.

(** Overwriting a slot with a null value and a tombstone the handle
    recognises keeps it too. *)
Lemma cells_ok_tombstone dom h t j n :
  0 <= n -> generation_of_size t n -> 0 <= j < table_size t ->
  has_flag (ct_gc_type t) MONO_HASH_KEY_GC = has_flag (gc_type h) MONO_HASH_KEY_GC ->
  cells_ok dom h t ->
  cells_ok dom h (set_key_to_tombstone dom (set_value t j NULL) j).
Proof.
  intros Hn Hg Hj Hm Hok.
  pose proof (generation_keys_length _ n Hn Hg) as Hlk.
  assert (Hlv : Z.of_nat (length (values t)) = table_size t).
  { destruct Hg as (Hs & _ & Hvl). rewrite Hs, Hvl. apply Z2Nat.id, Z.pow_nonneg. lia. }
  unfold set_key_to_tombstone. cbn [ct_gc_type set_value].
  intros i Hi. unfold key_is_tombstone. rewrite <- Hm.
  destruct (has_flag (ct_gc_type t) MONO_HASH_KEY_GC) eqn:Ef;
    cbn in Hi |- *;
    (destruct (Z.eq_dec j i) as [-> | Hne];
     [ rewrite !array_get_set_same by lia; rewrite !Z.eqb_refl, orb_true_r; reflexivity
     | rewrite !array_get_set_other by lia;
       specialize (Hok i Hi); unfold key_is_tombstone in Hok;
       rewrite <- Hm in Hok; exact Hok ]).
Qed.

Lemma cells_ok_empty dom h size gc :
  cells_ok dom h {| table_size := size; ct_gc_type := gc;
                    keys := repeat NULL (Z.to_nat size);
                    values := repeat NULL (Z.to_nat size) |}.
Proof.
  intros i Hi. cbn in Hi |- *.
  assert (E : array_get (repeat NULL (Z.to_nat size)) i = NULL).
  { destruct (array_get_in (repeat NULL (Z.to_nat size)) i) as [E | E]; [exact E |].
    apply repeat_spec in E. exact E. }
  rewrite E. reflexivity.
Qed.

Lemma expand_loop_cells_ok fuel dom h old n : forall cnt i t t',
  0 <= n -> generation_of_size t n ->
  0 <= i -> i + Z.of_nat cnt <= table_size old ->
  cells_ok dom h old -> cells_ok dom h t ->
  expand_loop fuel dom h old cnt i t = Done t' -> cells_ok dom h t'.
Proof.
  induction cnt as [| cnt IH]; intros i t t' Hn Hg Hi Hcnt Hold Hok H; cbn in H.
  - injection H as <-. exact Hok.
  - destruct (negb (array_get (keys old) i =? NULL)
              && negb (key_is_tombstone dom h (array_get (keys old) i))) eqn:Elive.
    + destruct (insert_one_local _ _ _ _ _) as [t1 | |] eqn:E; try discriminate.
      apply andb_true_iff in Elive. destruct Elive as [Enull Etomb].
      apply negb_true_iff in Enull, Etomb.
      assert (Hv : array_get (values old) i <> NULL).
      { specialize (Hold i ltac:(lia)). rewrite Enull, Etomb in Hold. cbn in Hold.
        apply eqb_prop in Hold. apply Z.eqb_neq. exact Hold. }
      destruct (insert_one_local_size _ _ _ _ _ _ _ E Hg) as [Hg1 _].
      apply (IH (i + 1) t1 t' Hn Hg1); try assumption; try lia.
      apply rehash_on_path in E; [| apply (generation_pow2 _ n Hn Hg)].
      destruct E as (m & _ & ->).
      apply (cells_ok_store dom h t _ _ _ n Hn Hg); try assumption.
      * apply probe_slot_range, (generation_pow2 _ n Hn Hg).
      * apply Z.eqb_neq, Enull.
    + apply (IH (i + 1) t t' Hn Hg); try assumption; lia.
Qed.

Lemma expand_table_slot_ok fuel dom h h' n :
  5 <= n <= 30 -> generation_of_size (table h) n -> slot_ok dom h ->
  expand_table fuel dom h = Done h' -> slot_ok dom h' /\ modes_agree h'.
Proof.
  intros Hn Hg Hok E.
  destruct (expand_table_shape _ _ _ _ _ Hn Hg E) as (Hlt & _ & _ & _ & Hc & Hgc).
  split; [| unfold modes_agree; destruct Hc as (_ & _ & -> & _); rewrite Hgc; reflexivity].
  revert E. unfold expand_table. pose proof Hg as (Hs & _).
  rewrite Hs, int_wrap_double by assumption.
  replace (n <? 30) with true by (symmetry; apply Z.ltb_lt; lia).
  unfold conc_table_new.
  assert (Hpos1 : 0 < 2 ^ (n + 1)) by (apply Z.pow_pos_nonneg; lia).
  replace (2 ^ (n + 1) <? 0) with false by (symmetry; apply Z.ltb_ge; lia).
  destruct (expand_loop _ _ _ _ _ _ _) as [t1 | |] eqn:El; try discriminate.
  intros [= <-]. unfold slot_ok. cbn [table with_overflow_count with_table].
  apply (cells_ok_config dom h); [reflexivity |].
  apply (expand_loop_cells_ok _ _ _ _ (n + 1) _ _ _ _ ltac:(lia)) in El;
    try assumption; try lia.
  - unfold generation_of_size. cbn. rewrite !repeat_length. auto.
  - apply cells_ok_empty.
Qed.

Lemma new_type_slot_ok dom hf eq ty h :
  mono_conc_g_hash_table_new_type hf eq ty = Done h ->
  slot_ok dom h /\ (modes_agree h <-> has_flag ty MONO_HASH_KEY_GC = false).
Proof.
  intros H. pose proof (new_type_done _ _ _ _ H) as (_ & _ & _ & _ & _ & _ & Hty & _ & _ & Hct).
  split.
  - revert H. unfold mono_conc_g_hash_table_new_type, conc_table_new.
    change (INITIAL_SIZE <? 0) with false. cbv beta iota.
    destruct (ty >? _); [discriminate |]. intros [= <-].
    unfold slot_ok.
    cbn [table with_gc_type with_overflow_count with_element_count with_table].
    apply cells_ok_empty.
  - unfold modes_agree. rewrite Hct, Hty. cbn. split; auto.
Qed.

(** Insert keeps the invariant in every mode, as long as the key is no
    tombstone for the handle. *)
Lemma insert_slot_ok fuel dom h key value h' r :
  well_sized h -> slot_ok dom h -> key_is_tombstone dom h key = false ->
  mono_conc_g_hash_table_insert fuel dom h key value = Done (h', r) ->
  slot_ok dom h' /\ (modes_agree h -> modes_agree h').
Proof.
  intros Hw Hok Ht H.
  assert (Hk : key <> NULL /\ value <> NULL).
  { unfold mono_conc_g_hash_table_insert in H.
    destruct (key =? NULL) eqn:E1; [discriminate |].
    destruct (value =? NULL) eqn:E2; [discriminate |].
    split; apply Z.eqb_neq; assumption. }
  destruct Hk as [Hk Hv].
  destruct (insert_on_path _ _ _ _ _ _ _ Hw H) as (h1 & m & Hh1 & Hcase).
  destruct Hw as (n & Hn & Hg & Ho).
  assert (H1 : exists n1, 0 <= n1 /\ generation_of_size (table h1) n1 /\
                 slot_ok dom h1 /\ gc_type h1 = gc_type h /\
                 (modes_agree h -> modes_agree h1)).
  { destruct (element_count h >=? overflow_count h).
    - destruct (expand_table_shape _ _ _ _ _ Hn Hg Hh1) as (_ & Hg1 & _ & _ & Hc & _).
      destruct (expand_table_slot_ok _ _ _ _ _ Hn Hg Hok Hh1) as [Hok1 Hm1].
      exists (n + 1).
      split; [lia |]. split; [exact Hg1 |]. split; [exact Hok1 |].
      split; [apply Hc | intros _; exact Hm1].
    - subst h1. exists n.
      split; [lia |]. split; [exact Hg |]. split; [exact Hok |].
      split; [reflexivity | auto]. }
  destruct H1 as (n1 & Hn1 & Hg1 & Hok1 & Hgc1 & Hm1).
  cbv zeta in Hcase. destruct Hcase as [[-> _] | [-> _]].
  - split.
    + unfold slot_ok. cbn [table insert_here with_element_count with_table].
      apply (cells_ok_config dom h1); [reflexivity |].
      apply (cells_ok_store dom h1 (table h1) _ key value n1 Hn1 Hg1); try assumption.
      * apply probe_slot_range, (generation_pow2 _ n1 Hn1 Hg1).
      * unfold key_is_tombstone in *. rewrite Hgc1. exact Ht.
    + intros Hm. apply Hm1 in Hm. unfold modes_agree in *. cbn. exact Hm.
  - tauto.
Qed.

(** Remove keeps it when the generation and the handle agree on the
    tombstone. *)
Lemma remove_slot_ok fuel dom h key h' r ev :
  well_sized h -> modes_agree h -> slot_ok dom h ->
  mono_conc_g_hash_table_remove fuel dom h key = Done (h', r, ev) ->
  slot_ok dom h' /\ modes_agree h'.
Proof.
  intros Hw Hm Hok H.
  pose proof (well_sized_pow2 _ Hw) as Hp.
  pose proof (remove_shape _ _ _ _ _ _ _ H) as Hshape.
  apply (remove_on_path _ _ _ _ _ _ _ Hp) in H.
  destruct Hw as (n & Hn & Hg & _).
  destruct H as [[-> _] | (m & Ht & _)]; [auto |].
  destruct Hshape as [-> | (j & _ & _ & Hc)]; [auto |].
  cbv zeta in Ht.
  assert (Hgc : gc_type h' = gc_type h) by apply Hc.
  split.
  - unfold slot_ok. rewrite Ht. apply (cells_ok_config dom h); [exact Hgc |].
    apply (cells_ok_tombstone dom h (table h) _ n); try assumption; try lia.
    apply probe_slot_range, Hp.
  - unfold modes_agree in *. rewrite Ht, Hgc, <- Hm. f_equal.
    unfold set_key_to_tombstone. cbn [ct_gc_type set_value].
    destruct (has_flag _ _); reflexivity.
Qed.

(** In a mode that does not track keys, the slot invariant holds after
    every run that does not insert [PTR_TOMBSTONE] itself as a key. *)
Lemma run_slot_ok fuel dom : forall ops h h',
  well_sized h -> modes_agree h -> slot_ok dom h ->
  inserts_no_tombstone dom h ops ->
  run fuel dom h ops = Done h' -> slot_ok dom h'.
Proof.
  induction ops as [| o ops IH]; intros h h' Hw Hm Hok Hops H; cbn in H.
  - injection H as <-. exact Hok.
  - destruct (apply_op fuel dom h o) as [h1 | |] eqn:E; try discriminate.
    inversion Hops as [| o' ops' Ho Hrest]; subst.
    assert (Hstep : step dom h h1).
    { destruct o as [k v | k]; cbn in E.
      - destruct (mono_conc_g_hash_table_insert fuel dom h k v) as [[h2 r] | |] eqn:E2;
          try discriminate.
        injection E as ->. eapply step_insert; eassumption.
      - destruct (mono_conc_g_hash_table_remove fuel dom h k) as [[[h2 r] ev] | |] eqn:E2;
          try discriminate.
        injection E as ->. eapply step_remove; eassumption. }
    pose proof (step_well_sized _ _ _ Hstep Hw) as Hw1.
    pose proof (step_same_config _ _ _ Hstep Hw) as (_ & _ & Hgc & _).
    assert (H1 : slot_ok dom h1 /\ modes_agree h1).
    { destruct o as [k v | k]; cbn in E.
      - destruct (mono_conc_g_hash_table_insert fuel dom h k v) as [[h2 r] | |] eqn:E2;
          try discriminate.
        injection E as ->.
        destruct (insert_slot_ok _ _ _ _ _ _ _ Hw Hok Ho E2). auto.
      - destruct (mono_conc_g_hash_table_remove fuel dom h k) as [[[h2 r] ev] | |] eqn:E2;
          try discriminate.
        injection E as ->. apply (remove_slot_ok _ _ _ _ _ _ _ Hw Hm Hok E2). }
    destruct H1 as [Hok1 Hm1].
    apply (IH h1 h' Hw1 Hm1 Hok1); [| exact H].
    unfold inserts_no_tombstone in *. eapply Forall_impl; [| exact Hrest].
    intros [k v | k]; [| auto]. unfold key_is_tombstone. rewrite Hgc. auto.
Qed.

Lemma slot_invariant_without_key_tracking fuel dom hf eq ty h0 ops h :
  mono_conc_g_hash_table_new_type hf eq ty = Done h0 ->
  has_flag ty MONO_HASH_KEY_GC = false ->
  inserts_no_tombstone dom h0 ops ->
  run fuel dom h0 ops = Done h -> slot_ok dom h.
Proof.
  intros Hnew Hty Hops Hrun.
  destruct (new_type_slot_ok dom _ _ _ _ Hnew) as [Hok Hm].
  apply (run_slot_ok fuel dom ops h0 h); try assumption.
  - apply (new_type_well_sized _ _ _ _ Hnew).
  - apply Hm, Hty.
Qed.

(** ** The mode of the first generation *)

(** C6, on a table whose keys are tracked by the collector: the constructor
    creates the first generation while the handle still holds the mode
    zero, so the generation marks removed keys with [PTR_TOMBSTONE] while
    the handle recognises the ephemeron tombstone only.  The new table
    satisfies the slot invariant; after [insert (8, 80)] and [remove (8)]
    slot 26 holds a key that is neither null nor a tombstone for
    [key_is_tombstone] next to a null value, and iteration visits that
    slot. *)
Theorem key_gc_remove_breaks_slot_invariant :
  let h0 := handle_with None MONO_HASH_KEY_GC (first_generation []) 0 24 in
  let h := handle_with None MONO_HASH_KEY_GC
             (first_generation [(26, PTR_TOMBSTONE, NULL)]) 0 24 in
  mono_conc_g_hash_table_new_type (Some low_bits) None MONO_HASH_KEY_GC = Done h0 /\
  slot_invariant a_domain h0 = true /\
  table_after a_domain None MONO_HASH_KEY_GC [Insert 8 80; Remove 8] = Some h /\
  reachable a_domain h /\
  array_get (keys (table h)) 26 = PTR_TOMBSTONE /\
  key_is_tombstone a_domain h PTR_TOMBSTONE = false /\
  array_get (values (table h)) 26 = NULL /\
  slot_invariant_at a_domain h 26 = false /\
  slot_invariant a_domain h = false /\
  mono_conc_g_hash_table_foreach a_domain h = [(PTR_TOMBSTONE, NULL)].
Proof.
  cbv zeta.
  assert (Hrun : table_after a_domain None MONO_HASH_KEY_GC [Insert 8 80; Remove 8]
                 = Some (handle_with None MONO_HASH_KEY_GC
                           (first_generation [(26, PTR_TOMBSTONE, NULL)]) 0 24))
    by reflexivity.
  split; [reflexivity | split; [reflexivity |]].
  split; [exact Hrun | split; [exact (table_after_reachable _ _ _ _ _ Hrun) |]].
  repeat apply conj; reflexivity.
Qed.

(** ** A key that the probe meets *)

Section Found.

Variable dom : MonoDomain.
Variable h : MonoConcGHashTable.
Variable t : conc_table.
Hypothesis Hp : is_pow2 (table_size t).
Variable key : gpointer.
Variables ok v0 : gpointer.

Let C := table_size t.
Let slot := probe_slot C (hash_func h) key.
Let hash := mix_hash (int_wrap (hash_func h key)).

Lemma lookup_probe_found : forall fuel m d,
  found_at dom h t key m ok v0 -> (d <= m)%nat -> (m - d < fuel)%nat ->
  lookup_probe (lookup_matches dom h key) fuel t hash (C - 1) (slot d)
  = Done (true, ok, v0).
Proof.
  induction fuel as [| fuel IH]; intros m d Hf Hd Hfuel; [lia |].
  pose proof Hf as (Hk & Hv & Hv0 & Hlive & Hmatch & Hbefore).
  fold C slot in Hk, Hv, Hbefore.
  cbn. destruct (Nat.eq_dec d m) as [-> | Hne].
  - rewrite Hk, Hv, Hmatch.
    apply andb_true_iff in Hlive. destruct Hlive as [Hnn _].
    apply negb_true_iff in Hnn. rewrite Hnn.
    apply Z.eqb_neq in Hv0. rewrite Hv0. reflexivity.
  - destruct (Hbefore d ltac:(lia)) as [Hl Hsame].
    apply andb_true_iff in Hl. destruct Hl as [Hnn _].
    apply negb_true_iff in Hnn. rewrite Hnn.
    destruct (lookup_matches dom h key (array_get (keys t) (slot d))) eqn:E.
    + destruct (Hsame eq_refl) as [-> ->].
      apply Z.eqb_neq in Hv0. rewrite Hv0. reflexivity.
    + subst slot C. rewrite probe_slot_next by exact Hp.
      apply (IH m (S d) Hf); lia.
Qed.

Lemma insert_probe_found value : forall fuel m d,
  found_at dom h t key m ok v0 -> (d <= m)%nat -> (m - d < fuel)%nat ->
  insert_probe (insert_same h key) fuel dom h t key value (C - 1) (slot d)
  = Done (h, v0).
Proof.
  assert (Hsame_match : forall c, is_live dom h c = true ->
            insert_same h key c = lookup_matches dom h key c).
  { intros c Hl. apply andb_true_iff in Hl. destruct Hl as [_ Ht].
    apply negb_true_iff in Ht. unfold insert_same, lookup_matches.
    destruct (equal_func h); [rewrite Ht |]; reflexivity. }
  induction fuel as [| fuel IH]; intros m d Hf Hd Hfuel; [lia |].
  pose proof Hf as (Hk & Hv & Hv0 & Hlive & Hmatch & Hbefore).
  fold C slot in Hk, Hv, Hbefore.
  cbn. destruct (Nat.eq_dec d m) as [-> | Hne].
  - rewrite Hk, Hv, (Hsame_match _ Hlive), Hmatch.
    apply andb_true_iff in Hlive. destruct Hlive as [Hnn Ht].
    apply negb_true_iff in Hnn, Ht. rewrite Hnn, Ht. reflexivity.
  - destruct (Hbefore d ltac:(lia)) as [Hl Hsame].
    rewrite (Hsame_match _ Hl).
    pose proof Hl as Hl'. apply andb_true_iff in Hl'. destruct Hl' as [Hnn Ht].
    apply negb_true_iff in Hnn, Ht. rewrite Hnn, Ht. cbn.
    destruct (lookup_matches dom h key (array_get (keys t) (slot d))) eqn:E.
    + destruct (Hsame eq_refl) as [_ ->]. reflexivity.
    + subst slot C. rewrite probe_slot_next by exact Hp.
      apply (IH m (S d) Hf); lia.
Qed.

End Found.

(** ** Remove of a key that is present *)

Section RemoveFound.

Variable dom : MonoDomain.
Variable h : MonoConcGHashTable.
Hypothesis Hp : is_pow2 (table_size (table h)).
Variable key : gpointer.
Variables ok v0 : gpointer.

Let C := table_size (table h).
Let slot := probe_slot C (hash_func h) key.

Lemma remove_identity_found :
  equal_func h = None -> forall fuel m d,
  found_at dom h (table h) key m ok v0 -> (d <= m)%nat -> (m - d < fuel)%nat ->
  exists h',
    remove_identity fuel dom h (table h) key (C - 1) (slot d)
    = Done (h', v0, destroy_calls h ok v0) /\
    element_count h' = int_wrap (element_count h - 1).
Proof.
  intros He.
  assert (Hm : forall c, lookup_matches dom h key c = (key =? c))
    by (intros c; unfold lookup_matches; rewrite He; reflexivity).
  induction fuel as [| fuel IH]; intros m d Hf Hd Hfuel; [lia |].
  pose proof Hf as (Hk & Hv & Hv0 & Hlive & Hmatch & Hbefore).
  fold C slot in Hk, Hv, Hbefore. rewrite Hm in Hmatch.
  cbn. destruct (Nat.eq_dec d m) as [-> | Hne].
  - rewrite Hk, Hv, Hmatch.
    apply andb_true_iff in Hlive. destruct Hlive as [Hnn _].
    apply negb_true_iff in Hnn. rewrite Hnn. eexists. split; reflexivity.
  - destruct (Hbefore d ltac:(lia)) as [Hl Hsame]. rewrite Hm in Hsame.
    apply andb_true_iff in Hl. destruct Hl as [Hnn _].
    apply negb_true_iff in Hnn. rewrite Hnn.
    destruct (key =? array_get (keys (table h)) (slot d)) eqn:E.
    + destruct (Hsame eq_refl) as [-> ->]. eexists. split; reflexivity.
    + subst slot C. rewrite probe_slot_next by exact Hp.
      apply (IH m (S d) Hf); lia.
Qed.

Lemma remove_equal_found equal :
  equal_func h = Some equal -> forall fuel m d,
  found_at dom h (table h) key m ok v0 -> (d <= m)%nat -> (m - d < fuel)%nat ->
  exists h',
    remove_equal fuel dom h equal (table h) key (C - 1) (slot d)
    = Done (h', v0, destroy_calls h ok v0) /\
    element_count h' = element_count h.
Proof.
  intros He.
  assert (Hm : forall c, lookup_matches dom h key c
                         = negb (key_is_tombstone dom h c) && equal key c)
    by (intros c; unfold lookup_matches; rewrite He; reflexivity).
  induction fuel as [| fuel IH]; intros m d Hf Hd Hfuel; [lia |].
  pose proof Hf as (Hk & Hv & Hv0 & Hlive & Hmatch & Hbefore).
  fold C slot in Hk, Hv, Hbefore. rewrite Hm in Hmatch.
  cbn. destruct (Nat.eq_dec d m) as [-> | Hne].
  - rewrite Hk, Hv, Hmatch.
    apply andb_true_iff in Hlive. destruct Hlive as [Hnn _].
    apply negb_true_iff in Hnn. rewrite Hnn. eexists. split; reflexivity.
  - destruct (Hbefore d ltac:(lia)) as [Hl Hsame]. rewrite Hm in Hsame.
    apply andb_true_iff in Hl. destruct Hl as [Hnn _].
    apply negb_true_iff in Hnn. rewrite Hnn.
    destruct (negb (key_is_tombstone dom h (array_get (keys (table h)) (slot d)))
              && equal key (array_get (keys (table h)) (slot d))) eqn:E.
    + destruct (Hsame eq_refl) as [-> ->]. eexists. split; reflexivity.
    + subst slot C. rewrite probe_slot_next by exact Hp.
      apply (IH m (S d) Hf); lia.
Qed.

End RemoveFound.

(** Remove of a key the probe meets returns the value stored for it and
    calls the destroy callbacks that are set; it counts the element down
    in a table without an equality function, and only there. *)
Lemma remove_found fuel dom h key m ok v0 :
  is_pow2 (table_size (table h)) -> key <> NULL ->
  found_at dom h (table h) key m ok v0 -> (m < fuel)%nat ->
  exists h',
    mono_conc_g_hash_table_remove fuel dom h key = Done (h', v0, destroy_calls h ok v0) /\
    element_count h' = match equal_func h with
                       | None => int_wrap (element_count h - 1)
                       | Some _ => element_count h
                       end.
Proof.
  intros Hp Hk Hf Hm. unfold mono_conc_g_hash_table_remove.
  apply Z.eqb_neq in Hk. rewrite Hk, home_slot_land by exact Hp.
  destruct (equal_func h) as [equal |] eqn:He.
  - apply (remove_equal_found dom h Hp key ok v0 equal He fuel m O Hf); lia.
  - apply (remove_identity_found dom h Hp key ok v0 He fuel m O Hf); lia.
Qed.

(** ** What a resize builds *)

Lemma first_null_key_first C hf key t :
  is_pow2 C -> forall fuel n0 i j,
  i = probe_slot C hf key n0 ->
  first_null_key fuel t (C - 1) i = Some j ->
  exists n, (n0 <= n)%nat /\ j = probe_slot C hf key n /\
    array_get (keys t) j = NULL /\
    forall d, (n0 <= d < n)%nat -> array_get (keys t) (probe_slot C hf key d) <> NULL.
Proof.
  intros HC.
  induction fuel as [| fuel IH]; intros n0 i j Hi H; cbn in H; [discriminate |].
  destruct (array_get (keys t) i =? NULL) eqn:E.
  - injection H as <-. exists n0.
    split; [lia |]. split; [assumption |].
    split; [apply Z.eqb_eq, E | intros d Hd; lia].
  - apply (IH (S n0)) in H; [| subst i; apply probe_slot_next, HC].
    destruct H as (n & Hn & Hj & Hnull & Hbefore).
    exists n. split; [lia |]. split; [assumption |]. split; [assumption |].
    intros d Hd. destruct (Nat.eq_dec d n0) as [-> | Hne].
    + subst i. apply Z.eqb_neq, E.
    + apply Hbefore. lia.
Qed.

Lemma probe_slot_wrap C hf key n :
  is_pow2 C -> (Z.to_nat C <= n)%nat ->
  probe_slot C hf key (n - Z.to_nat C) = probe_slot C hf key n.
Proof.
  intros HC Hn. pose proof (pow2_pos C HC). unfold probe_slot.
  replace (home_slot C hf key + Z.of_nat n)
    with (home_slot C hf key + Z.of_nat (n - Z.to_nat C) + 1 * C) by lia.
  rewrite Z.mod_add by lia. reflexivity.
Qed.

(** [insert_one_local] stores the pair in the first empty slot of the
    probe sequence of the key, less than one round from its home. *)
Lemma insert_one_local_spec fuel t hf k v t' :
  is_pow2 (table_size t) ->
  insert_one_local fuel t hf k v = Done t' ->
  exists n, Z.of_nat n < table_size t /\
    let j := probe_slot (table_size t) hf k n in
    array_get (keys t) j = NULL /\
    (forall d, (d < n)%nat ->
       array_get (keys t) (probe_slot (table_size t) hf k d) <> NULL) /\
    t' = set_value (set_key t j k) j v.
Proof.
  intros HC. unfold insert_one_local.
  destruct (first_null_key _ _ _ _) as [j |] eqn:E; [| discriminate].
  intros [= <-].
  apply (first_null_key_first _ hf k t HC _ O) in E; [| apply home_slot_land, HC].
  destruct E as (n & _ & -> & Hnull & Hbefore).
  exists n. split.
  - destruct (Z.lt_ge_cases (Z.of_nat n) (table_size t)) as [? | Hge]; [assumption |].
    exfalso. apply (Hbefore (n - Z.to_nat (table_size t))%nat).
    + pose proof (pow2_pos _ HC). lia.
    + rewrite probe_slot_wrap by (try exact HC; lia). exact Hnull.
  - cbv zeta. repeat split; try assumption. intros d Hd. apply Hbefore. lia.
Qed.

Lemma stored_key_same t n j k v :
  0 <= n -> generation_of_size t n -> 0 <= j < table_size t ->
  array_get (keys (set_value (set_key t j k) j v)) j = k.
Proof.
  intros Hn Hg Hj. pose proof (generation_keys_length _ n Hn Hg). cbn.
  apply array_get_set_same. lia.
Qed.

Lemma stored_value_same t n j k v :
  0 <= n -> generation_of_size t n -> 0 <= j < table_size t ->
  array_get (values (set_value (set_key t j k) j v)) j = v.
Proof.
  intros Hn Hg Hj.
  assert (Z.of_nat (length (values t)) = table_size t).
  { destruct Hg as (Hs & _ & Hvl). rewrite Hs, Hvl. apply Z2Nat.id, Z.pow_nonneg. lia. }
  cbn. apply array_get_set_same. lia.
Qed.

Lemma stored_key_other t j k v i :
  0 <= j -> 0 <= i -> i <> j ->
  array_get (keys (set_value (set_key t j k) j v)) i = array_get (keys t) i.
Proof. intros Hj Hi Hne. cbn. apply array_get_set_other; lia. Qed.

Lemma stored_value_other t j k v i :
  0 <= j -> 0 <= i -> i <> j ->
  array_get (values (set_value (set_key t j k) j v)) i = array_get (values t) i.
Proof. intros Hj Hi Hne. cbn. apply array_get_set_other; lia. Qed.

Lemma chained_insert fuel t hf k v t' n :
  0 <= n -> generation_of_size t n -> k <> NULL ->
  chained hf t -> insert_one_local fuel t hf k v = Done t' -> chained hf t'.
Proof.
  intros Hn Hg Hk Hch H.
  pose proof (generation_pow2 _ n Hn Hg) as Hp.
  apply insert_one_local_spec in H; [| exact Hp].
  destruct H as (m & Hm & Hnull & Hbefore & ->). cbv zeta in *.
  set (j := probe_slot (table_size t) hf k m) in *.
  assert (Hj : 0 <= j < table_size t) by apply probe_slot_range, Hp.
  assert (Hstays : forall i, 0 <= i < table_size t -> array_get (keys t) i <> NULL ->
            array_get (keys (set_value (set_key t j k) j v)) i <> NULL).
  { intros i Hi Hnn. destruct (Z.eq_dec i j) as [-> | Hne].
    - rewrite (stored_key_same t n) by assumption. exact Hk.
    - rewrite stored_key_other by lia. exact Hnn. }
  intros i Hi. change (table_size (set_value (set_key t j k) j v)) with (table_size t) in *.
  destruct (Z.eq_dec i j) as [-> | Hne].
  - rewrite (stored_key_same t n) by assumption. intros _.
    exists m. split; [exact Hm |]. split; [reflexivity |].
    intros d Hd. apply Hstays; [apply probe_slot_range, Hp | apply Hbefore, Hd].
  - rewrite stored_key_other by lia. intros Hnn.
    destruct (Hch i Hi Hnn) as (m' & Hm' & Hi' & Hbefore').
    exists m'. split; [exact Hm' |]. split; [exact Hi' |].
    intros d Hd. apply Hstays; [apply probe_slot_range, Hp | apply Hbefore', Hd].
Qed.

Lemma copied_insert fuel dom h old t t' n i :
  0 <= n -> generation_of_size t n -> 0 <= i ->
  is_live dom h (array_get (keys old) i) = true ->
  copied dom h old t i ->
  insert_one_local fuel t (hash_func h) (array_get (keys old) i)
    (array_get (values old) i) = Done t' ->
  copied dom h old t' (i + 1).
Proof.
  intros Hn Hg Hi Hlive [HA HB] H.
  pose proof (generation_pow2 _ n Hn Hg) as Hp.
  apply insert_one_local_spec in H; [| exact Hp].
  destruct H as (m & Hm & Hnull & _ & ->). cbv zeta in *.
  set (j := probe_slot (table_size t) (hash_func h) (array_get (keys old) i) m) in *.
  assert (Hj : 0 <= j < table_size t) by apply probe_slot_range, Hp.
  split.
  - intros j' Hj'. cbn [table_size set_value set_key] in Hj'.
    destruct (Z.eq_dec j' j) as [-> | Hne].
    + intros _. exists i. repeat split; try assumption; try lia.
      * apply (stored_key_same t n); assumption.
      * apply (stored_value_same t n); assumption.
    + rewrite stored_key_other, stored_value_other by lia.
      intros Hnn. destruct (HA j' Hj' Hnn) as (i0 & Hi0 & Hrest).
      exists i0. split; [lia | exact Hrest].
  - intros i0 Hi0 Hl0. destruct (Z.eq_dec i0 i) as [-> | Hne].
    + exists j. split; [exact Hj |]. split.
      * apply (stored_key_same t n); assumption.
      * apply (stored_value_same t n); assumption.
    + destruct (HB i0 ltac:(lia) Hl0) as (j0 & Hj0 & Hk0 & Hv0).
      assert (Hne0 : j0 <> j).
      { intros ->. rewrite Hnull in Hk0.
        apply andb_true_iff in Hl0. destruct Hl0 as [Hnn _].
        apply negb_true_iff, Z.eqb_neq in Hnn. congruence. }
      exists j0. split; [exact Hj0 |].
      rewrite stored_key_other, stored_value_other by lia.
      auto.
Qed.

Lemma copied_skip dom h old t i :
  is_live dom h (array_get (keys old) i) = false ->
  copied dom h old t i -> copied dom h old t (i + 1).
Proof.
  intros Hdead [HA HB]. split.
  - intros j Hj Hnn. destruct (HA j Hj Hnn) as (i0 & Hi0 & Hrest).
    exists i0. split; [lia | exact Hrest].
  - intros i0 Hi0 Hl0. destruct (Z.eq_dec i0 i) as [-> | Hne]; [congruence |].
    apply HB; [lia | exact Hl0].
Qed.

Lemma expand_loop_copies fuel dom h old n : forall cnt i t t',
  0 <= n -> generation_of_size t n -> 0 <= i ->
  chained (hash_func h) t -> copied dom h old t i ->
  expand_loop fuel dom h old cnt i t = Done t' ->
  chained (hash_func h) t' /\ copied dom h old t' (i + Z.of_nat cnt).
Proof.
  induction cnt as [| cnt IH]; intros i t t' Hn Hg Hi Hch Hcp H; cbn in H.
  - injection H as <-. rewrite Z.add_0_r. auto.
  - fold (is_live dom h (array_get (keys old) i)) in H.
    replace (i + Z.of_nat (S cnt)) with (i + 1 + Z.of_nat cnt) by lia.
    destruct (is_live dom h (array_get (keys old) i)) eqn:Elive.
    + destruct (insert_one_local _ _ _ _ _) as [t1 | |] eqn:E; try discriminate.
      destruct (insert_one_local_size _ _ _ _ _ _ _ E Hg) as [Hg1 _].
      apply (IH (i + 1) t1 t' Hn Hg1); try assumption; try lia.
      * apply (chained_insert _ _ _ _ _ _ n Hn Hg) in E; try assumption.
        apply andb_true_iff in Elive. destruct Elive as [Hnn _].
        apply negb_true_iff, Z.eqb_neq in Hnn. exact Hnn.
      * apply (copied_insert fuel dom h old t t1 n i) in E; assumption.
    + apply (IH (i + 1) t t' Hn Hg); try assumption; try lia.
      apply copied_skip; assumption.
Qed.

Lemma chained_empty hf size gc :
  chained hf {| table_size := size; ct_gc_type := gc;
                keys := repeat NULL (Z.to_nat size);
                values := repeat NULL (Z.to_nat size) |}.
Proof.
  intros j _ Hnn. exfalso. apply Hnn. cbn.
  destruct (array_get_in (repeat NULL (Z.to_nat size)) j) as [E | E]; [exact E |].
  apply repeat_spec in E. exact E.
Qed.

Lemma copied_empty dom h old size gc :
  copied dom h old {| table_size := size; ct_gc_type := gc;
                      keys := repeat NULL (Z.to_nat size);
                      values := repeat NULL (Z.to_nat size) |} 0.
Proof.
  split.
  - intros j _ Hnn. exfalso. apply Hnn. cbn.
    destruct (array_get_in (repeat NULL (Z.to_nat size)) j) as [E | E]; [exact E |].
    apply repeat_spec in E. exact E.
  - intros i0 Hi0. lia.
Qed.

(** The generation a completed resize installs. *)
Lemma expand_table_copies fuel dom h h' n :
  5 <= n <= 30 -> generation_of_size (table h) n ->
  expand_table fuel dom h = Done h' ->
  chained (hash_func h) (table h') /\
  copied dom h (table h) (table h') (table_size (table h)).
Proof.
  intros Hn Hg. pose proof Hg as (Hs & _). unfold expand_table.
  rewrite Hs, int_wrap_double by assumption.
  destruct (n <? 30) eqn:E; [apply Z.ltb_lt in E | intros; discriminate].
  unfold conc_table_new.
  assert (Hpos : 0 < 2 ^ n) by (apply Z.pow_pos_nonneg; lia).
  assert (Hpos1 : 0 < 2 ^ (n + 1)) by (apply Z.pow_pos_nonneg; lia).
  replace (2 ^ (n + 1) <? 0) with false by (symmetry; apply Z.ltb_ge; lia).
  destruct (expand_loop _ _ _ _ _ _ _) as [t1 | |] eqn:El; try discriminate.
  intros [= <-]. cbn [table with_overflow_count with_table].
  apply (expand_loop_copies _ _ _ _ (n + 1)) in El; try lia.
  - rewrite Z.add_0_l, Z2Nat.id in El by lia. exact El.
  - unfold generation_of_size. cbn. rewrite !repeat_length. auto.
  - apply chained_empty.
  - apply copied_empty.
Qed.

(** ** Lookup across a resize *)

Lemma found_at_config dom h h' t key m ok v0 :
  same_config h h' -> found_at dom h t key m ok v0 -> found_at dom h' t key m ok v0.
Proof.
  intros Hc. pose proof Hc as (Hhf & _ & Hgc & _).
  assert (Hlive : forall c, is_live dom h' c = is_live dom h c)
    by (intros c; unfold is_live, key_is_tombstone; rewrite Hgc; reflexivity).
  intros (H1 & H2 & H3 & H4 & H5 & H6). unfold found_at. rewrite Hhf.
  split; [exact H1 |]. split; [exact H2 |]. split; [exact H3 |].
  split; [rewrite Hlive; exact H4 |].
  split; [rewrite (lookup_matches_config _ _ _ _ _ Hc); exact H5 |].
  intros d Hd. rewrite Hlive, (lookup_matches_config _ _ _ _ _ Hc). apply H6, Hd.
Qed.

(** In the generation a resize installs the probe meets every pair that
    was the single live entry of its key. *)
Lemma expand_table_found fuel dom h h1 n key s :
  5 <= n <= 30 -> generation_of_size (table h) n ->
  expand_table fuel dom h = Done h1 ->
  0 <= s < table_size (table h) ->
  let ok := array_get (keys (table h)) s in
  let v0 := array_get (values (table h)) s in
  is_live dom h ok = true -> lookup_matches dom h key ok = true -> v0 <> NULL ->
  hash_func h ok = hash_func h key ->
  single_entry dom h (table h) key ok v0 ->
  exists m, Z.of_nat m < table_size (table h1) /\
            found_at dom h1 (table h1) key m ok v0.
Proof.
  intros Hn Hg E Hs ok v0 Hlive Hmatch Hv0 Hhash Hsingle.
  destruct (expand_table_copies _ _ _ _ _ Hn Hg E) as (Hch & HA & HB).
  destruct (expand_table_shape _ _ _ _ _ Hn Hg E) as (_ & Hg1 & _ & _ & Hc & _).
  destruct (HB s Hs Hlive) as (j & Hj & Hkj & Hvj). fold ok in Hkj. fold v0 in Hvj.
  assert (Hnn : ok <> NULL).
  { apply andb_true_iff in Hlive. destruct Hlive as [Hl _].
    apply negb_true_iff, Z.eqb_neq in Hl. exact Hl. }
  destruct (Hch j Hj ltac:(congruence)) as (m & Hm & Hjm & Hbefore).
  rewrite Hkj in Hjm, Hbefore.
  assert (Hslot : forall d, probe_slot (table_size (table h1)) (hash_func h) ok d
                          = probe_slot (table_size (table h1)) (hash_func h) key d)
    by (intros d; unfold probe_slot, home_slot; rewrite Hhash; reflexivity).
  exists m. split; [exact Hm |].
  apply (found_at_config dom h h1); [exact Hc |].
  unfold found_at. cbv zeta.
  split; [rewrite <- Hslot, <- Hjm; exact Hkj |].
  split; [rewrite <- Hslot, <- Hjm; exact Hvj |].
  split; [exact Hv0 |]. split; [exact Hlive |]. split; [exact Hmatch |].
  intros d Hd. rewrite <- Hslot.
  destruct (HA _ (probe_slot_range _ (hash_func h) ok d
                    (generation_pow2 _ (n + 1) ltac:(lia) Hg1))
              (Hbefore d Hd)) as (i0 & Hi0 & Hl0 & Hk0 & Hv0').
  rewrite Hk0, Hv0'. split; [exact Hl0 |].
  intros Hm0. apply (Hsingle i0 Hi0 Hl0 Hm0).
Qed.

Lemma lookup_found fuel dom h key m ok v0 :
  is_pow2 (table_size (table h)) ->
  found_at dom h (table h) key m ok v0 -> (m < fuel)%nat ->
  mono_conc_g_hash_table_lookup_extended fuel dom h key = Done (true, ok, v0).
Proof.
  intros Hp Hf Hm. rewrite lookup_as_probe, home_slot_land by exact Hp.
  apply (lookup_probe_found dom h (table h) Hp key ok v0 fuel m O Hf); lia.
Qed.

(** A resize keeps what lookup answers for a key with a single live
    entry, whatever else the old generation holds. *)
Lemma expand_table_preserves_lookup fuel fuel' dom h h1 key s :
  well_sized h -> expand_table fuel dom h = Done h1 ->
  0 <= s < table_size (table h) ->
  let ok := array_get (keys (table h)) s in
  let v0 := array_get (values (table h)) s in
  is_live dom h ok = true -> lookup_matches dom h key ok = true -> v0 <> NULL ->
  hash_func h ok = hash_func h key ->
  single_entry dom h (table h) key ok v0 ->
  (Z.to_nat (table_size (table h1)) <= fuel')%nat ->
  mono_conc_g_hash_table_lookup_extended fuel' dom h1 key = Done (true, ok, v0).
Proof.
  intros (n & Hn & Hg & _) E Hs ok v0 Hlive Hmatch Hv0 Hhash Hsingle Hfuel.
  destruct (expand_table_found _ _ _ _ _ key s Hn Hg E Hs Hlive Hmatch Hv0 Hhash Hsingle)
    as (m & Hm & Hf).
  destruct (expand_table_shape _ _ _ _ _ Hn Hg E) as (_ & Hg1 & _).
  apply (lookup_found _ _ _ _ m); [| exact Hf | lia].
  apply (generation_pow2 _ (n + 1)); [lia | exact Hg1].
Qed.

(** ** What a resize carries over *)

(** C4, two runs that end on a handle whose element count has reached the
    threshold, so that the next insert starts with [expand_table].

    In the mode [MONO_HASH_KEY_GC], after [insert (8, 80)] and [remove (8)]
    slot 26 of the first generation holds [PTR_TOMBSTONE] next to a null
    value; twenty four more inserts fill the table to the threshold.  The
    resize reinserts that slot: the new generation has 25 entries, one of
    them the key [PTR_TOMBSTONE] with a null value.

    In the conservative mode, after [insert (136, 1)], [insert (360, 2)],
    [remove (136)] and [insert (360, 3)] the key [360] sits in slot 31 with
    value [3] and in slot 0 with value [2], and lookup answers [3]; twenty
    two more inserts fill the table to the threshold.  The resize visits
    slot 0 first, and in the new generation lookup answers [2]. *)
Theorem resize_carries_over_more_than_the_live_entries :
  (exists h h2,
     table_after a_domain None MONO_HASH_KEY_GC remove_8_then_fill = Some h /\
     element_count h >= overflow_count h /\
     array_get (keys (table h)) 26 = PTR_TOMBSTONE /\
     array_get (values (table h)) 26 = NULL /\
     expand_table 64 a_domain h = Done h2 /\
     table_size (table h2) = 2 * table_size (table h) /\
     length (mono_conc_g_hash_table_foreach a_domain h2) = 25%nat /\
     In (PTR_TOMBSTONE, NULL) (mono_conc_g_hash_table_foreach a_domain h2)) /\
  (exists h h2,
     table_after a_domain None MONO_HASH_CONSERVATIVE_GC twice_360_then_fill = Some h /\
     element_count h >= overflow_count h /\
     mono_conc_g_hash_table_lookup_extended 64 a_domain h 360 = Done (true, 360, 3) /\
     expand_table 64 a_domain h = Done h2 /\
     table_size (table h2) = 2 * table_size (table h) /\
     mono_conc_g_hash_table_lookup_extended 64 a_domain h2 360 = Done (true, 360, 2)).
Proof.
  split.
  - eassert (H : option_map snapshot
                   (table_after a_domain None MONO_HASH_KEY_GC remove_8_then_fill)
                 = Some (_, _, _)) by (vm_compute; reflexivity).
    apply table_after_snapshot in H.
    match type of H with _ = Some ?h =>
      eassert (H2 : snapshot_of (expand_table 64 a_domain h) = Some (_, _, _))
        by (vm_compute; reflexivity)
    end.
    apply expand_table_snapshot in H2.
    eexists. eexists. split; [exact H |].
    split; [vm_compute; discriminate |].
    split; [vm_compute; reflexivity |].
    split; [vm_compute; reflexivity |].
    split; [exact H2 |].
    split; [vm_compute; reflexivity |].
    split; [vm_compute; reflexivity |].
    vm_compute. tauto.
  - eassert (H : option_map snapshot
                   (table_after a_domain None MONO_HASH_CONSERVATIVE_GC twice_360_then_fill)
                 = Some (_, _, _)) by (vm_compute; reflexivity).
    apply table_after_snapshot in H.
    match type of H with _ = Some ?h =>
      eassert (H2 : snapshot_of (expand_table 64 a_domain h) = Some (_, _, _))
        by (vm_compute; reflexivity)
    end.
    apply expand_table_snapshot in H2.
    eexists. eexists. split; [exact H |].
    split; [vm_compute; discriminate |].
    split; [vm_compute; reflexivity |].
    split; [exact H2 |].
    split; vm_compute; reflexivity.
Qed.

(** ** Insert of a key that is present *)

Lemma insert_found fuel dom h key value m ok v0 :
  is_pow2 (table_size (table h)) ->
  found_at dom h (table h) key m ok v0 -> (m < fuel)%nat ->
  insert_probe (insert_same h key) fuel dom h (table h) key value
    (table_size (table h) - 1)
    (Z.land (mix_hash (int_wrap (hash_func h key))) (table_size (table h) - 1))
  = Done (h, v0).
Proof.
  intros Hp Hf Hm. rewrite home_slot_land by exact Hp.
  apply (insert_probe_found dom h (table h) Hp key ok v0 value fuel m O Hf); lia.
Qed.

Lemma found_at_slot dom h t key m ok v0 :
  is_pow2 (table_size t) -> found_at dom h t key m ok v0 ->
  exists s, 0 <= s < table_size t /\
            array_get (keys t) s = ok /\ array_get (values t) s = v0.
Proof.
  intros Hp (Hk & Hv & _). eexists. split; [apply probe_slot_range, Hp | eauto].
Qed.

(** C5, amended: when the probe for [k] meets a slot that holds [k] with
    the value [v0] before any empty or tombstoned slot, [insert (k, v1)]
    with non-null arguments returns [v0] and stores nothing.  Below the
    resize threshold the handle is left exactly as it was.  At or above it
    the insert first moves the live entries to a generation of twice the
    capacity; provided [k] has no second live entry (and, with an equality
    function, equal keys have equal hashes) it then returns [v0] all the
    same, the element count is unchanged and lookup still answers [v0]. *)
Theorem insert_of_key_met_by_probe (dom : MonoDomain) (h : MonoConcGHashTable)
    (key value : gpointer) (m : nat) (ok v0 : gpointer) (fuel : nat) :
  well_sized h -> key <> NULL -> value <> NULL ->
  found_at dom h (table h) key m ok v0 ->
  (m < fuel)%nat -> (Z.to_nat (2 * table_size (table h)) <= fuel)%nat ->
  (element_count h < overflow_count h ->
   mono_conc_g_hash_table_insert fuel dom h key value = Done (h, v0)) /\
  (element_count h >= overflow_count h -> table_size (table h) < 2 ^ 30 ->
   single_entry dom h (table h) key ok v0 -> hash_func h ok = hash_func h key ->
   exists h1,
     expand_table fuel dom h = Done h1 /\
     mono_conc_g_hash_table_insert fuel dom h key value = Done (h1, v0) /\
     element_count h1 = element_count h /\
     table_size (table h1) = 2 * table_size (table h) /\
     mono_conc_g_hash_table_lookup_extended fuel dom h1 key = Done (true, ok, v0)).
Proof.
  intros Hw Hk Hv Hf Hm Hfuel.
  pose proof (well_sized_pow2 _ Hw) as Hp.
  destruct Hw as (n & Hn & Hg & Ho).
  pose proof Hk as Hk'. pose proof Hv as Hv'. apply Z.eqb_neq in Hk', Hv'.
  split.
  - intros Hc. unfold mono_conc_g_hash_table_insert. rewrite Hk', Hv'.
    replace (element_count h >=? overflow_count h) with false
      by (symmetry; rewrite Z.geb_leb; apply Z.leb_gt; exact Hc).
    rewrite insert_probe_as_probe. apply (insert_found _ _ _ _ _ m ok); assumption.
  - intros Hc Hsmall Hsingle Hhash.
    pose proof Hg as (Hs & _).
    assert (Hn' : n < 30).
    { destruct (Z.lt_ge_cases n 30) as [? | Hge]; [assumption |].
      assert (2 ^ 30 <= 2 ^ n) by (apply Z.pow_le_mono_r; lia). lia. }
    assert (Hfuel1 : (Z.to_nat (2 ^ (n + 1)) <= fuel)%nat).
    { rewrite Hs in Hfuel. rewrite Z.pow_add_r by lia.
      replace (2 ^ n * 2 ^ 1) with (2 * 2 ^ n) by lia. exact Hfuel. }
    destruct (expand_table_completes fuel dom h n ltac:(lia) Hg Hfuel1) as (h1 & E & _).
    destruct (expand_table_shape _ _ _ _ _ Hn Hg E) as (_ & Hg1 & _ & Hcount & Hcfg & _).
    pose proof (generation_pow2 _ (n + 1) ltac:(lia) Hg1) as Hp1.
    destruct (found_at_slot _ _ _ _ _ _ _ Hp Hf) as (s & Hsr & Hks & Hvs).
    pose proof Hf as (_ & _ & Hv0 & Hlive & Hmatch & _).
    assert (Hf1 : exists m1, Z.of_nat m1 < table_size (table h1) /\
                             found_at dom h1 (table h1) key m1 ok v0).
    { pose proof (expand_table_found fuel dom h h1 n key s Hn Hg E Hsr) as Hx.
      cbv zeta in Hx. rewrite Hks, Hvs in Hx. apply Hx; assumption. }
    destruct Hf1 as (m1 & Hm1 & Hf1).
    pose proof Hg1 as (Hs1 & _). rewrite Hs1 in Hm1.
    exists h1. split; [exact E |]. split; [| split; [exact Hcount | split]].
    + unfold mono_conc_g_hash_table_insert. rewrite Hk', Hv'.
      replace (element_count h >=? overflow_count h) with true
        by (symmetry; rewrite Z.geb_leb; apply Z.leb_le; lia).
      rewrite E, insert_probe_as_probe.
      destruct Hcfg as (Hhf & _). rewrite <- Hhf.
      apply (insert_found _ _ _ _ _ m1 ok); try assumption. lia.
    + rewrite Hs1, Hs. rewrite Z.pow_add_r by lia. lia.
    + apply (lookup_found _ _ _ _ m1); try assumption. lia.
Qed.

(** ** Insert of a key that sits behind a tombstone *)

(** The slip behind the second run of C4: on a table without an equality
    function in the conservative mode the keys [24] and [160] share the
    home slot 14.  After [insert (24, 1)], [insert (160, 2)] and
    [remove (24)] the key [160] is present with value [2] in slot 15,
    behind the tombstone of slot 14.  [insert (160, 3)] stops at the
    tombstone: it returns [NULL], not [2], stores a second entry for [160]
    in slot 14 and counts one more element; lookup now answers [3]. *)
Lemma insert_of_present_key_behind_tombstone :
  let h := handle_with None 0
             (first_generation [(14, PTR_TOMBSTONE, NULL); (15, 160, 2)]) 1 24 in
  let h' := handle_with None 0
              (first_generation [(14, 160, 3); (15, 160, 2)]) 2 24 in
  table_after a_domain None MONO_HASH_CONSERVATIVE_GC
    [Insert 24 1; Insert 160 2; Remove 24] = Some h /\
  reachable a_domain h /\
  mono_conc_g_hash_table_lookup_extended 2 a_domain h 160 = Done (true, 160, 2) /\
  mono_conc_g_hash_table_insert 1 a_domain h 160 3 = Done (h', NULL) /\
  table h' <> table h /\
  element_count h' = element_count h + 1 /\
  mono_conc_g_hash_table_lookup_extended 1 a_domain h' 160 = Done (true, 160, 3).
Proof.
  cbv zeta.
  assert (Hrun : table_after a_domain None MONO_HASH_CONSERVATIVE_GC
                   [Insert 24 1; Insert 160 2; Remove 24]
                 = Some (handle_with None 0
                           (first_generation [(14, PTR_TOMBSTONE, NULL); (15, 160, 2)])
                           1 24)) by reflexivity.
  split; [exact Hrun | split; [exact (table_after_reachable _ _ _ _ _ Hrun) |]].
  repeat apply conj; try reflexivity.
  intros E. apply (f_equal (fun t => array_get (keys t) 14)) in E. discriminate E.
Qed.

(** ** Insert at the threshold *)

(** C5 as stated fails by design at the threshold: after the inserts of
    [8, 16, ..., 192] the element count equals the threshold of the first
    generation, lookup finds [8] with the value [1], and [insert (8, 99)]
    returns, so it has first moved the table to a generation of 64 slots:
    the handle is not left as it was. *)
Lemma insert_if_absent_fails_at_the_threshold : ~ insert_if_absent_claim a_domain.
Proof.
  intros Hclaim.
  eassert (H : option_map snapshot
                 (table_after a_domain None MONO_HASH_CONSERVATIVE_GC (fill 1 24))
               = Some (_, _, _)) by (vm_compute; reflexivity).
  apply table_after_snapshot in H.
  pose proof (reachable_well_sized _ _ (table_after_reachable _ _ _ _ _ H)) as Hw.
  pose proof (table_after_reachable _ _ _ _ _ H) as Hr.
  match type of H with _ = Some ?h0 => set (h := h0) in * end.
  assert (Hc : (element_count h >=? overflow_count h) = true) by (vm_compute; reflexivity).
  destruct (insert_with_resize_completes 64 a_domain h 8 99 Hw) as (h' & r & E);
    [vm_compute; reflexivity | vm_compute; discriminate | discriminate | discriminate
    | vm_compute; lia |].
  assert (L : mono_conc_g_hash_table_lookup_extended 64 a_domain h 8 = Done (true, 8, 1))
    by (vm_compute; reflexivity).
  destruct (Hclaim _ _ _ _ _ _ _ _ Hr L E) as [_ ->].
  pose proof (insert_capacity _ _ _ _ _ _ _ Hw E) as Hcap. rewrite Hc in Hcap.
  destruct Hcap as [Hcap _]. vm_compute in Hcap. discriminate Hcap.
Qed.

(** ** What lookup reports *)

Lemma lookup_result_shape fuel dom h key :
  match mono_conc_g_hash_table_lookup_extended fuel dom h key with
  | Done (true, ok, v) =>
      ok <> NULL /\ v <> NULL /\ lookup_matches dom h key ok = true /\
      In ok (keys (table h)) /\ In v (values (table h)) /\
      mono_conc_g_hash_table_lookup fuel dom h key = Done v
  | Done (false, ok, v) =>
      ok = NULL /\ v = NULL /\ mono_conc_g_hash_table_lookup fuel dom h key = Done NULL
  | Fatal _ => False
  | Spinning => mono_conc_g_hash_table_lookup fuel dom h key = Spinning
  end.
Proof.
  unfold mono_conc_g_hash_table_lookup.
  rewrite lookup_as_probe.
  set (hash := mix_hash _). set (mask := table_size (table h) - 1).
  generalize (Z.land hash mask) as i.
  induction fuel as [| fuel IH]; intros i; cbn; [reflexivity |].
  destruct (array_get (keys (table h)) i =? NULL) eqn:En; [auto |].
  destruct (lookup_matches dom h key (array_get (keys (table h)) i)) eqn:Em; [| apply IH].
  destruct (array_get (values (table h)) i =? NULL) eqn:Ev; [apply IH |].
  apply Z.eqb_neq in En, Ev.
  split; [exact En |]. split; [exact Ev |]. split; [exact Em |].
  split; [| split; [| reflexivity]].
  - destruct (array_get_in (keys (table h)) i); [contradiction | assumption].
  - destruct (array_get_in (values (table h)) i); [contradiction | assumption].
Qed.

(** X1: when [mono_conc_g_hash_table_lookup_extended] reports a hit, the
    key and the value it hands back are cells of the current generation,
    neither is null, and the key is one the probe takes for the key looked
    up; when it reports a miss it hands back two null pointers.
    [mono_conc_g_hash_table_lookup] returns the value of a hit and [NULL]
    on a miss, so [NULL] from it always means that the key was not found.
    Neither function aborts. *)
Theorem lookup_reports_a_pair_or_nothing (fuel : nat) (dom : MonoDomain)
    (h : MonoConcGHashTable) (key : gpointer) :
  (forall ok v,
     mono_conc_g_hash_table_lookup_extended fuel dom h key = Done (true, ok, v) ->
     ok <> NULL /\ v <> NULL /\ lookup_matches dom h key ok = true /\
     In ok (keys (table h)) /\ In v (values (table h)) /\
     mono_conc_g_hash_table_lookup fuel dom h key = Done v) /\
  (forall ok v,
     mono_conc_g_hash_table_lookup_extended fuel dom h key = Done (false, ok, v) ->
     ok = NULL /\ v = NULL /\
     mono_conc_g_hash_table_lookup fuel dom h key = Done NULL) /\
  (mono_conc_g_hash_table_lookup fuel dom h key = Done NULL <->
   mono_conc_g_hash_table_lookup_extended fuel dom h key = Done (false, NULL, NULL)) /\
  (forall why,
     mono_conc_g_hash_table_lookup_extended fuel dom h key <> Fatal why /\
     mono_conc_g_hash_table_lookup fuel dom h key <> Fatal why).
Proof.
  pose proof (lookup_result_shape fuel dom h key) as H.
  destruct (mono_conc_g_hash_table_lookup_extended fuel dom h key)
    as [[[[|] ok0] v0] | why0 |] eqn:E.
  - destruct H as (Hok & Hv & Hm & Hink & Hinv & Hl).
    split; [intros ok v [= <- <-]; auto 10 |].
    split; [intros ok v [=] |].
    split; [rewrite Hl; split; [intros [= E0]; contradiction | intros [=]] |].
    intros why. rewrite Hl. split; discriminate.
  - destruct H as (-> & -> & Hl).
    split; [intros ok v [=] |].
    split; [intros ok v [= <- <-]; auto |].
    split; [rewrite Hl; split; reflexivity |].
    intros why. rewrite Hl. split; discriminate.
  - destruct H.
  - split; [intros ok v [=] |].
    split; [intros ok v [=] |].
    split; [rewrite H; split; intros [=] |].
    intros why. rewrite H. split; discriminate.
Qed.

(** ** Lookup and remove walk the same way *)

Lemma remove_identity_probe fuel dom h t key mask : forall i,
  remove_identity fuel dom h t key mask i
  = remove_probe (Z.eqb key) true fuel dom h t mask i.
Proof.
  induction fuel as [| fuel IH]; intros i; [reflexivity |].
  cbn. rewrite IH. reflexivity.
Qed.

Lemma remove_equal_probe fuel dom h equal t key mask : forall i,
  remove_equal fuel dom h equal t key mask i
  = remove_probe (fun c => negb (key_is_tombstone dom h c) && equal key c) false
      fuel dom h t mask i.
Proof.
  induction fuel as [| fuel IH]; intros i; [reflexivity |].
  cbn. rewrite IH. reflexivity.
Qed.

Lemma remove_as_probe fuel dom h key :
  key <> NULL ->
  mono_conc_g_hash_table_remove fuel dom h key
  = remove_probe (lookup_matches dom h key)
      (match equal_func h with None => true | Some _ => false end)
      fuel dom h (table h) (table_size (table h) - 1)
      (Z.land (mix_hash (int_wrap (hash_func h key))) (table_size (table h) - 1)).
Proof.
  intros Hk. unfold mono_conc_g_hash_table_remove, lookup_matches.
  apply Z.eqb_neq in Hk. rewrite Hk.
  destruct (equal_func h).
  - apply remove_equal_probe.
  - apply remove_identity_probe.
Qed.

Section Reaches.

Variable dom : MonoDomain.
Variable h : MonoConcGHashTable.
Hypothesis Hp : is_pow2 (table_size (table h)).
Variable key : gpointer.

Let C := table_size (table h).
Let slot := probe_slot C (hash_func h) key.
Let hash := mix_hash (int_wrap (hash_func h key)).
Let passed (d : nat) : Prop :=
  array_get (keys (table h)) (slot d) <> NULL /\
  lookup_matches dom h key (array_get (keys (table h)) (slot d)) = false.

(** A probe of lookup that returns has met no matching slot with a null
    value: such a slot sends it back to the home slot for good. *)
Lemma lookup_probe_reaches : forall fuel n found ok v,
  (forall d, (d < n)%nat -> passed d) ->
  lookup_probe (lookup_matches dom h key) fuel (table h) hash (C - 1) (slot n)
  = Done (found, ok, v) ->
  exists m, (n <= m)%nat /\ (m - n < fuel)%nat /\
    probe_reaches dom h key m (if found then ok else NULL) /\
    if found
    then ok <> NULL /\ lookup_matches dom h key ok = true /\
         array_get (values (table h)) (slot m) = v /\ v <> NULL
    else ok = NULL /\ v = NULL.
Proof.
  induction fuel as [| fuel IH]; intros n found ok v Hpre H; cbn in H; [discriminate |].
  destruct (array_get (keys (table h)) (slot n) =? NULL) eqn:En.
  - injection H as <- <- <-. apply Z.eqb_eq in En.
    exists n. split; [lia |]. split; [lia |]. split; [| auto].
    split; [exact En | exact Hpre].
  - apply Z.eqb_neq in En.
    destruct (lookup_matches dom h key (array_get (keys (table h)) (slot n))) eqn:Em.
    + destruct (array_get (values (table h)) (slot n) =? NULL) eqn:Ev.
      * exfalso. apply Z.eqb_eq in Ev.
        replace (Z.land hash (C - 1)) with (slot O) in H
          by (symmetry; apply home_slot_land, Hp).
        destruct (IH O found ok v ltac:(intros d Hd; lia) H)
          as (m & _ & _ & (Hc & Hbefore) & Hres).
        fold C slot in Hc, Hbefore.
        destruct (Nat.lt_trichotomy m n) as [Hlt | [-> | Hgt]].
        -- destruct (Hpre m Hlt) as [Hnn Hnm].
           destruct found.
           ++ destruct Hres as (_ & Hmatch & _). rewrite Hc in Hnm. congruence.
           ++ congruence.
        -- destruct found.
           ++ destruct Hres as (_ & _ & Hv & Hvn). congruence.
           ++ congruence.
        -- destruct (Hbefore n Hgt) as [_ Hnm]. congruence.
      * injection H as <- <- <-. apply Z.eqb_neq in Ev.
        exists n. split; [lia |]. split; [lia |]. split; [| auto].
        split; [reflexivity | exact Hpre].
    + subst slot C. rewrite probe_slot_next in H by exact Hp.
      destruct (IH (S n) found ok v) as (m & Hm & Hf & Hrest); [| exact H |].
      * intros d Hd. destruct (Nat.eq_dec d n) as [-> | Hne].
        -- split; assumption.
        -- apply Hpre. lia.
      * exists m. split; [lia |]. split; [lia |]. exact Hrest.
Qed.

Lemma reaches_lookup_probe : forall fuel m d (found : bool) ok,
  probe_reaches dom h key m (if found then ok else NULL) ->
  (if found
   then ok <> NULL /\ lookup_matches dom h key ok = true /\
        array_get (values (table h)) (slot m) <> NULL
   else True) ->
  (d <= m)%nat -> (m - d < fuel)%nat ->
  lookup_probe (lookup_matches dom h key) fuel (table h) hash (C - 1) (slot d)
  = Done (if found then (true, ok, array_get (values (table h)) (slot m))
          else (false, NULL, NULL)).
Proof.
  induction fuel as [| fuel IH]; intros m d found ok Hr Hres Hd Hfuel; [lia |].
  pose proof Hr as (Hc & Hbefore). fold C slot in Hc, Hbefore.
  cbn. destruct (Nat.eq_dec d m) as [-> | Hne].
  - rewrite Hc. destruct found.
    + destruct Hres as (Hnn & Hm & Hv).
      apply Z.eqb_neq in Hnn, Hv. rewrite Hnn, Hm, Hv. reflexivity.
    + reflexivity.
  - destruct (Hbefore d ltac:(lia)) as [Hnn Hnm].
    apply Z.eqb_neq in Hnn. rewrite Hnn, Hnm.
    subst slot C. rewrite probe_slot_next by exact Hp.
    apply (IH m (S d) found ok Hr Hres); lia.
Qed.

Lemma reaches_remove_probe counted : forall fuel m d c,
  probe_reaches dom h key m c ->
  (c = NULL \/ lookup_matches dom h key c = true) ->
  (d <= m)%nat -> (m - d < fuel)%nat ->
  remove_probe (lookup_matches dom h key) counted fuel dom h (table h) (C - 1) (slot d)
  = Done (if c =? NULL then (h, NULL, [])
          else
            let value := array_get (values (table h)) (slot m) in
            let t := set_key_to_tombstone dom (set_value (table h) (slot m) NULL) (slot m) in
            (if counted
             then with_element_count (with_table h t) (int_wrap (element_count h - 1))
             else with_table h t,
             value, destroy_calls h c value)).
Proof.
  induction fuel as [| fuel IH]; intros m d c Hr Hc Hd Hfuel; [lia |].
  pose proof Hr as (Hcell & Hbefore). fold C slot in Hcell, Hbefore.
  cbn. destruct (Nat.eq_dec d m) as [-> | Hne].
  - rewrite Hcell. destruct (c =? NULL) eqn:E; [reflexivity |].
    destruct Hc as [-> | Hm]; [discriminate E |]. rewrite Hm. reflexivity.
  - destruct (Hbefore d ltac:(lia)) as [Hnn Hnm].
    apply Z.eqb_neq in Hnn. rewrite Hnn, Hnm.
    subst slot C. rewrite probe_slot_next by exact Hp.
    apply (IH m (S d) c Hr Hc); lia.
Qed.

End Reaches.

(** What a lookup that returns has seen on the probe sequence of the key. *)
Lemma lookup_reaches fuel dom h key found ok v :
  is_pow2 (table_size (table h)) ->
  mono_conc_g_hash_table_lookup_extended fuel dom h key = Done (found, ok, v) ->
  exists m, (m < fuel)%nat /\
    probe_reaches dom h key m (if found then ok else NULL) /\
    if found
    then ok <> NULL /\ lookup_matches dom h key ok = true /\
         array_get (values (table h))
           (probe_slot (table_size (table h)) (hash_func h) key m) = v /\ v <> NULL
    else ok = NULL /\ v = NULL.
Proof.
  intros Hp H. rewrite lookup_as_probe, home_slot_land in H by exact Hp.
  destruct (lookup_probe_reaches dom h Hp key fuel O found ok v
              ltac:(intros d Hd; lia) H) as (m & _ & Hm & Hrest).
  exists m. split; [lia | exact Hrest].
Qed.

Lemma reaches_lookup fuel dom h key m (found : bool) ok :
  is_pow2 (table_size (table h)) ->
  probe_reaches dom h key m (if found then ok else NULL) ->
  (if found
   then ok <> NULL /\ lookup_matches dom h key ok = true /\
        array_get (values (table h))
          (probe_slot (table_size (table h)) (hash_func h) key m) <> NULL
   else True) ->
  (m < fuel)%nat ->
  mono_conc_g_hash_table_lookup_extended fuel dom h key
  = Done (if found
          then (true, ok, array_get (values (table h))
                            (probe_slot (table_size (table h)) (hash_func h) key m))
          else (false, NULL, NULL)).
Proof.
  intros Hp Hr Hres Hm. rewrite lookup_as_probe, home_slot_land by exact Hp.
  apply (reaches_lookup_probe dom h Hp key fuel m O found ok Hr Hres); lia.
Qed.

(** ** What a completed insert did *)

Lemma is_live_config dom h h' c :
  gc_type h' = gc_type h -> is_live dom h' c = is_live dom h c.
Proof. intros Hg. unfold is_live, key_is_tombstone. rewrite Hg. reflexivity. Qed.

Lemma is_live_not_null dom h c : is_live dom h c = true -> c <> NULL.
Proof.
  unfold is_live. intros H. apply andb_true_iff in H. destruct H as [H _].
  apply negb_true_iff, Z.eqb_neq in H. exact H.
Qed.

Lemma insert_same_live dom h key c :
  is_live dom h c = true -> insert_same h key c = lookup_matches dom h key c.
Proof.
  intros Hl. apply andb_true_iff in Hl. destruct Hl as [_ Ht].
  apply negb_true_iff in Ht. unfold insert_same, lookup_matches.
  destruct (equal_func h); [rewrite Ht |]; reflexivity.
Qed.

Section InsertWalk.

Variable dom : MonoDomain.
Variable h : MonoConcGHashTable.
Hypothesis Hp : is_pow2 (table_size (table h)).
Variables key value : gpointer.

Let C := table_size (table h).
Let slot := probe_slot C (hash_func h) key.
Let cell (d : nat) : gpointer := array_get (keys (table h)) (slot d).

(** The probe of insert passes live slots that hold another key, up to the
    first slot that is empty, tombstoned, or holds the key. *)
Lemma insert_probe_walk : forall fuel n0 h' r,
  insert_probe (insert_same h key) fuel dom h (table h) key value (C - 1) (slot n0)
  = Done (h', r) ->
  exists n, (n0 <= n)%nat /\ (n - n0 < fuel)%nat /\
    (forall d, (n0 <= d < n)%nat ->
       is_live dom h (cell d) = true /\ insert_same h key (cell d) = false) /\
    ((is_live dom h (cell n) = false /\
      h' = insert_here h (table h) (slot n) key value /\ r = NULL) \/
     (is_live dom h (cell n) = true /\ insert_same h key (cell n) = true /\
      h' = h /\ r = array_get (values (table h)) (slot n))).
Proof.
  induction fuel as [| fuel IH]; intros n0 h' r H; cbn in H; [discriminate |].
  fold (cell n0) in H.
  destruct ((cell n0 =? NULL) || key_is_tombstone dom h (cell n0)) eqn:Efree.
  - injection H as <- <-. exists n0. split; [lia |]. split; [lia |].
    split; [intros d Hd; lia |]. left.
    split; [| auto]. unfold is_live. rewrite <- negb_orb, Efree. reflexivity.
  - assert (Hl : is_live dom h (cell n0) = true)
      by (unfold is_live; rewrite <- negb_orb, Efree; reflexivity).
    destruct (insert_same h key (cell n0)) eqn:Esame.
    + injection H as <- <-. exists n0. split; [lia |]. split; [lia |].
      split; [intros d Hd; lia |]. right. auto.
    + subst slot C. rewrite probe_slot_next in H by exact Hp.
      destruct (IH (S n0) h' r H) as (n & Hn & Hf & Hbefore & Hres).
      exists n. split; [lia |]. split; [lia |]. split; [| exact Hres].
      intros d Hd. destruct (Nat.eq_dec d n0) as [-> | Hne]; [auto |].
      apply Hbefore. lia.
Qed.

End InsertWalk.

(** A completed insert, taken apart: the resize it started with, if any,
    and what its probe did on the generation [h1] it then worked on. *)
Lemma insert_walk fuel dom h key value h' r :
  well_sized h ->
  mono_conc_g_hash_table_insert fuel dom h key value = Done (h', r) ->
  key <> NULL /\ value <> NULL /\
  exists h1 n,
    (if element_count h >=? overflow_count h
     then expand_table fuel dom h = Done h1 else h1 = h) /\
    well_sized h1 /\ same_config h h1 /\ element_count h1 = element_count h /\
    (n < fuel)%nat /\
    let slot := probe_slot (table_size (table h1)) (hash_func h1) key in
    let cell := fun d => array_get (keys (table h1)) (slot d) in
    (forall d, (d < n)%nat ->
       is_live dom h1 (cell d) = true /\ insert_same h1 key (cell d) = false) /\
    ((is_live dom h1 (cell n) = false /\
      h' = insert_here h1 (table h1) (slot n) key value /\ r = NULL) \/
     (is_live dom h1 (cell n) = true /\ insert_same h1 key (cell n) = true /\
      h' = h1 /\ r = array_get (values (table h1)) (slot n))).
Proof.
  intros Hw H. unfold mono_conc_g_hash_table_insert in H.
  destruct (key =? NULL) eqn:Ek; [discriminate |].
  destruct (value =? NULL) eqn:Ev; [discriminate |].
  apply Z.eqb_neq in Ek, Ev. split; [exact Ek |]. split; [exact Ev |].
  assert (Hgo : forall h1, well_sized h1 -> same_config h h1 ->
            element_count h1 = element_count h ->
            match equal_func h1 with
            | None => insert_identity fuel dom h1 (table h1) key value
                        (table_size (table h1) - 1)
                        (Z.land (mix_hash (int_wrap (hash_func h key)))
                           (table_size (table h1) - 1))
            | Some equal => insert_equal fuel dom h1 equal (table h1) key value
                        (table_size (table h1) - 1)
                        (Z.land (mix_hash (int_wrap (hash_func h key)))
                           (table_size (table h1) - 1))
            end = Done (h', r) ->
            exists n, (n < fuel)%nat /\
              let slot := probe_slot (table_size (table h1)) (hash_func h1) key in
              let cell := fun d => array_get (keys (table h1)) (slot d) in
              (forall d, (d < n)%nat ->
                 is_live dom h1 (cell d) = true /\ insert_same h1 key (cell d) = false) /\
              ((is_live dom h1 (cell n) = false /\
                h' = insert_here h1 (table h1) (slot n) key value /\ r = NULL) \/
               (is_live dom h1 (cell n) = true /\ insert_same h1 key (cell n) = true /\
                h' = h1 /\ r = array_get (values (table h1)) (slot n)))).
  { intros h1 Hw1 Hc Hcount Hins.
    pose proof (well_sized_pow2 _ Hw1) as Hp1.
    rewrite insert_probe_as_probe in Hins.
    destruct Hc as (Hhf & _). rewrite <- Hhf in Hins.
    rewrite home_slot_land in Hins by exact Hp1.
    destruct (insert_probe_walk dom h1 Hp1 key value fuel O h' r Hins)
      as (n & _ & Hn & Hbefore & Hres).
    exists n. split; [lia |]. cbv zeta. split; [| exact Hres].
    intros d Hd. apply Hbefore. lia. }
  destruct (element_count h >=? overflow_count h) eqn:Ec.
  - destruct (expand_table fuel dom h) as [h1 | |] eqn:E; try discriminate.
    pose proof Hw as (n & Hn & Hg & Ho).
    destruct (expand_table_shape _ _ _ _ _ Hn Hg E) as (Hn1 & Hg1 & Ho1 & Hcount & Hc & _).
    assert (Hw1 : well_sized h1) by (exists (n + 1); repeat split; try apply Hg1; try lia; exact Ho1).
    destruct (Hgo h1 Hw1 Hc Hcount H) as (m & Hm).
    exists h1, m. split; [reflexivity |]. split; [exact Hw1 |].
    split; [exact Hc |]. split; [exact Hcount |]. exact Hm.
  - destruct (Hgo h Hw (same_config_refl h) eq_refl H) as (m & Hm).
    exists h, m. split; [reflexivity |]. split; [exact Hw |].
    split; [apply same_config_refl |]. split; [reflexivity |]. exact Hm.
Qed.

(** ** The cells a store leaves alone *)

Lemma tombstone_written dom t j :
  set_key_to_tombstone dom t j = set_key t j (tombstone_of dom t).
Proof. unfold set_key_to_tombstone, tombstone_of. destruct (has_flag _ _); reflexivity. Qed.

Lemma tombstone_recognised dom h :
  modes_agree h -> key_is_tombstone dom h (tombstone_of dom (table h)) = true.
Proof.
  unfold modes_agree, key_is_tombstone, tombstone_of. intros ->.
  destruct (has_flag _ _); apply Z.eqb_refl.
Qed.

Lemma tombstone_only dom h c :
  modes_agree h -> key_is_tombstone dom h c = true -> c = tombstone_of dom (table h).
Proof.
  unfold modes_agree, key_is_tombstone, tombstone_of. intros ->.
  destruct (has_flag _ _); intros H; apply Z.eqb_eq, H.
Qed.

Lemma tombstone_not_null dom t :
  ephemeron_tombstone dom <> NULL -> tombstone_of dom t <> NULL.
Proof. intros H. unfold tombstone_of. destruct (has_flag _ _); [exact H | discriminate]. Qed.

Lemma tombstone_of_modes dom h h' :
  modes_agree h -> modes_agree h' -> gc_type h' = gc_type h ->
  tombstone_of dom (table h') = tombstone_of dom (table h).
Proof.
  unfold modes_agree, tombstone_of. intros -> -> ->. reflexivity.
Qed.

Lemma well_sized_lengths h :
  well_sized h ->
  Z.of_nat (length (keys (table h))) = table_size (table h) /\
  Z.of_nat (length (values (table h))) = table_size (table h).
Proof.
  intros (n & Hn & (Hs & Hk & Hv) & _). rewrite Hs, Hk, Hv.
  rewrite Z2Nat.id by (apply Z.pow_nonneg; lia). auto.
Qed.

Lemma removed_cells dom t j :
  keys (set_key_to_tombstone dom (set_value t j NULL) j)
    = array_set (keys t) j (tombstone_of dom t) /\
  values (set_key_to_tombstone dom (set_value t j NULL) j) = array_set (values t) j NULL /\
  table_size (set_key_to_tombstone dom (set_value t j NULL) j) = table_size t /\
  ct_gc_type (set_key_to_tombstone dom (set_value t j NULL) j) = ct_gc_type t.
Proof. rewrite tombstone_written. repeat split. Qed.

Lemma inserted_cells h t j key value :
  keys (table (insert_here h t j key value)) = array_set (keys t) j key /\
  values (table (insert_here h t j key value)) = array_set (values t) j value /\
  table_size (table (insert_here h t j key value)) = table_size t /\
  ct_gc_type (table (insert_here h t j key value)) = ct_gc_type t /\
  same_config h (insert_here h t j key value) /\
  overflow_count (insert_here h t j key value) = overflow_count h /\
  element_count (insert_here h t j key value) = int_wrap (element_count h + 1).
Proof. repeat split. Qed.

Lemma slot_ok_live_value dom h j :
  slot_ok dom h -> 0 <= j < table_size (table h) ->
  (is_live dom h (array_get (keys (table h)) j) = true <->
   array_get (values (table h)) j <> NULL).
Proof.
  intros Hok Hj. specialize (Hok j Hj). apply eqb_prop in Hok.
  unfold is_live. rewrite <- negb_orb, <- Hok. split.
  - intros H. apply negb_true_iff, Z.eqb_neq in H. exact H.
  - intros H. apply negb_true_iff, Z.eqb_neq, H.
Qed.

Lemma set_nth_twice a : forall n x y, set_nth (set_nth a n x) n y = set_nth a n y.
Proof.
  induction a as [| c a IH]; intros [| n] x y; cbn; try reflexivity.
  rewrite IH. reflexivity.
Qed.

Lemma array_set_twice a i x y : array_set (array_set a i x) i y = array_set a i y.
Proof. apply set_nth_twice. Qed.

Lemma occupied_set_nth_occupied a : forall n x,
  nth n a NULL <> NULL -> (occupied (set_nth a n x) <= occupied a)%nat.
Proof.
  unfold occupied.
  induction a as [| y a IH]; intros [| n] x Hn; cbn in *; try lia.
  - apply Z.eqb_neq in Hn. rewrite Hn. cbn. destruct (negb (x =? NULL)); cbn; lia.
  - specialize (IH n x Hn). destruct (negb (y =? NULL)); cbn; lia.
Qed.

Lemma destroy_calls_config h h' k v :
  same_config h h' -> destroy_calls h' k v = destroy_calls h k v.
Proof. intros (_ & _ & _ & Hk & Hv). unfold destroy_calls. rewrite Hk, Hv. reflexivity. Qed.

Lemma absent_config dom h h' key a :
  same_config h h' -> absent dom h key a -> absent dom h' key a.
Proof.
  intros Hc Ha c Hin Hnn. rewrite (lookup_matches_config _ _ _ _ _ Hc). auto.
Qed.

Lemma in_array_set_index a j x c :
  In c (array_set a j x) ->
  c = x \/ exists i, 0 <= i < Z.of_nat (length a) /\ i <> j /\ array_get a i = c.
Proof.
  intros Hin. apply (In_nth _ _ NULL) in Hin. destruct Hin as (n & Hn & Hc).
  unfold array_set in Hn, Hc. rewrite set_nth_length in Hn.
  destruct (Nat.eq_dec (Z.to_nat j) n) as [E | Hne].
  - left. subst n. rewrite nth_set_nth_same in Hc by exact Hn. auto.
  - right. rewrite nth_set_nth_other in Hc by exact Hne.
    exists (Z.of_nat n). split; [lia |]. split; [lia |].
    unfold array_get. rewrite Nat2Z.id. exact Hc.
Qed.

(** ** What a completed remove did *)

Section RemoveWalk.

Variable dom : MonoDomain.
Variable h : MonoConcGHashTable.
Hypothesis Hp : is_pow2 (table_size (table h)).
Variable key : gpointer.
Variable counted : bool.

Let C := table_size (table h).
Let slot := probe_slot C (hash_func h) key.

Lemma remove_probe_reaches : forall fuel n h' r ev,
  (forall d, (d < n)%nat ->
     array_get (keys (table h)) (slot d) <> NULL /\
     lookup_matches dom h key (array_get (keys (table h)) (slot d)) = false) ->
  remove_probe (lookup_matches dom h key) counted fuel dom h (table h) (C - 1) (slot n)
  = Done (h', r, ev) ->
  exists m c, (n <= m)%nat /\ (m - n < fuel)%nat /\ probe_reaches dom h key m c /\
    (c = NULL \/ lookup_matches dom h key c = true).
Proof.
  induction fuel as [| fuel IH]; intros n h' r ev Hpre H; cbn in H; [discriminate |].
  destruct (array_get (keys (table h)) (slot n) =? NULL) eqn:En.
  - apply Z.eqb_eq in En. exists n, NULL. split; [lia |]. split; [lia |].
    split; [split; [exact En | exact Hpre] | auto].
  - apply Z.eqb_neq in En.
    destruct (lookup_matches dom h key (array_get (keys (table h)) (slot n))) eqn:Em.
    + exists n, (array_get (keys (table h)) (slot n)). split; [lia |]. split; [lia |].
      split; [split; [reflexivity | exact Hpre] | auto].
    + subst slot C. rewrite probe_slot_next in H by exact Hp.
      destruct (IH (S n) h' r ev) as (m & c & Hm & Hf & Hrest); [| exact H |].
      * intros d Hd. destruct (Nat.eq_dec d n) as [-> | Hne]; [auto |].
        apply Hpre. lia.
      * exists m, c. split; [lia |]. split; [lia |]. exact Hrest.
Qed.

End RemoveWalk.

(** A completed remove, taken apart: the probe reached an empty slot and
    nothing changed, or it reached a slot that holds a key it takes for
    [key], and overwrote that slot. *)
Lemma remove_walk fuel dom h key h' r ev :
  is_pow2 (table_size (table h)) ->
  mono_conc_g_hash_table_remove fuel dom h key = Done (h', r, ev) ->
  key <> NULL /\
  exists m c, (m < fuel)%nat /\ probe_reaches dom h key m c /\
    let j := probe_slot (table_size (table h)) (hash_func h) key m in
    ((c = NULL /\ h' = h /\ r = NULL /\ ev = []) \/
     (c <> NULL /\ lookup_matches dom h key c = true /\
      removed_at dom h h' j /\ r = array_get (values (table h)) j /\
      ev = destroy_calls h c r /\
      element_count h' = match equal_func h with
                         | None => int_wrap (element_count h - 1)
                         | Some _ => element_count h
                         end)).
Proof.
  intros Hp H.
  assert (Hk : key <> NULL).
  { intros ->. unfold mono_conc_g_hash_table_remove in H. cbn in H. discriminate. }
  split; [exact Hk |].
  pose proof H as H0.
  rewrite remove_as_probe, home_slot_land in H by assumption.
  destruct (remove_probe_reaches dom h Hp key _ fuel O h' r ev
              ltac:(intros d Hd; lia) H) as (m & c & _ & Hm & Hr & Hc).
  exists m, c. split; [lia |]. split; [exact Hr |].
  rewrite (reaches_remove_probe dom h Hp key _ fuel m O c Hr Hc) in H by lia.
  cbv zeta in H |- *.
  destruct (c =? NULL) eqn:E.
  - injection H as <- <- <-. apply Z.eqb_eq in E. left. auto.
  - apply Z.eqb_neq in E. right.
    destruct Hc as [-> | Hmatch]; [contradiction |].
    injection H as <- <- <-.
    split; [exact E |]. split; [exact Hmatch |].
    destruct (equal_func h) eqn:Ee.
    + repeat split; try reflexivity. 
    + repeat split; try reflexivity.
Qed.

(** ** Remove after lookup *)

Lemma remove_after_lookup fuel dom h key found ok v :
  is_pow2 (table_size (table h)) -> key <> NULL ->
  mono_conc_g_hash_table_lookup_extended fuel dom h key = Done (found, ok, v) ->
  exists h',
    mono_conc_g_hash_table_remove fuel dom h key
    = Done (h', v, if found then destroy_calls h ok v else []) /\
    if found
    then (exists j, 0 <= j < table_size (table h) /\
            array_get (keys (table h)) j = ok /\ array_get (values (table h)) j = v /\
            removed_at dom h h' j) /\
         element_count h' = match equal_func h with
                            | None => int_wrap (element_count h - 1)
                            | Some _ => element_count h
                            end
    else h' = h.
Proof.
  intros Hp Hk H.
  destruct (lookup_reaches _ _ _ _ _ _ _ Hp H) as (m & Hm & Hr & Hres).
  rewrite remove_as_probe, home_slot_land by assumption.
  destruct found.
  - destruct Hres as (Hok & Hmatch & Hv & Hvn). pose proof Hr as (Hcell & _).
    rewrite (reaches_remove_probe dom h Hp key _ fuel m O ok Hr (or_intror Hmatch))
      by lia.
    apply Z.eqb_neq in Hok. rewrite Hok. cbv zeta. rewrite Hv.
    eexists. split; [reflexivity |]. split.
    + exists (probe_slot (table_size (table h)) (hash_func h) key m).
      split; [apply probe_slot_range, Hp |].
      split; [exact Hcell |]. split; [exact Hv |].
      destruct (equal_func h); repeat split.
    + destruct (equal_func h); reflexivity.
  - destruct Hres as (-> & ->).
    rewrite (reaches_remove_probe dom h Hp key _ fuel m O NULL Hr (or_introl eq_refl))
      by lia.
    cbn. eauto.
Qed.

(** X2: remove agrees with lookup, on every handle whose capacity is a
    power of two.  If lookup reports the pair [(ok, v)] for a non-null
    key, a remove of the key with the same number of steps returns [v],
    invokes the callbacks that are set on [ok] and [v], and overwrites
    the slot of that pair with a tombstone and a null value; the element
    count goes down by one in a table without an equality function and
    stays as it is in a table with one.  If lookup reports a miss, remove
    returns [NULL] and leaves the handle as it is. *)
Theorem remove_returns_what_lookup_finds (fuel : nat) (dom : MonoDomain)
    (h : MonoConcGHashTable) (key : gpointer) (found : bool) (ok v : gpointer) :
  is_pow2 (table_size (table h)) -> key <> NULL ->
  mono_conc_g_hash_table_lookup_extended fuel dom h key = Done (found, ok, v) ->
  exists h',
    mono_conc_g_hash_table_remove fuel dom h key
    = Done (h', v, if found then destroy_calls h ok v else []) /\
    if found
    then (exists j, 0 <= j < table_size (table h) /\
            array_get (keys (table h)) j = ok /\ array_get (values (table h)) j = v /\
            removed_at dom h h' j) /\
         element_count h' = match equal_func h with
                            | None => int_wrap (element_count h - 1)
                            | Some _ => element_count h
                            end
    else h' = h.
Proof. apply remove_after_lookup. Qed.

(** ** A key that is absent *)

Lemma least_below (P : nat -> Prop) (dec : forall n, {P n} + {~ P n}) : forall d,
  P d -> exists m, (m <= d)%nat /\ P m /\ forall k, (k < m)%nat -> ~ P k.
Proof.
  induction d as [d IH] using lt_wf_ind. intros Hd.
  destruct (Nat.eq_dec d 0) as [-> | Hpos].
  - exists O. split; [lia |]. split; [exact Hd |]. intros k Hk. lia.
  - assert (Hex : (forall k, (k < d)%nat -> ~ P k) \/ exists k, (k < d)%nat /\ P k).
    { clear IH Hd Hpos. induction d as [| d IHd]; [left; intros k Hk; lia |].
      destruct IHd as [Hnone | (k & Hk & HPk)].
      - destruct (dec d) as [Hy | Hn].
        + right. exists d. split; [lia | exact Hy].
        + left. intros k Hk. destruct (Nat.eq_dec k d) as [-> | Hne]; [exact Hn |].
          apply Hnone. lia.
      - right. exists k. split; [lia | exact HPk]. }
    destruct Hex as [Hnone | (k & Hk & HPk)].
    + exists d. split; [lia |]. split; assumption.
    + destruct (IH k Hk HPk) as (m & Hm & HPm & Hleast).
      exists m. split; [lia |]. split; assumption.
Qed.

(** With an empty slot in the generation, every probe sequence meets its
    first empty slot within one round. *)
Lemma first_empty_slot h hf key :
  well_sized h ->
  (occupied (keys (table h)) < length (keys (table h)))%nat ->
  exists m, (m < Z.to_nat (table_size (table h)))%nat /\
    array_get (keys (table h)) (probe_slot (table_size (table h)) hf key m) = NULL /\
    forall d, (d < m)%nat ->
      array_get (keys (table h)) (probe_slot (table_size (table h)) hf key d) <> NULL.
Proof.
  intros Hw Hocc.
  pose proof (well_sized_pow2 _ Hw) as Hp.
  destruct (well_sized_lengths _ Hw) as [Hlen _].
  pose proof (pow2_pos _ Hp) as Hpos.
  assert (Hi : 0 <= home_slot (table_size (table h)) hf key < table_size (table h))
    by (apply Z.mod_pos_bound; exact Hpos).
  destruct (null_cell_ahead _ (table h) _ Hlen Hocc Hi) as (d & Hd & Hnull).
  destruct (least_below
              (fun d => array_get (keys (table h))
                          (probe_slot (table_size (table h)) hf key d) = NULL)
              ltac:(intros n; apply Z.eq_dec) d Hnull) as (m & Hm & Hnm & Hleast).
  exists m. split; [lia |]. split; [exact Hnm | exact Hleast].
Qed.

Lemma absent_reaches_empty dom h key :
  well_sized h -> absent dom h key (keys (table h)) ->
  (occupied (keys (table h)) < length (keys (table h)))%nat ->
  exists m, (m < Z.to_nat (table_size (table h)))%nat /\ probe_reaches dom h key m NULL.
Proof.
  intros Hw Habs Hocc.
  destruct (first_empty_slot h (hash_func h) key Hw Hocc) as (m & Hm & Hnull & Hbefore).
  exists m. split; [exact Hm |]. split; [exact Hnull |].
  intros d Hd. split; [apply Hbefore, Hd |].
  destruct (array_get_in (keys (table h))
              (probe_slot (table_size (table h)) (hash_func h) key d)) as [E | Hin].
  - exfalso. exact (Hbefore d Hd E).
  - apply Habs; [exact Hin | apply Hbefore, Hd].
Qed.

Lemma lookup_absent fuel dom h key :
  well_sized h -> absent dom h key (keys (table h)) ->
  (occupied (keys (table h)) < length (keys (table h)))%nat ->
  (Z.to_nat (table_size (table h)) <= fuel)%nat ->
  mono_conc_g_hash_table_lookup_extended fuel dom h key = Done (false, NULL, NULL).
Proof.
  intros Hw Habs Hocc Hfuel.
  destruct (absent_reaches_empty dom h key Hw Habs Hocc) as (m & Hm & Hr).
  apply (reaches_lookup fuel dom h key m false NULL (well_sized_pow2 _ Hw) Hr I). lia.
Qed.

(** X3: on a generation with an empty slot, a key that lookup takes no
    occupied cell for is reported missing within one round of the table:
    [mono_conc_g_hash_table_lookup_extended] reports a miss,
    [mono_conc_g_hash_table_lookup] returns [NULL], and
    [mono_conc_g_hash_table_remove] returns [NULL], invokes no callback and
    leaves the handle as it is. *)
Theorem absent_key_is_reported_missing (fuel : nat) (dom : MonoDomain)
    (h : MonoConcGHashTable) (key : gpointer) :
  well_sized h -> absent dom h key (keys (table h)) ->
  (occupied (keys (table h)) < length (keys (table h)))%nat ->
  (Z.to_nat (table_size (table h)) <= fuel)%nat ->
  mono_conc_g_hash_table_lookup_extended fuel dom h key = Done (false, NULL, NULL) /\
  mono_conc_g_hash_table_lookup fuel dom h key = Done NULL /\
  (key <> NULL -> mono_conc_g_hash_table_remove fuel dom h key = Done (h, NULL, [])).
Proof.
  intros Hw Habs Hocc Hfuel.
  pose proof (lookup_absent fuel dom h key Hw Habs Hocc Hfuel) as Hl.
  split; [exact Hl |].
  split; [unfold mono_conc_g_hash_table_lookup; rewrite Hl; reflexivity |].
  intros Hk.
  destruct (remove_after_lookup _ _ _ _ _ _ _ (well_sized_pow2 _ Hw) Hk Hl) as (h' & Hrem & ->).
  exact Hrem.
Qed.

(** ** Operations on one key and the entries of the others *)

(** A lookup that has found an entry finds it again after a store into one
    other slot, provided the key stored there is not null and is not taken
    for the key looked up. *)
Lemma lookup_hit_kept fuel dom h h' key ok v j :
  is_pow2 (table_size (table h)) ->
  same_config h h' -> table_size (table h') = table_size (table h) ->
  (forall s, 0 <= s < table_size (table h) -> s <> j ->
     array_get (keys (table h')) s = array_get (keys (table h)) s /\
     array_get (values (table h')) s = array_get (values (table h)) s) ->
  array_get (keys (table h)) j <> ok ->
  array_get (keys (table h')) j <> NULL ->
  lookup_matches dom h key (array_get (keys (table h')) j) = false ->
  mono_conc_g_hash_table_lookup_extended fuel dom h key = Done (true, ok, v) ->
  mono_conc_g_hash_table_lookup_extended fuel dom h' key = Done (true, ok, v).
Proof.
  intros Hp Hc Hsize Hother Hj Hnn Hnm H.
  destruct (lookup_reaches _ _ _ _ _ _ _ Hp H)
    as (m & Hm & (Hcell & Hbefore) & Hok & Hmatch & Hv & Hvn).
  pose proof Hc as (Hhf & _).
  assert (Hp' : is_pow2 (table_size (table h'))) by (rewrite Hsize; exact Hp).
  assert (Hm_j : probe_slot (table_size (table h)) (hash_func h) key m <> j)
    by (intros E; rewrite E in Hcell; contradiction).
  destruct (Hother _ (probe_slot_range _ (hash_func h) key m Hp) Hm_j) as [Hk' Hv'].
  rewrite <- Hv, <- Hv'.
  rewrite <- Hsize, <- Hhf.
  apply (reaches_lookup fuel dom h' key m true ok Hp').
  - unfold probe_reaches. rewrite Hsize, Hhf. split; [rewrite Hk'; exact Hcell |].
    intros d Hd. destruct (Hbefore d Hd) as [Hdn Hdm].
    rewrite !(lookup_matches_config _ _ _ _ _ Hc).
    destruct (Z.eq_dec (probe_slot (table_size (table h)) (hash_func h) key d) j) as [E | E].
    + rewrite E. auto.
    + destruct (Hother _ (probe_slot_range _ (hash_func h) key d Hp) E) as [-> _]. auto.
  - rewrite (lookup_matches_config _ _ _ _ _ Hc), Hsize, Hhf, Hv', Hv. auto.
  - exact Hm.
Qed.

(** The entry a lookup reports is live for the handle, unless the key
    looked up is itself the tombstone of a table without an equality
    function. *)
Lemma found_is_live dom h key ok :
  ok <> NULL -> lookup_matches dom h key ok = true ->
  (equal_func h = None -> key_is_tombstone dom h key = false) ->
  is_live dom h ok = true.
Proof.
  intros Hok Hm Ht. unfold is_live. apply Z.eqb_neq in Hok. rewrite Hok. cbn.
  unfold lookup_matches in Hm. destruct (equal_func h).
  - apply andb_true_iff in Hm. apply Hm.
  - apply Z.eqb_eq in Hm. subst ok. rewrite Ht; reflexivity.
Qed.

Lemma stored_keeps_lookup fuel dom h key value j key' ok' v' :
  well_sized h -> 0 <= j < table_size (table h) ->
  is_live dom h (array_get (keys (table h)) j) = false ->
  key <> NULL -> lookup_matches dom h key' key = false ->
  (equal_func h = None -> key_is_tombstone dom h key' = false) ->
  mono_conc_g_hash_table_lookup_extended fuel dom h key' = Done (true, ok', v') ->
  mono_conc_g_hash_table_lookup_extended fuel dom
    (insert_here h (table h) j key value) key' = Done (true, ok', v').
Proof.
  intros Hw Hj Hdead Hk Hnm Ht H.
  pose proof (well_sized_pow2 _ Hw) as Hp.
  destruct (well_sized_lengths _ Hw) as [Hlk Hlv].
  destruct (lookup_reaches _ _ _ _ _ _ _ Hp H) as (m & _ & _ & Hok & Hmatch & _).
  apply (lookup_hit_kept fuel dom h _ key' ok' v' j Hp).
  - repeat split.
  - reflexivity.
  - intros s Hs Hne. cbn. rewrite !array_get_set_other by lia. auto.
  - intros E. rewrite E, (found_is_live _ _ _ _ Hok Hmatch Ht) in Hdead. discriminate.
  - cbn. rewrite array_get_set_same by lia. exact Hk.
  - cbn. rewrite array_get_set_same by lia. exact Hnm.
  - exact H.
Qed.

(** X4: an insert does not disturb what lookup finds for another key, as
    long as that other key is not the tombstone pointer of a table without
    an equality function.  On a well-sized handle (capacity a power of two
    from [2^5] to [2^30], threshold the load factor of the capacity): if
    [insert (key, value)] returns, lookup finds the pair [(ok', v')] for
    [key'], the probe of lookup for [key'] does not take the inserted key
    for [key'], and [key'] is not the tombstone pointer when the table has
    no equality function, then after the insert lookup finds the same pair
    with the same fuel, when the insert did not resize.  When it did,
    lookup finds the same pair with fuel for one round of the new
    generation, provided every live slot that lookup takes for [key']
    held the pair [(ok', v')] and [ok'] hashes like [key']. *)
Theorem insert_keeps_the_other_entries (fuel fuel' : nat) (dom : MonoDomain)
    (h : MonoConcGHashTable) (key value : gpointer) (h' : MonoConcGHashTable)
    (r key' ok' v' : gpointer) :
  well_sized h ->
  mono_conc_g_hash_table_insert fuel dom h key value = Done (h', r) ->
  mono_conc_g_hash_table_lookup_extended fuel' dom h key' = Done (true, ok', v') ->
  lookup_matches dom h key' key = false ->
  (equal_func h = None -> key_is_tombstone dom h key' = false) ->
  (element_count h < overflow_count h ->
   mono_conc_g_hash_table_lookup_extended fuel' dom h' key' = Done (true, ok', v')) /\
  (element_count h >= overflow_count h ->
   single_entry dom h (table h) key' ok' v' -> hash_func h ok' = hash_func h key' ->
   (Z.to_nat (2 * table_size (table h)) <= fuel')%nat ->
   mono_conc_g_hash_table_lookup_extended fuel' dom h' key' = Done (true, ok', v')).
Proof.
  intros Hw Hins Hlook Hnm Ht.
  destruct (insert_walk _ _ _ _ _ _ _ Hw Hins)
    as (Hk & Hv & h1 & n & Hfirst & Hw1 & Hc & Hcount & Hn & Hwalk).
  cbv zeta in Hwalk. destruct Hwalk as [_ Hres].
  pose proof (well_sized_pow2 _ Hw1) as Hp1.
  assert (Hgo : mono_conc_g_hash_table_lookup_extended fuel' dom h1 key'
                = Done (true, ok', v') ->
                mono_conc_g_hash_table_lookup_extended fuel' dom h' key'
                = Done (true, ok', v')).
  { intros H1. destruct Hres as [(Hdead & -> & _) | (_ & _ & -> & _)]; [| exact H1].
    apply stored_keeps_lookup; try assumption.
    - apply probe_slot_range, Hp1.
    - rewrite (lookup_matches_config _ _ _ _ _ Hc). exact Hnm.
    - destruct Hc as (_ & He & Hg & _). rewrite He. intros E.
      unfold key_is_tombstone. rewrite Hg. apply (Ht E). }
  split.
  - intros Hlt.
    replace (element_count h >=? overflow_count h) with false in Hfirst
      by (symmetry; rewrite Z.geb_leb; apply Z.leb_gt; exact Hlt).
    subst h1. apply Hgo, Hlook.
  - intros Hge Hsingle Hhash Hfuel.
    replace (element_count h >=? overflow_count h) with true in Hfirst
      by (symmetry; rewrite Z.geb_leb; apply Z.leb_le; lia).
    apply Hgo.
    pose proof (well_sized_pow2 _ Hw) as Hp.
    destruct (lookup_reaches _ _ _ _ _ _ _ Hp Hlook)
      as (m & _ & (Hcell & _) & Hok & Hmatch & Hval & Hvn).
    pose proof (expand_table_preserves_lookup fuel fuel' dom h h1 key'
                  (probe_slot (table_size (table h)) (hash_func h) key' m) Hw Hfirst
                  (probe_slot_range _ _ _ _ Hp)) as Hx.
    cbv zeta in Hx. rewrite Hcell, Hval in Hx.
    apply Hx; try assumption.
    + apply (found_is_live _ _ _ _ Hok Hmatch Ht).
    + pose proof (insert_capacity _ _ _ _ _ _ _ Hw Hins) as Hcap.
      replace (element_count h >=? overflow_count h) with true in Hcap
        by (symmetry; rewrite Z.geb_leb; apply Z.leb_le; lia).
      destruct Hcap as [Hcap _].
      destruct Hres as [(_ & -> & _) | (_ & _ & -> & _)]; cbn in Hcap;
        rewrite Hcap; unfold EXPAND_RATIO; exact Hfuel.
Qed.

(** X5: a remove does not disturb what lookup finds for another key, as
    long as that other key is not the tombstone pointer of a table without
    an equality function.  On a well-sized handle whose generation marks
    removed slots with the tombstone the handle recognises (the mode of
    the generation is the mode of the handle), which is not the null
    pointer: if [remove key] returns, lookup finds the pair [(ok', v')]
    for [key'], the probe of remove for [key] does not take [ok'] for
    [key], and [key'] is not the tombstone pointer when the table has no
    equality function, then lookup finds the same pair with the same fuel
    after the remove. *)
Theorem remove_keeps_the_other_entries (fuel fuel' : nat) (dom : MonoDomain)
    (h : MonoConcGHashTable) (key : gpointer) (h' : MonoConcGHashTable)
    (r : gpointer) (ev : list event) (key' ok' v' : gpointer) :
  well_sized h -> modes_agree h -> tombstone_of dom (table h) <> NULL ->
  mono_conc_g_hash_table_remove fuel dom h key = Done (h', r, ev) ->
  mono_conc_g_hash_table_lookup_extended fuel' dom h key' = Done (true, ok', v') ->
  lookup_matches dom h key ok' = false ->
  (equal_func h = None -> key_is_tombstone dom h key' = false) ->
  mono_conc_g_hash_table_lookup_extended fuel' dom h' key' = Done (true, ok', v').
Proof.
  intros Hw Hma Heph Hrem Hlook Hnm Ht.
  pose proof (well_sized_pow2 _ Hw) as Hp.
  destruct (well_sized_lengths _ Hw) as [Hlk Hlv].
  destruct (remove_walk _ _ _ _ _ _ _ Hp Hrem) as (Hk & m & c & _ & (Hcell & _) & Hres).
  cbv zeta in Hres.
  destruct Hres as [(_ & -> & _) | (Hc & Hmatch & (Ht' & _ & Hcfg) & _)]; [exact Hlook |].
  pose proof (probe_slot_range _ (hash_func h) key m Hp) as Hj.
  set (j := probe_slot (table_size (table h)) (hash_func h) key m) in *.
  destruct (removed_cells dom (table h) j) as (Hkeys & Hvals & Hsize & _).
  apply (lookup_hit_kept fuel' dom h h' key' ok' v' j Hp Hcfg).
  - rewrite Ht'. exact Hsize.
  - intros s Hs Hne. rewrite Ht', Hkeys, Hvals, !array_get_set_other by lia. auto.
  - rewrite Hcell. intros E. rewrite E in Hmatch. congruence.
  - rewrite Ht', Hkeys, array_get_set_same by lia. exact Heph.
  - rewrite Ht', Hkeys, array_get_set_same by lia.
    pose proof (tombstone_recognised dom h Hma) as Hrec.
    unfold lookup_matches. destruct (equal_func h) eqn:Ee.
    + rewrite Hrec. reflexivity.
    + apply Z.eqb_neq. intros E. rewrite <- E, (Ht eq_refl) in Hrec. discriminate.
  - exact Hlook.
Qed.

(** ** Insert, lookup, remove *)

(** X6: insert, then lookup.  On a well-sized handle, for a key and a
    value that are not null, where the probe of lookup takes the key for
    itself (always so without an equality function; with one, the key is
    not the tombstone pointer and the function holds of the key and
    itself) and takes no occupied cell of the generation for the key:
    whenever [insert (key, value)] returns, it returns [NULL], and with
    the same fuel [lookup_extended] reports the pair just stored and
    [lookup] returns the value, whether or not the insert resized. *)
Theorem insert_then_lookup_finds_the_pair (fuel : nat) (dom : MonoDomain)
    (h : MonoConcGHashTable) (key value : gpointer) (h' : MonoConcGHashTable)
    (r : gpointer) :
  well_sized h -> key <> NULL -> value <> NULL ->
  lookup_matches dom h key key = true ->
  absent dom h key (keys (table h)) ->
  mono_conc_g_hash_table_insert fuel dom h key value = Done (h', r) ->
  r = NULL /\
  mono_conc_g_hash_table_lookup_extended fuel dom h' key = Done (true, key, value) /\
  mono_conc_g_hash_table_lookup fuel dom h' key = Done value.
Proof.
  intros Hw Hk Hv Hself Habs Hins.
  destruct (insert_then_lookup _ _ _ _ _ _ _ Hw Hk Hv Hself Habs Hins) as [Hr Hl].
  split; [exact Hr |]. split; [exact Hl |].
  unfold mono_conc_g_hash_table_lookup. rewrite Hl. reflexivity.
Qed.

(** X7: insert, remove, lookup.  On a well-sized handle whose generation
    marks removed slots with the tombstone the handle recognises (the mode
    of the generation is the mode of the handle), for a key that is not
    the tombstone pointer, that the probe of lookup takes for itself
    (with an equality function: the function holds of the key and itself)
    and for which it takes no occupied cell of the generation: when
    [insert (key, value)] returns it returns [NULL] and lookup finds the
    pair; a remove of the key then returns [value], with the callbacks
    that are set invoked on [key] and [value]; and after it, if the
    generation the insert left has an empty slot, lookup reports a miss
    with fuel for one round of the table. *)
Theorem insert_remove_lookup_round_trip (fuel fuel' : nat) (dom : MonoDomain)
    (h : MonoConcGHashTable) (key value : gpointer) (h1 : MonoConcGHashTable)
    (r : gpointer) :
  well_sized h -> modes_agree h ->
  key_is_tombstone dom h key = false -> lookup_matches dom h key key = true ->
  absent dom h key (keys (table h)) ->
  mono_conc_g_hash_table_insert fuel dom h key value = Done (h1, r) ->
  (occupied (keys (table h1)) < length (keys (table h1)))%nat ->
  (Z.to_nat (table_size (table h1)) <= fuel')%nat ->
  r = NULL /\
  mono_conc_g_hash_table_lookup_extended fuel dom h1 key = Done (true, key, value) /\
  exists h2,
    mono_conc_g_hash_table_remove fuel dom h1 key
    = Done (h2, value, destroy_calls h key value) /\
    mono_conc_g_hash_table_lookup_extended fuel' dom h2 key = Done (false, NULL, NULL).
Proof.
  intros Hw Hma Htomb Hself Habs Hins Hocc Hfuel.
  destruct (insert_walk _ _ _ _ _ _ _ Hw Hins)
    as (Hk & Hv & h0 & n & Hfirst & Hw0 & Hc0 & _ & _ & Hwalk).
  destruct (insert_then_lookup _ _ _ _ _ _ _ Hw Hk Hv Hself Habs Hins) as [-> Hlook].
  split; [reflexivity |]. split; [exact Hlook |].
  cbv zeta in Hwalk. destruct Hwalk as [_ Hres].
  pose proof (well_sized_pow2 _ Hw0) as Hp0.
  destruct (well_sized_lengths _ Hw0) as [Hlk0 Hlv0].
  (* the generation insert probed holds nothing lookup takes for the key *)
  assert (Habs0 : absent dom h0 key (keys (table h0))).
  { apply (absent_config dom h h0 key _ Hc0).
    destruct (element_count h >=? overflow_count h).
    - intros c Hin Hnn. destruct (expand_table_keys _ _ _ _ _ Hfirst Hin) as [-> | Hin'];
        [contradiction | apply Habs; assumption].
    - subst h0. exact Habs. }
  assert (Hma0 : modes_agree h0).
  { destruct (element_count h >=? overflow_count h).
    - destruct Hw as (k & Hk5 & Hg & _).
      destruct (expand_table_shape _ _ _ _ _ Hk5 Hg Hfirst) as (_ & _ & _ & _ & Hc & Hct).
      unfold modes_agree. rewrite Hct. destruct Hc as (_ & _ & -> & _). reflexivity.
    - subst h0. exact Hma. }
  set (s := probe_slot (table_size (table h0)) (hash_func h0) key n) in *.
  assert (Hs : 0 <= s < table_size (table h0)) by apply probe_slot_range, Hp0.
  destruct Hres as [(_ & -> & _) | (Hlive & Hsame & _ & _)].
  2:{ exfalso. rewrite (insert_same_live _ _ _ _ Hlive) in Hsame.
      apply andb_true_iff in Hlive. destruct Hlive as [Hnn _].
      apply negb_true_iff, Z.eqb_neq in Hnn.
      destruct (array_get_in (keys (table h0)) s) as [E | Hin]; [contradiction |].
      rewrite (Habs0 _ Hin Hnn) in Hsame. discriminate. }
  set (h1 := insert_here h0 (table h0) s key value) in *.
  assert (Hp1 : is_pow2 (table_size (table h1))) by exact Hp0.
  destruct (remove_after_lookup _ _ _ _ _ _ _ Hp1 Hk Hlook)
    as (h2 & Hrem & (j & Hj & Hkj & _ & Ht2 & Ho2 & Hc2) & _).
  exists h2. split.
  { rewrite Hrem. f_equal. f_equal.
    rewrite (destroy_calls_config h0 h1) by repeat split.
    apply destroy_calls_config, Hc0. }
  assert (Hjs : j = s).
  { destruct (Z.eq_dec j s) as [E | Hne]; [exact E | exfalso].
    cbn in Hkj, Hj. rewrite array_get_set_other in Hkj by lia.
    destruct (array_get_in (keys (table h0)) j) as [E | Hin]; [congruence |].
    rewrite Hkj in Hin.
    pose proof (Habs0 _ Hin Hk) as Hno.
    rewrite (lookup_matches_config _ _ _ _ _ Hc0), Hself in Hno. discriminate. }
  subst j.
  destruct (removed_cells dom (table h1) s) as (Hkeys & Hvals & Hsize & _).
  assert (Hw2 : well_sized h2).
  { apply (step_well_sized dom h1 h2 (step_remove _ _ _ _ _ _ _ Hrem)).
    apply (step_well_sized dom h h1 (step_insert _ _ _ _ _ _ _ Hins) Hw). }
  assert (Hkeys2 : keys (table h2)
                   = array_set (keys (table h0)) s (tombstone_of dom (table h0))).
  { rewrite Ht2, Hkeys. cbn. apply array_set_twice. }
  apply lookup_absent.
  - exact Hw2.
  - intros c Hin Hnn. rewrite Hkeys2 in Hin.
    rewrite (lookup_matches_config dom h1 h2 key c Hc2).
    replace (lookup_matches dom h1 key c) with (lookup_matches dom h0 key c) by reflexivity.
    destruct (in_array_set _ _ _ _ Hin) as [-> | Hin0]; [| apply Habs0; assumption].
    pose proof (tombstone_recognised dom h0 Hma0) as Hrec.
    unfold lookup_matches. destruct (equal_func h0) eqn:Ee.
    + rewrite Hrec. reflexivity.
    + apply Z.eqb_neq. intros E. rewrite <- E in Hrec.
      unfold key_is_tombstone in Hrec, Htomb.
      destruct Hc0 as (_ & _ & Hg & _). rewrite Hg in Hrec. congruence.
  - rewrite Ht2, Hkeys. unfold array_set. rewrite set_nth_length.
    eapply Nat.le_lt_trans; [| exact Hocc].
    apply occupied_set_nth_occupied.
    fold (array_get (keys (table h1)) s). rewrite Hkj. exact Hk.
  - rewrite Ht2, Hsize. exact Hfuel.
Qed.

(** X8: remove, then lookup.  On a handle whose generation marks removed
    slots with the tombstone the handle recognises: if lookup finds the
    pair [(ok, v)] for a key that has one live entry only, a remove of the
    key returns [v], and a lookup after it reports a miss within one round
    of the table, provided the generation has an empty slot. *)
Theorem remove_then_lookup_reports_a_miss (fuel fuel' : nat) (dom : MonoDomain)
    (h : MonoConcGHashTable) (key ok v : gpointer) (h' : MonoConcGHashTable)
    (r : gpointer) (ev : list event) :
  well_sized h -> modes_agree h ->
  (equal_func h = None -> key_is_tombstone dom h key = false) ->
  one_entry dom h key ->
  mono_conc_g_hash_table_lookup_extended fuel dom h key = Done (true, ok, v) ->
  mono_conc_g_hash_table_remove fuel dom h key = Done (h', r, ev) ->
  (occupied (keys (table h)) < length (keys (table h)))%nat ->
  (Z.to_nat (table_size (table h)) <= fuel')%nat ->
  r = v /\
  mono_conc_g_hash_table_lookup_extended fuel' dom h' key = Done (false, NULL, NULL) /\
  mono_conc_g_hash_table_lookup fuel' dom h' key = Done NULL.
Proof.
  intros Hw Hma Ht Hone Hlook Hrem Hocc Hfuel.
  pose proof (well_sized_pow2 _ Hw) as Hp.
  destruct (well_sized_lengths _ Hw) as [Hlk _].
  destruct (remove_walk _ _ _ _ _ _ _ Hp Hrem) as (Hk & _).
  destruct (remove_after_lookup _ _ _ _ _ _ _ Hp Hk Hlook)
    as (h2 & Hrem2 & (j & Hj & Hkj & _ & Hat) & _).
  rewrite Hrem in Hrem2. injection Hrem2 as <- -> _.
  split; [reflexivity |].
  destruct (lookup_reaches _ _ _ _ _ _ _ Hp Hlook) as (_ & _ & _ & Hok & Hmatch & _).
  pose proof Hat as (Ht' & _ & Hc).
  destruct (removed_cells dom (table h) j) as (Hkeys & _ & Hsize & _).
  assert (Hmiss : mono_conc_g_hash_table_lookup_extended fuel' dom h' key
                  = Done (false, NULL, NULL)).
  { apply lookup_absent.
    - apply (step_well_sized dom h h' (step_remove _ _ _ _ _ _ _ Hrem) Hw).
    - intros c Hin Hnn. rewrite Ht', Hkeys in Hin.
      rewrite (lookup_matches_config dom h h' key c Hc).
      destruct (in_array_set_index _ _ _ _ Hin) as [-> | (i & Hi & Hij & Hci)].
      + pose proof (tombstone_recognised dom h Hma) as Hrec.
        unfold lookup_matches. destruct (equal_func h) eqn:Ee.
        * rewrite Hrec. reflexivity.
        * apply Z.eqb_neq. intros E. rewrite <- E, (Ht eq_refl) in Hrec. discriminate.
      + apply not_true_is_false. intros Hm. apply Hij.
        apply (Hone i j); try lia; try (rewrite Hci); try (rewrite Hkj); try assumption.
        * apply (found_is_live _ _ _ _ Hnn Hm Ht).
        * apply (found_is_live _ _ _ _ Hok Hmatch Ht).
    - rewrite Ht', Hkeys. unfold array_set. rewrite set_nth_length.
      eapply Nat.le_lt_trans; [| exact Hocc].
      apply occupied_set_nth_occupied.
      fold (array_get (keys (table h)) j). rewrite Hkj. exact Hok.
    - rewrite Ht', Hsize. exact Hfuel. }
  split; [exact Hmiss |].
  unfold mono_conc_g_hash_table_lookup. rewrite Hmiss. reflexivity.
Qed.

(** ** Iteration, slot by slot *)

Lemma foreach_loop_step dom h t n i :
  foreach_loop dom h t (S n) i = entry_at dom h t i ++ foreach_loop dom h t n (i + 1).
Proof. cbn. unfold entry_at, is_live. destruct (_ && _); reflexivity. Qed.

Lemma foreach_loop_app dom h t : forall a b i,
  foreach_loop dom h t (a + b) i
  = foreach_loop dom h t a i ++ foreach_loop dom h t b (i + Z.of_nat a).
Proof.
  induction a as [| a IH]; intros b i.
  - cbn. f_equal. lia.
  - replace (S a + b)%nat with (S (a + b)) by lia.
    rewrite !foreach_loop_step, IH, <- app_assoc. do 3 f_equal. lia.
Qed.

Lemma foreach_loop_ext dom h h' t t' : forall n i,
  gc_type h' = gc_type h ->
  (forall s, i <= s < i + Z.of_nat n ->
     array_get (keys t') s = array_get (keys t) s /\
     array_get (values t') s = array_get (values t) s) ->
  foreach_loop dom h' t' n i = foreach_loop dom h t n i.
Proof.
  induction n as [| n IH]; intros i Hg Hsame; [reflexivity |].
  rewrite !foreach_loop_step. f_equal.
  - unfold entry_at. destruct (Hsame i ltac:(lia)) as [-> ->].
    rewrite (is_live_config dom h h' _ Hg). reflexivity.
  - apply IH; [exact Hg |]. intros s Hs. apply Hsame. lia.
Qed.

(** Iteration over a generation, split at slot [j]. *)
Lemma foreach_split dom h j :
  0 <= j < table_size (table h) ->
  mono_conc_g_hash_table_foreach dom h
  = foreach_loop dom h (table h) (Z.to_nat j) 0
    ++ entry_at dom h (table h) j
    ++ foreach_loop dom h (table h) (Z.to_nat (table_size (table h) - j - 1)) (j + 1).
Proof.
  intros Hj. unfold mono_conc_g_hash_table_foreach.
  replace (Z.to_nat (table_size (table h)))
    with (Z.to_nat j + S (Z.to_nat (table_size (table h) - j - 1)))%nat by lia.
  rewrite foreach_loop_app, foreach_loop_step.
  rewrite Z2Nat.id by lia. reflexivity.
Qed.

Lemma foreach_loop_split dom h t size j :
  0 <= j < size ->
  foreach_loop dom h t (Z.to_nat size) 0
  = foreach_loop dom h t (Z.to_nat j) 0
    ++ entry_at dom h t j
    ++ foreach_loop dom h t (Z.to_nat (size - j - 1)) (j + 1).
Proof.
  intros Hj.
  replace (Z.to_nat size) with (Z.to_nat j + S (Z.to_nat (size - j - 1)))%nat by lia.
  rewrite foreach_loop_app, foreach_loop_step.
  rewrite Z2Nat.id by lia. reflexivity.
Qed.

Lemma foreach_loop_snoc dom h t n :
  foreach_loop dom h t (S n) 0
  = foreach_loop dom h t n 0 ++ entry_at dom h t (Z.of_nat n).
Proof.
  replace (S n) with (n + 1)%nat by lia.
  rewrite foreach_loop_app, foreach_loop_step. cbn. rewrite app_nil_r. reflexivity.
Qed.

Lemma foreach_loop_length dom h t : forall n i,
  (length (foreach_loop dom h t n i) <= n)%nat.
Proof.
  induction n as [| n IH]; intros i; [cbn; lia |].
  rewrite foreach_loop_step, length_app. specialize (IH (i + 1)).
  unfold entry_at. destruct (is_live _ _ _); cbn; lia.
Qed.

Lemma foreach_loop_in dom h t k v : forall n i,
  In (k, v) (foreach_loop dom h t n i) <->
  exists s, i <= s < i + Z.of_nat n /\
    array_get (keys t) s = k /\ array_get (values t) s = v /\ is_live dom h k = true.
Proof.
  induction n as [| n IH]; intros i.
  - cbn. split; [intros [] | intros (s & Hs & _); lia].
  - rewrite foreach_loop_step, in_app_iff, IH. unfold entry_at. split.
    + intros [Hin | (s & Hs & Hrest)].
      * destruct (is_live dom h (array_get (keys t) i)) eqn:El; [| destruct Hin].
        destruct Hin as [[= <- <-] | []]. exists i. split; [lia | auto].
      * exists s. split; [lia | exact Hrest].
    + intros (s & Hs & Hk & Hv & Hl).
      destruct (Z.eq_dec s i) as [-> | Hne].
      * left. rewrite Hk, Hl, Hv. left. reflexivity.
      * right. exists s. split; [lia | auto].
Qed.

(** Iteration visits the pairs of the live slots, and only those. *)
Lemma foreach_in dom h k v :
  In (k, v) (mono_conc_g_hash_table_foreach dom h) <->
  exists s, 0 <= s < table_size (table h) /\
    array_get (keys (table h)) s = k /\ array_get (values (table h)) s = v /\
    is_live dom h k = true.
Proof.
  unfold mono_conc_g_hash_table_foreach. rewrite foreach_loop_in. split.
  - intros (s & Hs & Hrest). exists s. split; [lia | exact Hrest].
  - intros (s & Hs & Hrest). exists s. split; [lia | exact Hrest].
Qed.

Lemma foreach_loop_dead_slot dom h t : forall n i,
  (length (foreach_loop dom h t n i) < n)%nat ->
  exists s, i <= s < i + Z.of_nat n /\ is_live dom h (array_get (keys t) s) = false.
Proof.
  induction n as [| n IH]; intros i Hlen; [cbn in Hlen; lia |].
  rewrite foreach_loop_step, length_app in Hlen. unfold entry_at in Hlen.
  destruct (is_live dom h (array_get (keys t) i)) eqn:El.
  - cbn in Hlen. destruct (IH (i + 1) ltac:(lia)) as (s & Hs & Hdead).
    exists s. split; [lia | exact Hdead].
  - exists i. split; [lia | exact El].
Qed.

(** X9: iteration hands over live pairs only.  Every pair
    [mono_conc_g_hash_table_foreach] visits is held by a slot of the
    current generation, its key is neither null nor a tombstone for the
    handle, and on a handle that satisfies the slot invariant its value is
    not null; iteration visits at most as many pairs as the generation has
    slots. *)
Theorem foreach_visits_live_pairs (dom : MonoDomain) (h : MonoConcGHashTable) :
  (forall k v, In (k, v) (mono_conc_g_hash_table_foreach dom h) ->
     k <> NULL /\ key_is_tombstone dom h k = false /\
     exists s, 0 <= s < table_size (table h) /\
       array_get (keys (table h)) s = k /\ array_get (values (table h)) s = v) /\
  (slot_ok dom h ->
   forall k v, In (k, v) (mono_conc_g_hash_table_foreach dom h) -> v <> NULL) /\
  (length (mono_conc_g_hash_table_foreach dom h) <= Z.to_nat (table_size (table h)))%nat.
Proof.
  split; [| split].
  - intros k v Hin. apply foreach_in in Hin. destruct Hin as (s & Hs & Hk & Hv & Hl).
    split; [apply (is_live_not_null dom h), Hl |]. split.
    + unfold is_live in Hl. apply andb_true_iff in Hl. destruct Hl as [_ Hl].
      apply negb_true_iff, Hl.
    + exists s. auto.
  - intros Hok k v Hin. apply foreach_in in Hin. destruct Hin as (s & Hs & Hk & Hv & Hl).
    rewrite <- Hv. apply (slot_ok_live_value dom h s Hok Hs). rewrite Hk. exact Hl.
  - apply foreach_loop_length.
Qed.

(** ** Destruction calls back on what iteration visits *)

Lemma destroy_loop_foreach dom h t : forall n i,
  destroy_loop dom h t n i
  = flat_map (fun kv => destroy_calls h (fst kv) (snd kv)) (foreach_loop dom h t n i).
Proof.
  induction n as [| n IH]; intros i; [reflexivity |].
  cbn. destruct (_ && _).
  - cbn. rewrite IH. unfold destroy_calls. rewrite <- app_assoc. reflexivity.
  - apply IH.
Qed.

Lemma destroy_as_foreach dom h :
  mono_conc_g_hash_table_destroy dom h
  = flat_map (fun kv => destroy_calls h (fst kv) (snd kv))
      (mono_conc_g_hash_table_foreach dom h).
Proof.
  unfold mono_conc_g_hash_table_destroy, mono_conc_g_hash_table_foreach.
  destruct (key_destroy_func h) eqn:Ek; [apply destroy_loop_foreach |].
  destruct (value_destroy_func h) eqn:Ev; [apply destroy_loop_foreach |].
  induction (foreach_loop _ _ _ _ _) as [| kv l IH]; [reflexivity |].
  cbn. unfold destroy_calls at 1. rewrite Ek, Ev. exact IH.
Qed.

(** X10: [mono_conc_g_hash_table_destroy] calls the destroy callbacks on
    exactly the pairs [mono_conc_g_hash_table_foreach] visits, in the same
    order, the key callback before the value callback of each pair, and
    calls nothing when neither callback is set. *)
Theorem destroy_calls_back_on_what_foreach_visits (dom : MonoDomain)
    (h : MonoConcGHashTable) :
  mono_conc_g_hash_table_destroy dom h
  = flat_map (fun kv => destroy_calls h (fst kv) (snd kv))
      (mono_conc_g_hash_table_foreach dom h) /\
  (key_destroy_func h = None -> value_destroy_func h = None ->
   mono_conc_g_hash_table_destroy dom h = []).
Proof.
  split; [apply destroy_as_foreach |].
  intros Hk Hv. unfold mono_conc_g_hash_table_destroy. rewrite Hk, Hv. reflexivity.
Qed.

(** X11: no function of the file stores a destroy callback in the handle,
    so on every table built by the constructor, inserts and removes both
    callback fields are null: remove invokes no callback and destruction
    invokes none either. *)
Theorem destroy_callbacks_are_never_installed (dom : MonoDomain)
    (h : MonoConcGHashTable) :
  reachable dom h ->
  key_destroy_func h = None /\ value_destroy_func h = None /\
  mono_conc_g_hash_table_destroy dom h = [] /\
  forall fuel key h' r ev,
    mono_conc_g_hash_table_remove fuel dom h key = Done (h', r, ev) -> ev = [].
Proof.
  intros (hf & eq & ty & h0 & Hnew & Hr).
  destruct (reachable_from_invariant _ _ _ Hr (new_type_well_sized _ _ _ _ Hnew))
    as (Hw & _ & _ & _ & Hkf & Hvf).
  pose proof (new_type_done _ _ _ _ Hnew) as (_ & _ & _ & _ & _ & _ & _ & Hk0 & Hv0 & _).
  rewrite Hk0 in Hkf. rewrite Hv0 in Hvf.
  split; [exact Hkf |]. split; [exact Hvf |].
  split; [unfold mono_conc_g_hash_table_destroy; rewrite Hkf, Hvf; reflexivity |].
  intros fuel key h' r ev Hrem.
  destruct (remove_walk _ _ _ _ _ _ _ (well_sized_pow2 _ Hw) Hrem)
    as (_ & m & c & _ & _ & Hres).
  cbv zeta in Hres. destruct Hres as [(_ & _ & _ & ->) | (_ & _ & _ & _ & -> & _)];
    [reflexivity |].
  unfold destroy_calls. rewrite Hkf, Hvf. reflexivity.
Qed.

(** ** A table just constructed *)

Lemma new_type_cells hf eq ty h :
  mono_conc_g_hash_table_new_type hf eq ty = Done h ->
  keys (table h) = repeat NULL 32 /\ values (table h) = repeat NULL 32.
Proof.
  unfold mono_conc_g_hash_table_new_type, conc_table_new.
  change (INITIAL_SIZE <? 0) with false. cbv beta iota.
  destruct (ty >? _); [discriminate |]. intros [= <-]. split; reflexivity.
Qed.

Lemma new_type_foreach dom hf eq ty h :
  mono_conc_g_hash_table_new_type hf eq ty = Done h ->
  mono_conc_g_hash_table_foreach dom h = [].
Proof.
  intros Hnew. destruct (new_type_cells _ _ _ _ Hnew) as [Hk _].
  unfold mono_conc_g_hash_table_foreach.
  generalize (Z.to_nat (table_size (table h))) as n. generalize 0 as i.
  intros i n. revert i. induction n as [| n IH]; intros i; [reflexivity |].
  rewrite foreach_loop_step, IH. unfold entry_at. rewrite Hk.
  unfold array_get at 1. rewrite nth_repeat. reflexivity.
Qed.

(** X12: the table [mono_conc_g_hash_table_new_type] returns is empty: its
    element count is zero, iteration visits nothing, destruction calls no
    callback, every lookup reports a miss after one step, and a remove of
    any non-null key returns [NULL] and leaves the handle as it is. *)
Theorem new_table_is_empty (dom : MonoDomain) (hf : option (gpointer -> Z))
    (eq : option (gpointer -> gpointer -> bool)) (ty : Z) (h : MonoConcGHashTable) :
  mono_conc_g_hash_table_new_type hf eq ty = Done h ->
  element_count h = 0 /\
  mono_conc_g_hash_table_foreach dom h = [] /\
  mono_conc_g_hash_table_destroy dom h = [] /\
  (forall fuel key, (0 < fuel)%nat ->
     mono_conc_g_hash_table_lookup_extended fuel dom h key = Done (false, NULL, NULL) /\
     mono_conc_g_hash_table_lookup fuel dom h key = Done NULL) /\
  (forall fuel key, (0 < fuel)%nat -> key <> NULL ->
     mono_conc_g_hash_table_remove fuel dom h key = Done (h, NULL, [])).
Proof.
  intros Hnew.
  pose proof (new_type_done _ _ _ _ Hnew) as (_ & _ & _ & Hcount & _).
  destruct (new_type_cells _ _ _ _ Hnew) as [Hk _].
  assert (Hcell : forall i, array_get (keys (table h)) i = NULL).
  { intros i. rewrite Hk. unfold array_get. apply nth_repeat. }
  assert (Hlook : forall fuel key, (0 < fuel)%nat ->
            mono_conc_g_hash_table_lookup_extended fuel dom h key
            = Done (false, NULL, NULL)).
  { intros [| fuel] key Hf; [lia |]. rewrite lookup_as_probe. cbn.
    rewrite Hcell. reflexivity. }
  split; [exact Hcount |].
  split; [apply (new_type_foreach dom _ _ _ _ Hnew) |].
  split; [rewrite destroy_as_foreach, (new_type_foreach dom _ _ _ _ Hnew); reflexivity |].
  split.
  - intros fuel key Hf. split; [apply Hlook, Hf |].
    unfold mono_conc_g_hash_table_lookup. rewrite (Hlook fuel key Hf). reflexivity.
  - intros [| fuel] key Hf Hkey; [lia |]. rewrite remove_as_probe by exact Hkey. cbn.
    rewrite Hcell. reflexivity.
Qed.

(** ** Remove, iteration and destruction *)

Lemma remove_foreach fuel dom h key h' r ev :
  well_sized h -> modes_agree h ->
  (equal_func h = None -> key_is_tombstone dom h key = false) ->
  mono_conc_g_hash_table_remove fuel dom h key = Done (h', r, ev) ->
  (h' = h /\ r = NULL /\ ev = []) \/
  exists before after ok,
    mono_conc_g_hash_table_foreach dom h = before ++ (ok, r) :: after /\
    mono_conc_g_hash_table_foreach dom h' = before ++ after /\
    lookup_matches dom h key ok = true /\ ev = destroy_calls h ok r /\
    same_config h h' /\ overflow_count h' = overflow_count h /\
    element_count h' = match equal_func h with
                       | None => int_wrap (element_count h - 1)
                       | Some _ => element_count h
                       end.
Proof.
  intros Hw Hma Ht Hrem.
  pose proof (well_sized_pow2 _ Hw) as Hp.
  destruct (well_sized_lengths _ Hw) as [Hlk Hlv].
  destruct (remove_walk _ _ _ _ _ _ _ Hp Hrem) as (Hk & m & c & _ & (Hcell & _) & Hres).
  cbv zeta in Hres.
  destruct Hres as [(_ & -> & -> & ->) | (Hc & Hmatch & (Ht' & Hov & Hcfg) & Hr & Hev & Hcount)];
    [left; auto | right].
  pose proof (probe_slot_range _ (hash_func h) key m Hp) as Hj.
  set (j := probe_slot (table_size (table h)) (hash_func h) key m) in *.
  destruct (removed_cells dom (table h) j) as (Hkeys & Hvals & Hsize & _).
  pose proof Hcfg as (_ & _ & Hg & _).
  exists (foreach_loop dom h (table h) (Z.to_nat j) 0),
         (foreach_loop dom h (table h) (Z.to_nat (table_size (table h) - j - 1)) (j + 1)),
         c.
  split; [| split; [| repeat split; try assumption; apply Hcfg]].
  - rewrite (foreach_split dom h j Hj). unfold entry_at.
    rewrite Hcell, (found_is_live _ _ _ _ Hc Hmatch Ht), <- Hr. reflexivity.
  - assert (Hj' : 0 <= j < table_size (table h')) by (rewrite Ht', Hsize; exact Hj).
    rewrite (foreach_split dom h' j Hj').
    assert (Hdead : entry_at dom h' (table h') j = []).
    { unfold entry_at. rewrite Ht', Hkeys, array_get_set_same by lia.
      rewrite (is_live_config dom h h' _ Hg). unfold is_live.
      rewrite (tombstone_recognised dom h Hma), andb_false_r. reflexivity. }
    rewrite Hdead. cbn [app]. f_equal.
    + apply foreach_loop_ext; [exact Hg |]. intros s Hs.
      rewrite Ht', Hkeys, Hvals, !array_get_set_other by lia. auto.
    + rewrite Ht', Hsize. fold (set_key_to_tombstone dom (set_value (table h) j NULL) j).
      apply foreach_loop_ext; [exact Hg |]. intros s Hs.
      rewrite Hkeys, Hvals, !array_get_set_other by lia. auto.
Qed.

(** X13: on a well-sized handle whose generation marks removed slots
    with the tombstone the handle recognises (the mode of the generation
    is the mode of the handle), for a key that is not the tombstone
    pointer when the table has no equality function: a remove that
    returns has either found nothing, and then returns [NULL], makes no
    callback and leaves the handle as it is, or has taken exactly one pair
    out of what iteration visits, the pair of the key it matched and the
    value it returns, with the callbacks made on that pair; the other
    pairs and their order are unchanged. *)
Theorem remove_takes_one_pair_out_of_the_iteration (fuel : nat) (dom : MonoDomain)
    (h : MonoConcGHashTable) (key : gpointer) (h' : MonoConcGHashTable)
    (r : gpointer) (ev : list event) :
  well_sized h -> modes_agree h ->
  (equal_func h = None -> key_is_tombstone dom h key = false) ->
  mono_conc_g_hash_table_remove fuel dom h key = Done (h', r, ev) ->
  (h' = h /\ r = NULL /\ ev = []) \/
  exists before after ok,
    mono_conc_g_hash_table_foreach dom h = before ++ (ok, r) :: after /\
    mono_conc_g_hash_table_foreach dom h' = before ++ after /\
    lookup_matches dom h key ok = true /\ ev = destroy_calls h ok r.
Proof.
  intros Hw Hma Ht Hrem.
  destruct (remove_foreach _ _ _ _ _ _ _ Hw Hma Ht Hrem)
    as [H | (A & B & ok & HA & HB & Hm & Hev & _)]; [left; exact H | right].
  exists A, B, ok. auto.
Qed.

(** X14: on a handle whose generation marks removed slots with the
    tombstone the handle recognises, the callbacks of a removed pair are
    not invoked a second time: destruction after the remove makes the
    calls destruction before the remove would have made, without the
    calls the remove has made itself. *)
Theorem removed_pair_is_not_destroyed_again (fuel : nat) (dom : MonoDomain)
    (h : MonoConcGHashTable) (key : gpointer) (h' : MonoConcGHashTable)
    (r : gpointer) (ev : list event) :
  well_sized h -> modes_agree h ->
  (equal_func h = None -> key_is_tombstone dom h key = false) ->
  mono_conc_g_hash_table_remove fuel dom h key = Done (h', r, ev) ->
  exists before after,
    mono_conc_g_hash_table_destroy dom h = before ++ ev ++ after /\
    mono_conc_g_hash_table_destroy dom h' = before ++ after.
Proof.
  intros Hw Hma Ht Hrem.
  destruct (remove_foreach _ _ _ _ _ _ _ Hw Hma Ht Hrem)
    as [(-> & _ & ->) | (A & B & ok & HA & HB & _ & -> & Hc & _)].
  - exists (mono_conc_g_hash_table_destroy dom h), []. cbn [app]. rewrite !app_nil_r. auto.
  - set (calls := fun hh (kv : gpointer * gpointer) => destroy_calls hh (fst kv) (snd kv)).
    exists (flat_map (calls h) A), (flat_map (calls h) B).
    assert (Hsame : forall l, flat_map (calls h') l = flat_map (calls h) l).
    { intros l. apply flat_map_ext. intros [k v]. apply destroy_calls_config, Hc. }
    rewrite !destroy_as_foreach, HA, HB. fold (calls h) (calls h').
    rewrite Hsame, !flat_map_app. split; [| reflexivity].
    f_equal.
Qed.

(** ** A resize moves the pairs iteration visits, and nothing else *)

Lemma stored_foreach dom h t n j k v :
  0 <= n -> generation_of_size t n -> 0 <= j < table_size t ->
  is_live dom h (array_get (keys t) j) = false -> is_live dom h k = true ->
  exists before after,
    foreach_loop dom h t (Z.to_nat (table_size t)) 0 = before ++ after /\
    foreach_loop dom h (set_value (set_key t j k) j v) (Z.to_nat (table_size t)) 0
    = before ++ (k, v) :: after.
Proof.
  intros Hn Hg Hj Hdead Hlive.
  pose proof (generation_keys_length _ n Hn Hg) as Hlk.
  assert (Hlv : Z.of_nat (length (values t)) = table_size t).
  { destruct Hg as (Hs & _ & Hvl). rewrite Hs, Hvl. apply Z2Nat.id, Z.pow_nonneg. lia. }
  exists (foreach_loop dom h t (Z.to_nat j) 0),
         (foreach_loop dom h t (Z.to_nat (table_size t - j - 1)) (j + 1)).
  rewrite !(foreach_loop_split dom h _ (table_size t) j Hj). split.
  - unfold entry_at. rewrite Hdead. reflexivity.
  - assert (He : entry_at dom h (set_value (set_key t j k) j v) j = [(k, v)]).
    { unfold entry_at. cbn. rewrite !array_get_set_same by lia. rewrite Hlive. reflexivity. }
    rewrite He. cbn [app]. f_equal; [| f_equal].
    + apply foreach_loop_ext; [reflexivity |]. intros s Hs. cbn.
      rewrite !array_get_set_other by lia. auto.
    + apply foreach_loop_ext; [reflexivity |]. intros s Hs. cbn.
      rewrite !array_get_set_other by lia. auto.
Qed.

Lemma expand_loop_permutes fuel dom h old n : forall cnt i t t',
  0 <= n -> generation_of_size t n ->
  (forall s, 0 <= s < table_size t -> array_get (keys t) s <> NULL ->
     is_live dom h (array_get (keys t) s) = true) ->
  Permutation (foreach_loop dom h t (Z.to_nat (table_size t)) 0)
              (foreach_loop dom h old i 0) ->
  expand_loop fuel dom h old cnt (Z.of_nat i) t = Done t' ->
  (forall s, 0 <= s < table_size t' -> array_get (keys t') s <> NULL ->
     is_live dom h (array_get (keys t') s) = true) /\
  Permutation (foreach_loop dom h t' (Z.to_nat (table_size t')) 0)
              (foreach_loop dom h old (i + cnt) 0).
Proof.
  induction cnt as [| cnt IH]; intros i t t' Hn Hg Hclean Hperm H; cbn in H.
  - injection H as <-. rewrite Nat.add_0_r. auto.
  - replace (i + S cnt)%nat with (S i + cnt)%nat by lia.
    replace (Z.of_nat i + 1) with (Z.of_nat (S i)) in H by lia.
    fold (is_live dom h (array_get (keys old) (Z.of_nat i))) in H.
    destruct (is_live dom h (array_get (keys old) (Z.of_nat i))) eqn:Elive.
    + destruct (insert_one_local _ _ _ _ _) as [t1 | |] eqn:E; try discriminate.
      destruct (insert_one_local_size _ _ _ _ _ _ _ E Hg) as [Hg1 _].
      pose proof (generation_pow2 _ n Hn Hg) as Hp.
      destruct (insert_one_local_spec _ _ _ _ _ _ Hp E) as (m & _ & Hspec).
      cbv zeta in Hspec. destruct Hspec as (Hnull & _ & ->).
      pose proof (probe_slot_range _ (hash_func h) (array_get (keys old) (Z.of_nat i)) m Hp) as Hj.
      set (j := probe_slot _ _ _ m) in *.
      pose proof (generation_keys_length _ n Hn Hg) as Hlk.
      apply (IH (S i) _ t' Hn Hg1); [| | exact H].
      * intros s Hs Hnn. cbn in Hs, Hnn |- *.
        destruct (Z.eq_dec s j) as [-> | Hne].
        -- rewrite array_get_set_same by lia. exact Elive.
        -- rewrite array_get_set_other in Hnn |- * by lia. apply Hclean; assumption.
      * destruct (stored_foreach dom h t n j (array_get (keys old) (Z.of_nat i))
                    (array_get (values old) (Z.of_nat i)) Hn Hg Hj) as (A & B & Ht & Ht1).
        -- unfold is_live. rewrite Hnull. reflexivity.
        -- exact Elive.
        -- change (table_size (set_value (set_key t j (array_get (keys old) (Z.of_nat i))) j
                                  (array_get (values old) (Z.of_nat i))))
             with (table_size t).
           rewrite Ht1, foreach_loop_snoc. unfold entry_at. rewrite Elive.
           rewrite Ht in Hperm.
           eapply Permutation_trans; [apply Permutation_sym, Permutation_middle |].
           eapply Permutation_trans; [apply perm_skip, Hperm |].
           apply Permutation_cons_append.
    + apply (IH (S i) t t' Hn Hg Hclean); [| exact H].
      rewrite foreach_loop_snoc. unfold entry_at. rewrite Elive, app_nil_r. exact Hperm.
Qed.

Lemma expand_table_permutes fuel dom h h' :
  well_sized h -> expand_table fuel dom h = Done h' ->
  Permutation (mono_conc_g_hash_table_foreach dom h')
              (mono_conc_g_hash_table_foreach dom h) /\
  (forall s, 0 <= s < table_size (table h') ->
     array_get (keys (table h')) s <> NULL ->
     is_live dom h' (array_get (keys (table h')) s) = true).
Proof.
  intros (n & Hn & Hg & _) E.
  destruct (expand_table_shape _ _ _ _ _ Hn Hg E) as (Hlt & _ & _ & _ & Hc & _).
  pose proof Hc as (_ & _ & Hgc & _).
  revert E. unfold expand_table. pose proof Hg as (Hs & _).
  rewrite Hs, int_wrap_double by assumption.
  replace (n <? 30) with true by (symmetry; apply Z.ltb_lt; lia).
  unfold conc_table_new.
  assert (Hpos1 : 0 < 2 ^ (n + 1)) by (apply Z.pow_pos_nonneg; lia).
  replace (2 ^ (n + 1) <? 0) with false by (symmetry; apply Z.ltb_ge; lia).
  destruct (expand_loop _ _ _ _ _ _ _) as [t1 | |] eqn:El; try discriminate.
  intros [= <-].
  unfold mono_conc_g_hash_table_foreach.
  cbn [table with_overflow_count with_table].
  change 0 with (Z.of_nat 0) in El at 1.
  apply (expand_loop_permutes _ _ _ _ (n + 1)) in El.
  - destruct El as [Hclean Hperm]. rewrite Nat.add_0_l, <- Hs in Hperm. split.
    + erewrite foreach_loop_ext; [exact Hperm | reflexivity | auto].
    + intros s Hs' Hnn. rewrite (is_live_config dom h); [auto | reflexivity].
  - lia.
  - unfold generation_of_size. cbn. rewrite !repeat_length. auto.
  - intros s Hs' Hnn. exfalso. apply Hnn. cbn.
    unfold array_get. apply nth_repeat.
  - cbn [table_size keys values]. 
    assert (Hempty : forall m i, foreach_loop dom h
              {| table_size := 2 ^ (n + 1); ct_gc_type := gc_type h;
                 keys := repeat NULL (Z.to_nat (2 ^ (n + 1)));
                 values := repeat NULL (Z.to_nat (2 ^ (n + 1))) |} m i = []).
    { induction m as [| m IHm]; intros i; [reflexivity |].
      rewrite foreach_loop_step, IHm. unfold entry_at. cbn.
      unfold array_get at 1. rewrite nth_repeat. reflexivity. }
    rewrite Hempty. constructor.
Qed.

(** X15: [expand_table] moves to the new generation exactly the pairs
    that iteration visits in the old one: iteration over the table after
    the resize visits the same pairs, each as often as before (in another
    order).  The new generation has twice the capacity, is created in the
    mode of the handle, and holds no tombstone: every key cell is null or
    live.  The element count is carried over unchanged. *)
Theorem resize_moves_the_pairs_and_drops_the_tombstones (fuel : nat) (dom : MonoDomain)
    (h h' : MonoConcGHashTable) :
  well_sized h -> expand_table fuel dom h = Done h' ->
  Permutation (mono_conc_g_hash_table_foreach dom h')
              (mono_conc_g_hash_table_foreach dom h) /\
  (forall s, 0 <= s < table_size (table h') ->
     array_get (keys (table h')) s = NULL \/
     is_live dom h' (array_get (keys (table h')) s) = true) /\
  table_size (table h') = 2 * table_size (table h) /\
  ct_gc_type (table h') = gc_type h' /\
  element_count h' = element_count h.
Proof.
  intros Hw E. destruct (expand_table_permutes fuel dom h h' Hw E) as [Hperm Hclean].
  pose proof Hw as (n & Hn & Hg & _).
  destruct (expand_table_shape _ _ _ _ _ Hn Hg E) as (_ & (Hs1 & _) & _ & Hcount & Hc & Hct).
  split; [exact Hperm |]. split; [| split; [| split; [| exact Hcount]]].
  - intros s Hs. destruct (Z.eq_dec (array_get (keys (table h')) s) NULL) as [E0 | Hnn];
      [left; exact E0 | right; apply Hclean; assumption].
  - destruct Hg as (Hs0 & _). rewrite Hs1, Hs0, Z.pow_add_r by lia. lia.
  - rewrite Hct. symmetry. apply Hc.
Qed.

(** X16: a resize keeps what lookup finds.  If lookup finds the pair
    [(ok, v0)] for a key that has no second live entry, and the stored key
    hashes like the key looked up (always so without an equality
    function), then after [expand_table] lookup finds the same pair
    within one round of the new generation. *)
Theorem resize_keeps_what_lookup_finds (fuel fuel0 fuel' : nat) (dom : MonoDomain)
    (h h1 : MonoConcGHashTable) (key ok v0 : gpointer) :
  well_sized h -> expand_table fuel dom h = Done h1 ->
  mono_conc_g_hash_table_lookup_extended fuel0 dom h key = Done (true, ok, v0) ->
  (equal_func h = None -> key_is_tombstone dom h key = false) ->
  hash_func h ok = hash_func h key -> single_entry dom h (table h) key ok v0 ->
  (Z.to_nat (table_size (table h1)) <= fuel')%nat ->
  mono_conc_g_hash_table_lookup_extended fuel' dom h1 key = Done (true, ok, v0).
Proof.
  intros Hw E Hlook Ht Hhash Hsingle Hfuel.
  pose proof (well_sized_pow2 _ Hw) as Hp.
  destruct (lookup_reaches _ _ _ _ _ _ _ Hp Hlook)
    as (m & _ & (Hcell & _) & Hok & Hmatch & Hval & Hvn).
  pose proof (expand_table_preserves_lookup fuel fuel' dom h h1 key
                (probe_slot (table_size (table h)) (hash_func h) key m) Hw E
                (probe_slot_range _ _ _ _ Hp)) as Hx.
  cbv zeta in Hx. rewrite Hcell, Hval in Hx.
  apply Hx; try assumption. apply (found_is_live _ _ _ _ Hok Hmatch Ht).
Qed.

(** ** Insert and iteration *)

Lemma insert_foreach fuel dom h key value h' r :
  well_sized h -> slot_ok dom h -> key_is_tombstone dom h key = false ->
  mono_conc_g_hash_table_insert fuel dom h key value = Done (h', r) ->
  Permutation (mono_conc_g_hash_table_foreach dom h')
    (if r =? NULL
     then (key, value) :: mono_conc_g_hash_table_foreach dom h
     else mono_conc_g_hash_table_foreach dom h) /\
  element_count h' = (if r =? NULL then int_wrap (element_count h + 1)
                      else element_count h).
Proof.
  intros Hw Hok Ht Hins.
  destruct (insert_walk _ _ _ _ _ _ _ Hw Hins)
    as (Hk & Hv & h1 & n & Hfirst & Hw1 & Hc1 & Hcount1 & _ & Hwalk).
  cbv zeta in Hwalk. destruct Hwalk as [_ Hres].
  pose proof (well_sized_pow2 _ Hw1) as Hp1.
  assert (H1 : Permutation (mono_conc_g_hash_table_foreach dom h1)
                 (mono_conc_g_hash_table_foreach dom h) /\ slot_ok dom h1).
  { destruct (element_count h >=? overflow_count h).
    - split; [apply (expand_table_permutes fuel dom h h1 Hw Hfirst) |].
      destruct Hw as (k & Hk5 & Hg & _).
      apply (expand_table_slot_ok _ _ _ _ _ Hk5 Hg Hok Hfirst).
    - subst h1. auto. }
  destruct H1 as [Hperm Hok1].
  pose proof (probe_slot_range _ (hash_func h1) key n Hp1) as Hs.
  set (s := probe_slot (table_size (table h1)) (hash_func h1) key n) in *.
  destruct Hres as [(Hdead & -> & ->) | (Hlive & _ & -> & ->)].
  - cbn [Z.eqb NULL]. change (NULL =? NULL) with true. cbv iota.
    split; [| cbn; rewrite Hcount1; reflexivity].
    destruct Hw1 as (k & Hk5 & Hg1 & _).
    destruct (stored_foreach dom h1 (table h1) k s key value ltac:(lia) Hg1 Hs Hdead)
      as (A & B & HA & HB).
    { unfold is_live. apply Z.eqb_neq in Hk. rewrite Hk. cbn.
      unfold key_is_tombstone in *. destruct Hc1 as (_ & _ & -> & _).
      rewrite Ht. reflexivity. }
    unfold mono_conc_g_hash_table_foreach in Hperm |- *.
    rewrite (foreach_loop_ext dom h1 (insert_here h1 (table h1) s key value)
               (set_value (set_key (table h1) s key) s value)
               (table (insert_here h1 (table h1) s key value)))
      by (try reflexivity; intros; split; reflexivity).
    change (table_size (table (insert_here h1 (table h1) s key value)))
      with (table_size (table h1)).
    rewrite HB. rewrite HA in Hperm.
    eapply Permutation_trans; [apply Permutation_sym, Permutation_middle |].
    apply perm_skip, Hperm.
  - pose proof (proj1 (slot_ok_live_value dom h1 s Hok1 Hs) Hlive) as Hval.
    apply Z.eqb_neq in Hval. rewrite Hval. auto.
Qed.

(** X17: insert adds one pair to what iteration visits exactly when it
    returns [NULL].  On a handle that satisfies the slot invariant, for a
    key that is not the tombstone of the handle: if insert returns [NULL],
    iteration afterwards visits the new pair and the pairs it visited
    before (in some order, the insert may have resized the table) and the
    element count has gone up by one; otherwise iteration visits the pairs
    it visited before and the element count is unchanged. *)
Theorem insert_adds_one_pair_to_the_iteration (fuel : nat) (dom : MonoDomain)
    (h : MonoConcGHashTable) (key value : gpointer) (h' : MonoConcGHashTable)
    (r : gpointer) :
  well_sized h -> slot_ok dom h -> key_is_tombstone dom h key = false ->
  mono_conc_g_hash_table_insert fuel dom h key value = Done (h', r) ->
  Permutation (mono_conc_g_hash_table_foreach dom h')
    (if r =? NULL
     then (key, value) :: mono_conc_g_hash_table_foreach dom h
     else mono_conc_g_hash_table_foreach dom h) /\
  element_count h' = (if r =? NULL then int_wrap (element_count h + 1)
                      else element_count h).
Proof. apply insert_foreach. Qed.

(** ** The probe chains, operation by operation *)

(** A probe that passes live slots only leaves the generation before it
    has gone round. *)
Lemma walk_within_round dom h hf key n :
  is_pow2 (table_size (table h)) ->
  (forall d, (d < n)%nat ->
     is_live dom h (array_get (keys (table h))
                      (probe_slot (table_size (table h)) hf key d)) = true) ->
  is_live dom h (array_get (keys (table h))
                   (probe_slot (table_size (table h)) hf key n)) = false ->
  Z.of_nat n < table_size (table h).
Proof.
  intros Hp Hbefore Hdead.
  destruct (Z.lt_ge_cases (Z.of_nat n) (table_size (table h))) as [? | Hge]; [assumption |].
  exfalso. pose proof (pow2_pos _ Hp).
  specialize (Hbefore (n - Z.to_nat (table_size (table h)))%nat ltac:(lia)).
  rewrite probe_slot_wrap in Hbefore by (try exact Hp; lia). congruence.
Qed.

Lemma linked_stored dom h key value n :
  well_sized h -> linked dom h -> is_live dom h key = true ->
  let slot := probe_slot (table_size (table h)) (hash_func h) key in
  (forall d, (d < n)%nat -> is_live dom h (array_get (keys (table h)) (slot d)) = true) ->
  is_live dom h (array_get (keys (table h)) (slot n)) = false ->
  linked dom (insert_here h (table h) (slot n) key value).
Proof.
  intros Hw Hl Hkey slot Hbefore Hdead.
  pose proof (well_sized_pow2 _ Hw) as Hp.
  destruct (well_sized_lengths _ Hw) as [Hlk _].
  pose proof (walk_within_round dom h (hash_func h) key n Hp Hbefore Hdead) as Hn.
  pose proof (probe_slot_range _ (hash_func h) key n Hp) as Hs. fold slot in Hs.
  intros j Hj Hlive. cbn in Hj, Hlive |- *.
  replace (is_live dom (insert_here h (table h) (slot n) key value))
    with (is_live dom h) in Hlive by reflexivity.
  assert (Hcell : forall x, 0 <= x < table_size (table h) ->
            array_get (keys (table h)) x <> NULL ->
            array_get (array_set (keys (table h)) (slot n) key) x <> NULL).
  { intros x Hx Hnn. destruct (Z.eq_dec x (slot n)) as [-> | Hne].
    - rewrite array_get_set_same by lia. apply (is_live_not_null dom h), Hkey.
    - rewrite array_get_set_other by lia. exact Hnn. }
  destruct (Z.eq_dec j (slot n)) as [-> | Hne].
  - rewrite array_get_set_same by lia.
    exists n. split; [exact Hn |]. split; [reflexivity |].
    intros d Hd. apply Hcell; [apply probe_slot_range, Hp |].
    apply (is_live_not_null dom h), Hbefore, Hd.
  - rewrite array_get_set_other in Hlive |- * by lia.
    destruct (Hl j Hj Hlive) as (m & Hm & Hjm & Hchain).
    exists m. split; [exact Hm |]. split; [exact Hjm |].
    intros d Hd. apply Hcell; [apply probe_slot_range, Hp | apply Hchain, Hd].
Qed.

Lemma linked_removed dom h h' j :
  well_sized h -> modes_agree h -> tombstone_of dom (table h) <> NULL ->
  linked dom h -> 0 <= j < table_size (table h) -> removed_at dom h h' j ->
  linked dom h'.
Proof.
  intros Hw Hma Hnn Hl Hj (Ht & _ & Hc).
  pose proof (well_sized_pow2 _ Hw) as Hp.
  destruct (well_sized_lengths _ Hw) as [Hlk _].
  destruct (removed_cells dom (table h) j) as (Hkeys & _ & Hsize & _).
  pose proof Hc as (Hhf & _ & Hg & _).
  intros s Hs Hlive. rewrite Ht, Hsize in Hs. rewrite Ht, Hkeys in Hlive.
  rewrite (is_live_config dom h h' _ Hg) in Hlive.
  rewrite Ht, Hsize, Hkeys, Hhf. cbv zeta.
  assert (Hcell : forall x, 0 <= x < table_size (table h) ->
            array_get (keys (table h)) x <> NULL ->
            array_get (array_set (keys (table h)) j (tombstone_of dom (table h))) x <> NULL).
  { intros x Hx Hxn. destruct (Z.eq_dec x j) as [-> | Hne].
    - rewrite array_get_set_same by lia. exact Hnn.
    - rewrite array_get_set_other by lia. exact Hxn. }
  destruct (Z.eq_dec s j) as [-> | Hne].
  - rewrite array_get_set_same in Hlive by lia. unfold is_live in Hlive.
    rewrite (tombstone_recognised dom h Hma), andb_false_r in Hlive. discriminate.
  - rewrite array_get_set_other in Hlive |- * by lia.
    destruct (Hl s Hs Hlive) as (m & Hm & Hsm & Hchain).
    exists m. split; [exact Hm |]. split; [exact Hsm |].
    intros d Hd. apply Hcell; [apply probe_slot_range, Hp | apply Hchain, Hd].
Qed.

Lemma linked_expanded fuel dom h h' :
  well_sized h -> expand_table fuel dom h = Done h' -> linked dom h'.
Proof.
  intros (n & Hn & Hg & _) E.
  destruct (expand_table_copies _ _ _ _ _ Hn Hg E) as [Hch _].
  destruct (expand_table_shape _ _ _ _ _ Hn Hg E) as (_ & _ & _ & _ & (Hhf & _) & _).
  intros j Hj Hlive. rewrite Hhf.
  apply (Hch j Hj), (is_live_not_null dom h'), Hlive.
Qed.

(** ** The invariants of a handle, operation by operation *)

Lemma expand_table_sound fuel dom h h' :
  sound dom h -> expand_table fuel dom h = Done h' -> sound dom h'.
Proof.
  intros (Hw & Hma & Hnn & Hok & Hl) E.
  pose proof Hw as (n & Hn & Hg & Ho).
  destruct (expand_table_shape _ _ _ _ _ Hn Hg E) as (Hn1 & Hg1 & Ho1 & _ & Hc & _).
  destruct (expand_table_slot_ok _ _ _ _ _ Hn Hg Hok E) as [Hok1 Hma1].
  split; [exists (n + 1); split; [lia | auto] |].
  split; [exact Hma1 |].
  split; [rewrite (tombstone_of_modes dom h h' Hma Hma1); [exact Hnn | apply Hc] |].
  split; [exact Hok1 | apply (linked_expanded fuel dom h h' Hw E)].
Qed.

Lemma insert_sound fuel dom h key value h' r :
  sound dom h -> key_is_tombstone dom h key = false ->
  mono_conc_g_hash_table_insert fuel dom h key value = Done (h', r) ->
  sound dom h'.
Proof.
  intros Hs Ht Hins. pose proof Hs as (Hw & Hma & Hnn & Hok & Hl).
  destruct (insert_walk _ _ _ _ _ _ _ Hw Hins)
    as (Hk & Hv & h1 & n & Hfirst & Hw1 & Hc1 & _ & _ & Hwalk).
  cbv zeta in Hwalk. destruct Hwalk as [Hbefore Hres].
  assert (Hs1 : sound dom h1).
  { destruct (element_count h >=? overflow_count h).
    - apply (expand_table_sound fuel dom h h1 Hs Hfirst).
    - subst h1. exact Hs. }
  destruct Hres as [(Hdead & -> & _) | (_ & _ & -> & _)]; [| exact Hs1].
  destruct Hs1 as (_ & Hma1 & Hnn1 & _ & Hl1).
  destruct (insert_slot_ok _ _ _ _ _ _ _ Hw Hok Ht Hins) as [Hok' Hma'].
  split; [apply (step_well_sized dom h _ (step_insert _ _ _ _ _ _ _ Hins) Hw) |].
  split; [exact Hma1 |]. split; [exact Hnn1 |]. split; [exact Hok' |].
  apply linked_stored; try assumption.
  - unfold is_live. apply Z.eqb_neq in Hk. rewrite Hk. cbn.
    unfold key_is_tombstone in *. destruct Hc1 as (_ & _ & -> & _). rewrite Ht. reflexivity.
  - intros d Hd. apply Hbefore, Hd.
Qed.

Lemma remove_sound fuel dom h key h' r ev :
  sound dom h ->
  mono_conc_g_hash_table_remove fuel dom h key = Done (h', r, ev) ->
  sound dom h'.
Proof.
  intros Hs Hrem. pose proof Hs as (Hw & Hma & Hnn & Hok & Hl).
  pose proof (well_sized_pow2 _ Hw) as Hp.
  destruct (remove_slot_ok _ _ _ _ _ _ _ Hw Hma Hok Hrem) as [Hok' Hma'].
  destruct (remove_walk _ _ _ _ _ _ _ Hp Hrem) as (_ & m & c & _ & _ & Hres).
  cbv zeta in Hres.
  destruct Hres as [(_ & -> & _) | (_ & _ & Hat & _)]; [exact Hs |].
  split; [apply (step_well_sized dom h _ (step_remove _ _ _ _ _ _ _ Hrem) Hw) |].
  split; [exact Hma' |].
  split; [rewrite (tombstone_of_modes dom h h' Hma Hma'); [exact Hnn | apply Hat] |].
  split; [exact Hok' |].
  apply (linked_removed dom h h' _ Hw Hma Hnn Hl (probe_slot_range _ _ _ _ Hp) Hat).
Qed.

Lemma new_type_sound dom hf eq ty h :
  mono_conc_g_hash_table_new_type hf eq ty = Done h ->
  has_flag ty MONO_HASH_KEY_GC = false -> sound dom h.
Proof.
  intros Hnew Hty.
  destruct (new_type_slot_ok dom _ _ _ _ Hnew) as [Hok Hm].
  pose proof (new_type_done _ _ _ _ Hnew) as (_ & _ & _ & _ & _ & _ & _ & _ & _ & Hct).
  split; [apply (new_type_well_sized _ _ _ _ Hnew) |].
  split; [apply Hm, Hty |].
  split; [unfold tombstone_of; rewrite Hct; cbn; discriminate |].
  split; [exact Hok |].
  intros j Hj Hlive. exfalso. apply is_live_not_null in Hlive. apply Hlive.
  destruct (new_type_cells _ _ _ _ Hnew) as [-> _].
  unfold array_get. apply nth_repeat.
Qed.

Lemma run_sound fuel dom : forall ops h h',
  sound dom h -> inserts_no_tombstone dom h ops ->
  run fuel dom h ops = Done h' -> sound dom h'.
Proof.
  induction ops as [| o ops IH]; intros h h' Hs Hops H; cbn in H.
  - injection H as <-. exact Hs.
  - destruct (apply_op fuel dom h o) as [h1 | |] eqn:E; try discriminate.
    inversion Hops as [| o' ops' Ho Hrest]; subst.
    pose proof Hs as (Hw & _).
    assert (H1 : sound dom h1 /\ gc_type h1 = gc_type h).
    { destruct o as [k v | k]; cbn in E.
      - destruct (mono_conc_g_hash_table_insert fuel dom h k v) as [[h2 r] | |] eqn:E2;
          try discriminate.
        injection E as ->. split; [apply (insert_sound _ _ _ _ _ _ _ Hs Ho E2) |].
        apply (step_same_config dom h h1 (step_insert _ _ _ _ _ _ _ E2) Hw).
      - destruct (mono_conc_g_hash_table_remove fuel dom h k) as [[[h2 r] ev] | |] eqn:E2;
          try discriminate.
        injection E as ->. split; [apply (remove_sound _ _ _ _ _ _ _ Hs E2) |].
        apply (step_same_config dom h h1 (step_remove _ _ _ _ _ _ _ E2) Hw). }
    destruct H1 as [Hs1 Hgc].
    apply (IH h1 h' Hs1); [| exact H].
    unfold inserts_no_tombstone in *. eapply Forall_impl; [| exact Hrest].
    intros [k v | k]; [| auto]. unfold key_is_tombstone. rewrite Hgc. auto.
Qed.

(** X18: the invariants [sound] (capacity a power of two with its
    threshold, tombstones the handle recognises, the slot invariant, and
    unbroken probe chains) hold for a table constructed in a mode that
    does not track keys, and are kept by every insert of a key that is not
    the tombstone, by every remove and by every resize; so they hold after
    every run of inserts and removes on such a table.  A resize also
    establishes them on a handle whose first generation was created
    before the mode was stored, provided the slot invariant held and the
    tombstone of the domain is not the null pointer. *)
Theorem operations_keep_the_invariants (dom : MonoDomain) :
  (forall hf eq ty h,
     mono_conc_g_hash_table_new_type hf eq ty = Done h ->
     has_flag ty MONO_HASH_KEY_GC = false -> sound dom h) /\
  (forall fuel h key value h' r,
     sound dom h -> key_is_tombstone dom h key = false ->
     mono_conc_g_hash_table_insert fuel dom h key value = Done (h', r) -> sound dom h') /\
  (forall fuel h key h' r ev,
     sound dom h ->
     mono_conc_g_hash_table_remove fuel dom h key = Done (h', r, ev) -> sound dom h') /\
  (forall fuel h h',
     sound dom h -> expand_table fuel dom h = Done h' -> sound dom h') /\
  (forall fuel h h',
     well_sized h -> slot_ok dom h -> ephemeron_tombstone dom <> NULL ->
     expand_table fuel dom h = Done h' -> sound dom h') /\
  (forall fuel hf eq ty h0 ops h,
     mono_conc_g_hash_table_new_type hf eq ty = Done h0 ->
     has_flag ty MONO_HASH_KEY_GC = false ->
     inserts_no_tombstone dom h0 ops ->
     run fuel dom h0 ops = Done h -> sound dom h).
Proof.
  split; [intros hf eq ty h; apply new_type_sound |].
  split; [intros fuel h key value h' r; apply insert_sound |].
  split; [intros fuel h key h' r ev; apply remove_sound |].
  split; [intros fuel h h'; apply expand_table_sound |].
  split.
  - intros fuel h h' Hw Hok Heph E.
    pose proof Hw as (n & Hn & Hg & _).
    destruct (expand_table_shape _ _ _ _ _ Hn Hg E) as (Hn1 & Hg1 & Ho1 & _).
    destruct (expand_table_slot_ok _ _ _ _ _ Hn Hg Hok E) as [Hok1 Hma1].
    split; [exists (n + 1); split; [lia | auto] |].
    split; [exact Hma1 |]. split; [apply tombstone_not_null, Heph |].
    split; [exact Hok1 | apply (linked_expanded fuel dom h h' Hw E)].
  - intros fuel hf eq ty h0 ops h Hnew Hty Hops Hrun.
    apply (run_sound fuel dom ops h0 h (new_type_sound dom _ _ _ _ Hnew Hty) Hops Hrun).
Qed.

(** ** Lookup and iteration *)

(** X19: on a handle that satisfies the slot invariant, every pair a
    lookup reports is one of the pairs iteration visits. *)
Theorem lookup_finds_only_pairs_of_the_iteration (fuel : nat) (dom : MonoDomain)
    (h : MonoConcGHashTable) (key ok v : gpointer) :
  well_sized h -> slot_ok dom h ->
  mono_conc_g_hash_table_lookup_extended fuel dom h key = Done (true, ok, v) ->
  In (ok, v) (mono_conc_g_hash_table_foreach dom h).
Proof.
  intros Hw Hok H. pose proof (well_sized_pow2 _ Hw) as Hp.
  destruct (lookup_reaches _ _ _ _ _ _ _ Hp H) as (m & _ & (Hcell & _) & _ & _ & Hv & Hvn).
  apply foreach_in. exists (probe_slot (table_size (table h)) (hash_func h) key m).
  pose proof (probe_slot_range _ (hash_func h) key m Hp) as Hj.
  split; [exact Hj |]. split; [exact Hcell |]. split; [exact Hv |].
  rewrite <- Hcell. apply (slot_ok_live_value dom h _ Hok Hj). rewrite Hv. exact Hvn.
Qed.

(** X20: on a handle that satisfies [sound], no pair is lost to lookup.
    For every pair [(k, v)] iteration visits, a lookup of [k] (a key the
    equality function, where there is one, takes for itself) returns
    within one round of the table and reports a pair that iteration
    visits and whose key the probe takes for [k]; without an equality
    function that key is [k] itself. *)
Theorem lookup_finds_every_pair_of_the_iteration (fuel : nat) (dom : MonoDomain)
    (h : MonoConcGHashTable) (k v : gpointer) :
  sound dom h -> In (k, v) (mono_conc_g_hash_table_foreach dom h) ->
  lookup_matches dom h k k = true ->
  (Z.to_nat (table_size (table h)) <= fuel)%nat ->
  exists ok v',
    mono_conc_g_hash_table_lookup_extended fuel dom h k = Done (true, ok, v') /\
    lookup_matches dom h k ok = true /\
    In (ok, v') (mono_conc_g_hash_table_foreach dom h).
Proof.
  intros (Hw & _ & _ & Hok & Hl) Hin Hself Hfuel.
  pose proof (well_sized_pow2 _ Hw) as Hp.
  apply foreach_in in Hin. destruct Hin as (j & Hj & Hk & Hv & Hlive).
  rewrite <- Hk in Hlive. destruct (Hl j Hj Hlive) as (m & Hm & Hjm & Hchain).
  cbv zeta in Hjm, Hchain. rewrite Hk in Hjm, Hchain.
  (* the first slot of the chain that lookup takes for the key *)
  destruct (least_below
              (fun d => lookup_matches dom h k
                          (array_get (keys (table h))
                             (probe_slot (table_size (table h)) (hash_func h) k d)) = true)
              ltac:(intros d; apply bool_dec) m) as (m0 & Hm0 & Hmatch & Hleast).
  { rewrite <- Hjm, Hk. exact Hself. }
  set (s := probe_slot (table_size (table h)) (hash_func h) k m0) in *.
  assert (Hs : 0 <= s < table_size (table h)) by apply probe_slot_range, Hp.
  assert (Hnn : array_get (keys (table h)) s <> NULL).
  { destruct (Nat.eq_dec m0 m) as [-> | Hne].
    - unfold s. rewrite <- Hjm, Hk. rewrite Hk in Hlive. apply (is_live_not_null dom h), Hlive.
    - apply Hchain. lia. }
  assert (Hlive_s : is_live dom h (array_get (keys (table h)) s) = true).
  { unfold is_live. apply Z.eqb_neq in Hnn. rewrite Hnn. cbn.
    unfold lookup_matches in Hmatch. destruct (equal_func h).
    - apply andb_true_iff in Hmatch. apply Hmatch.
    - apply Z.eqb_eq in Hmatch. rewrite <- Hmatch.
      rewrite Hk in Hlive. unfold is_live in Hlive.
      apply andb_true_iff in Hlive. apply Hlive. }
  pose proof (proj1 (slot_ok_live_value dom h s Hok Hs) Hlive_s) as Hval.
  exists (array_get (keys (table h)) s), (array_get (values (table h)) s).
  split; [| split; [exact Hmatch |]].
  - apply (reaches_lookup fuel dom h k m0 true _ Hp).
    + split; [reflexivity |]. intros d Hd. split; [apply Hchain; lia |].
      apply not_true_is_false, Hleast, Hd.
    + auto.
    + lia.
  - apply foreach_in. exists s. rewrite Hlive_s. auto.
Qed.

(** ** The element count *)

Lemma load_factor_pow2 n : 2 <= n -> load_factor_of (2 ^ n) = 3 * 2 ^ (n - 2).
Proof.
  intros Hn. unfold load_factor_of.
  replace (2 ^ n) with (2 ^ (n - 2) * 4)
    by (replace n with (n - 2 + 2) at 2 by lia; rewrite Z.pow_add_r by lia; reflexivity).
  replace (2 ^ (n - 2) * 4 * 3) with (3 * 2 ^ (n - 2) * 4) by lia.
  apply Z.quot_mul. lia.
Qed.

Lemma threshold_bounds h :
  well_sized h -> 24 <= overflow_count h < 2 ^ 30.
Proof.
  intros (n & Hn & _ & ->). rewrite load_factor_pow2 by lia.
  assert (2 ^ 3 <= 2 ^ (n - 2)) by (apply Z.pow_le_mono_r; lia).
  assert (2 ^ (n - 2) <= 2 ^ 28) by (apply Z.pow_le_mono_r; lia).
  lia.
Qed.

Lemma threshold_doubles h h' :
  well_sized h -> well_sized h' ->
  table_size (table h') = EXPAND_RATIO * table_size (table h) ->
  overflow_count h' = 2 * overflow_count h.
Proof.
  intros (n & Hn & (Hs & _) & ->) (n' & Hn' & (Hs' & _) & ->) Hsize.
  rewrite Hs, Hs' in Hsize. unfold EXPAND_RATIO in Hsize.
  assert (n' = n + 1).
  { apply (Z.pow_inj_r 2); try lia. rewrite Z.pow_add_r by lia. lia. }
  subst n'. rewrite !load_factor_pow2 by lia.
  replace (n + 1 - 2) with (n - 2 + 1) by lia. rewrite Z.pow_add_r by lia. lia.
Qed.

Lemma insert_counted fuel dom h key value h' r :
  well_sized h -> slot_ok dom h -> key_is_tombstone dom h key = false ->
  counted dom h ->
  mono_conc_g_hash_table_insert fuel dom h key value = Done (h', r) ->
  counted dom h'.
Proof.
  intros Hw Hok Ht (Hlow & Hhigh & Hexact) Hins.
  destruct (insert_foreach _ _ _ _ _ _ _ Hw Hok Ht Hins) as [Hperm Hcount].
  apply Permutation_length in Hperm.
  pose proof (step_well_sized dom h h' (step_insert _ _ _ _ _ _ _ Hins) Hw) as Hw'.
  pose proof (step_same_config dom h h' (step_insert _ _ _ _ _ _ _ Hins) Hw)
    as (_ & He & _).
  pose proof (threshold_bounds h Hw) as Hb.
  pose proof (insert_capacity _ _ _ _ _ _ _ Hw Hins) as Hcap.
  assert (Hov : overflow_count h' = overflow_count h /\ element_count h < overflow_count h
                \/ overflow_count h' = 2 * overflow_count h).
  { destruct (element_count h >=? overflow_count h) eqn:Ec.
    - right. apply (threshold_doubles h h' Hw Hw'), Hcap.
    - left. split; [apply Hcap |]. rewrite Z.geb_leb in Ec. apply Z.leb_gt, Ec. }
  unfold counted. rewrite Hperm, Hcount, He.
  destruct (r =? NULL).
  - cbn [length]. rewrite int_wrap_small by lia.
    split; [lia |]. split; [lia |]. intros E. specialize (Hexact E). lia.
  - split; [lia |]. split; [lia |]. exact Hexact.
Qed.

Lemma remove_counted fuel dom h key h' r ev :
  well_sized h -> modes_agree h ->
  (equal_func h = None -> key_is_tombstone dom h key = false) ->
  counted dom h ->
  mono_conc_g_hash_table_remove fuel dom h key = Done (h', r, ev) ->
  counted dom h'.
Proof.
  intros Hw Hma Ht (Hlow & Hhigh & Hexact) Hrem.
  destruct (remove_foreach _ _ _ _ _ _ _ Hw Hma Ht Hrem)
    as [(-> & _) | (A & B & ok & HA & HB & _ & _ & Hc & Hov & Hcount)];
    [repeat split; assumption |].
  pose proof (threshold_bounds h Hw) as Hb.
  destruct Hc as (_ & He & _).
  unfold counted. rewrite HB, Hov, Hcount, He.
  rewrite HA, length_app in Hlow, Hexact. cbn [length] in Hlow, Hexact.
  rewrite length_app.
  destruct (equal_func h).
  - split; [lia |]. split; [lia |]. discriminate.
  - specialize (Hexact eq_refl). rewrite int_wrap_small by lia.
    split; [lia |]. split; [lia |]. intros _. lia.
Qed.

Lemma run_counted fuel dom : forall ops h h',
  sound dom h -> counted dom h -> keys_no_tombstone dom h ops ->
  run fuel dom h ops = Done h' -> sound dom h' /\ counted dom h'.
Proof.
  induction ops as [| o ops IH]; intros h h' Hs Hcnt Hops H; cbn in H.
  - injection H as <-. auto.
  - destruct (apply_op fuel dom h o) as [h1 | |] eqn:E; try discriminate.
    inversion Hops as [| o' ops' Ho Hrest]; subst.
    pose proof Hs as (Hw & Hma & _ & Hok & _).
    assert (H1 : sound dom h1 /\ counted dom h1 /\ gc_type h1 = gc_type h).
    { destruct o as [k v | k]; cbn in E.
      - destruct (mono_conc_g_hash_table_insert fuel dom h k v) as [[h2 r] | |] eqn:E2;
          try discriminate.
        injection E as ->. split; [apply (insert_sound _ _ _ _ _ _ _ Hs Ho E2) |].
        split; [apply (insert_counted _ _ _ _ _ _ _ Hw Hok Ho Hcnt E2) |].
        apply (step_same_config dom h h1 (step_insert _ _ _ _ _ _ _ E2) Hw).
      - destruct (mono_conc_g_hash_table_remove fuel dom h k) as [[[h2 r] ev] | |] eqn:E2;
          try discriminate.
        injection E as ->. split; [apply (remove_sound _ _ _ _ _ _ _ Hs E2) |].
        split; [apply (remove_counted _ _ _ _ _ _ _ Hw Hma (fun _ => Ho) Hcnt E2) |].
        apply (step_same_config dom h h1 (step_remove _ _ _ _ _ _ _ E2) Hw). }
    destruct H1 as (Hs1 & Hcnt1 & Hgc).
    apply (IH h1 h' Hs1 Hcnt1); [| exact H].
    unfold keys_no_tombstone in *. eapply Forall_impl; [| exact Hrest].
    intros [k v | k]; unfold key_is_tombstone; rewrite Hgc; auto.
Qed.

Lemma new_type_counted dom hf eq ty h :
  mono_conc_g_hash_table_new_type hf eq ty = Done h -> counted dom h.
Proof.
  intros Hnew. unfold counted. rewrite (new_type_foreach dom _ _ _ _ Hnew).
  pose proof (new_type_done _ _ _ _ Hnew) as (_ & _ & -> & -> & _).
  cbn. split; [lia |]. split; [| reflexivity].
  unfold load_factor_of, INITIAL_SIZE. cbn. lia.
Qed.

(** X21: on a table constructed in a mode that does not track keys,
    after every run of inserts and removes none of whose keys is the
    tombstone, the element count is at least the number of pairs
    iteration visits and at most the resize threshold; without an
    equality function it is exactly the number of pairs.  So at most
    three quarters of the slots hold a live pair. *)
Theorem element_count_counts_the_pairs (fuel : nat) (dom : MonoDomain)
    (hf : option (gpointer -> Z)) (eq : option (gpointer -> gpointer -> bool))
    (ty : Z) (h0 : MonoConcGHashTable) (ops : list op) (h : MonoConcGHashTable) :
  mono_conc_g_hash_table_new_type hf eq ty = Done h0 ->
  has_flag ty MONO_HASH_KEY_GC = false ->
  keys_no_tombstone dom h0 ops ->
  run fuel dom h0 ops = Done h ->
  Z.of_nat (length (mono_conc_g_hash_table_foreach dom h)) <= element_count h /\
  element_count h <= overflow_count h /\
  (eq = None ->
   element_count h = Z.of_nat (length (mono_conc_g_hash_table_foreach dom h))) /\
  4 * Z.of_nat (length (mono_conc_g_hash_table_foreach dom h))
  <= 3 * table_size (table h).
Proof.
  intros Hnew Hty Hops Hrun.
  destruct (run_counted fuel dom ops h0 h (new_type_sound dom _ _ _ _ Hnew Hty)
              (new_type_counted dom _ _ _ _ Hnew) Hops Hrun)
    as [(Hw & _) (Hlow & Hhigh & Hexact)].
  split; [exact Hlow |]. split; [exact Hhigh |]. split.
  - intros ->. apply Hexact.
    destruct (reachable_from_invariant dom h0 h (run_reachable_from _ _ _ _ _ Hrun)
                (new_type_well_sized _ _ _ _ Hnew)) as (_ & _ & He & _).
    rewrite He. apply (new_type_done _ _ _ _ Hnew).
  - destruct Hw as (n & Hn & (Hs & _) & Ho).
    rewrite Ho, load_factor_pow2 in Hhigh by lia. rewrite Hs.
    replace (2 ^ n) with (4 * 2 ^ (n - 2))
      by (replace n with (2 + (n - 2)) at 2 by lia; rewrite Z.pow_add_r by lia; reflexivity).
    lia.
Qed.

(** ** Insert returns where the element count is right *)

Section InsertStops.

Variable C : Z.
Hypothesis HC : is_pow2 C.
Variable dom : MonoDomain.
Variable h : MonoConcGHashTable.
Variable t : conc_table.
Variables key value : gpointer.
Variable same : gpointer -> bool.

Lemma insert_probe_stops : forall d fuel i,
  (d < fuel)%nat -> 0 <= i < C ->
  is_live dom h (array_get (keys t) ((i + Z.of_nat d) mod C)) = false ->
  exists h' r, insert_probe same fuel dom h t key value (C - 1) i = Done (h', r).
Proof.
  induction d as [| d IH]; intros [| fuel] i Hd Hi Hdead; try lia; cbn.
  - rewrite Z.add_0_r, Z.mod_small in Hdead by exact Hi.
    unfold is_live in Hdead. rewrite <- negb_orb in Hdead.
    apply negb_false_iff in Hdead. rewrite Hdead. eauto.
  - destruct (_ || _); [eauto |].
    destruct (same _); [eauto |].
    apply IH; [lia | apply land_mask_range, HC |].
    rewrite land_mask by exact HC. pose proof (pow2_pos C HC).
    rewrite Z.add_mod_idemp_l by lia.
    replace (i + 1 + Z.of_nat d) with (i + Z.of_nat (S d)) by lia. exact Hdead.
Qed.

End InsertStops.

Lemma insert_returns fuel dom h key value :
  well_sized h -> counted dom h -> key <> NULL -> value <> NULL ->
  (element_count h >= overflow_count h -> table_size (table h) < 2 ^ 30) ->
  (Z.to_nat (2 * table_size (table h)) <= fuel)%nat ->
  exists h' r, mono_conc_g_hash_table_insert fuel dom h key value = Done (h', r).
Proof.
  intros Hw (Hlow & Hhigh & _) Hk Hv Hsmall Hfuel.
  destruct (Z_lt_ge_dec (element_count h) (overflow_count h)) as [Hlt | Hge].
  2:{ apply insert_with_resize_completes; auto. }
  pose proof (well_sized_pow2 _ Hw) as Hp. pose proof (pow2_pos _ Hp) as Hpos.
  unfold mono_conc_g_hash_table_insert.
  apply Z.eqb_neq in Hk, Hv. rewrite Hk, Hv.
  replace (element_count h >=? overflow_count h) with false
    by (symmetry; rewrite Z.geb_leb; apply Z.leb_gt; exact Hlt).
  rewrite insert_probe_as_probe.
  set (i := Z.land _ _).
  assert (Hi : 0 <= i < table_size (table h)) by apply land_mask_range, Hp.
  (* fewer live slots than slots: one slot is not live *)
  assert (Hfew : (length (mono_conc_g_hash_table_foreach dom h)
                  < Z.to_nat (table_size (table h)))%nat).
  { pose proof (threshold_bounds h Hw).
    destruct Hw as (n & Hn & (Hs & _) & Ho). rewrite Ho, load_factor_pow2 in * by lia.
    rewrite Hs. replace (2 ^ n) with (4 * 2 ^ (n - 2))
      by (replace n with (2 + (n - 2)) at 2 by lia; rewrite Z.pow_add_r by lia; reflexivity).
    assert (0 < 2 ^ (n - 2)) by (apply Z.pow_pos_nonneg; lia). lia. }
  destruct (foreach_loop_dead_slot _ _ _ _ _ Hfew) as (s & Hs & Hdead).
  apply (insert_probe_stops _ Hp dom h (table h) key value _
           (Z.to_nat ((s - i) mod table_size (table h))) fuel i).
  - pose proof (Z.mod_pos_bound (s - i) (table_size (table h)) Hpos). lia.
  - exact Hi.
  - rewrite Z2Nat.id by (apply Z.mod_pos_bound; exact Hpos).
    rewrite Z.add_mod_idemp_r by lia.
    replace (i + (s - i)) with s by lia.
    rewrite Z.mod_small by lia. exact Hdead.
Qed.

(** X22: on a table constructed in a mode that does not track keys,
    after every run of inserts and removes none of whose keys is the
    tombstone, insert with non-null arguments returns within two rounds
    of the table, as long as the capacity has not reached [2^30]. *)
Theorem insert_returns_without_key_tracking (fuel0 fuel : nat) (dom : MonoDomain)
    (hf : option (gpointer -> Z)) (eq : option (gpointer -> gpointer -> bool))
    (ty : Z) (h0 : MonoConcGHashTable) (ops : list op) (h : MonoConcGHashTable)
    (key value : gpointer) :
  mono_conc_g_hash_table_new_type hf eq ty = Done h0 ->
  has_flag ty MONO_HASH_KEY_GC = false ->
  keys_no_tombstone dom h0 ops ->
  run fuel0 dom h0 ops = Done h ->
  key <> NULL -> value <> NULL ->
  table_size (table h) < 2 ^ 30 ->
  (Z.to_nat (2 * table_size (table h)) <= fuel)%nat ->
  exists h' r, mono_conc_g_hash_table_insert fuel dom h key value = Done (h', r).
Proof.
  intros Hnew Hty Hops Hrun Hk Hv Hsmall Hfuel.
  destruct (run_counted fuel0 dom ops h0 h (new_type_sound dom _ _ _ _ Hnew Hty)
              (new_type_counted dom _ _ _ _ Hnew) Hops Hrun) as [(Hw & _) Hcnt].
  apply insert_returns; auto.
Qed.

(** ** Remove and lookup, within one round of the table *)

Lemma lookup_returns_ok fuel dom h key :
  well_sized h -> slot_ok dom h ->
  (equal_func h = None -> key_is_tombstone dom h key = false) ->
  (occupied (keys (table h)) < length (keys (table h)))%nat ->
  (Z.to_nat (table_size (table h)) <= fuel)%nat ->
  exists found ok v,
    mono_conc_g_hash_table_lookup_extended fuel dom h key = Done (found, ok, v).
Proof.
  intros Hw Hok Ht Hocc Hfuel.
  pose proof (well_sized_pow2 _ Hw) as Hp.
  destruct (first_empty_slot h (hash_func h) key Hw Hocc) as (m & Hm & Hnull & Hbefore).
  set (slot := probe_slot (table_size (table h)) (hash_func h) key) in *.
  destruct (least_below
              (fun d => array_get (keys (table h)) (slot d) = NULL \/
                        lookup_matches dom h key (array_get (keys (table h)) (slot d)) = true)
              ltac:(intros d; destruct (Z.eq_dec (array_get (keys (table h)) (slot d)) NULL);
                    [left; left; assumption |];
                    destruct (bool_dec (lookup_matches dom h key
                                          (array_get (keys (table h)) (slot d))) true);
                    [left; right; assumption | right; tauto])
              m (or_introl Hnull)) as (m0 & Hm0 & Hstop & Hleast).
  assert (Hpassed : forall d, (d < m0)%nat ->
            array_get (keys (table h)) (slot d) <> NULL /\
            lookup_matches dom h key (array_get (keys (table h)) (slot d)) = false).
  { intros d Hd. specialize (Hleast d Hd). split; [tauto |].
    apply not_true_is_false. tauto. }
  destruct (Z.eq_dec (array_get (keys (table h)) (slot m0)) NULL) as [E0 | Hnn].
  - exists false, NULL, NULL.
    apply (reaches_lookup fuel dom h key m0 false NULL Hp); [| exact I | lia].
    split; [exact E0 | exact Hpassed].
  - destruct Hstop as [E0 | Hmatch]; [contradiction |].
    exists true, (array_get (keys (table h)) (slot m0)),
           (array_get (values (table h)) (slot m0)).
    apply (reaches_lookup fuel dom h key m0 true _ Hp); [| | lia].
    + split; [reflexivity | exact Hpassed].
    + split; [exact Hnn |]. split; [exact Hmatch |].
      apply (slot_ok_live_value dom h _ Hok (probe_slot_range _ _ _ _ Hp)).
      apply (found_is_live _ _ _ _ Hnn Hmatch Ht).
Qed.

(** X23: while the generation has an empty slot, remove of a non-null
    key returns within one round of the table; so does lookup on a handle
    that satisfies the slot invariant (for a key that is not the
    tombstone, in a table without an equality function). *)
Theorem remove_and_lookup_return_while_a_slot_is_empty (fuel : nat) (dom : MonoDomain)
    (h : MonoConcGHashTable) (key : gpointer) :
  well_sized h ->
  (occupied (keys (table h)) < length (keys (table h)))%nat ->
  (Z.to_nat (table_size (table h)) <= fuel)%nat ->
  (key <> NULL ->
   exists h' r ev, mono_conc_g_hash_table_remove fuel dom h key = Done (h', r, ev)) /\
  (slot_ok dom h -> (equal_func h = None -> key_is_tombstone dom h key = false) ->
   exists found ok v,
     mono_conc_g_hash_table_lookup_extended fuel dom h key = Done (found, ok, v)).
Proof.
  intros Hw Hocc Hfuel. split.
  - intros Hk. destruct (remove_returns fuel dom h key Hw Hk Hocc Hfuel) as ([[h' r] ev] & H).
    eauto.
  - intros Hok Ht. apply lookup_returns_ok; assumption.
Qed.

(** ** The probe loops walk the probe sequence from the home slot *)

(** C7: the mixing function of the source is the one the design document
    gives, [((h * 215497) >> 16) XOR (h * 1823231 + h)] on 32-bit integers
    with wrap-around; in a generation whose capacity [C] is a power of two
    the mask [m & (C-1)] is the residue of [m] modulo [C], a slot index;
    the probe sequence of a key starts at the masked mixed hash of the key
    and the step [(i+1) & (C-1)] leads from each of its slots to the next.
    Lookup, insert, remove and the rehash of a resize walk this sequence
    from its first slot: an operation that returns has stopped at the
    [n]-th slot of the sequence, with [n] below the number of steps it was
    given, every slot before the [n]-th is one its loop steps over, the
    [n]-th is the first at which its loop stops, and what it returns or
    writes is read from or written to that slot.  Lookup and remove step
    over an occupied slot whose key they do not take for the key and stop
    at an empty slot or at a key they take (for a lookup that returns, one
    next to a value that is not null); insert steps over a live slot that
    holds another key and stops at a slot that is empty or tombstoned,
    where it stores the pair, or at a live slot that holds the key, whose
    value it returns;
    the rehash steps over occupied slots and stores the pair in the first
    empty one, less than one round from the home slot.  After a resize
    every occupied slot of the new generation lies on the probe sequence
    of the key it holds, under the hash function of the handle and less
    than one round from the home slot of that key, with no empty slot
    before it. *)
Theorem mixing_and_addressing :
  (forall h, mix_hash h = spec_mix h /\ - 2 ^ 31 <= mix_hash h < 2 ^ 31) /\
  (forall C m, is_pow2 C ->
     Z.land m (C - 1) = m mod C /\ 0 <= Z.land m (C - 1) < C) /\
  (forall C hf key n, is_pow2 C ->
     Z.land (mix_hash (int_wrap (hf key))) (C - 1) = probe_slot C hf key 0 /\
     Z.land (probe_slot C hf key n + 1) (C - 1) = probe_slot C hf key (S n)) /\
  (forall fuel dom h key (found : bool) ok v,
     is_pow2 (table_size (table h)) ->
     mono_conc_g_hash_table_lookup_extended fuel dom h key = Done (found, ok, v) ->
     exists n, (n < fuel)%nat /\
       let slot := probe_slot (table_size (table h)) (hash_func h) key in
       let cell := fun d => array_get (keys (table h)) (slot d) in
       (forall d, (d < n)%nat ->
          cell d <> NULL /\ lookup_matches dom h key (cell d) = false) /\
       if found
       then cell n = ok /\ ok <> NULL /\ lookup_matches dom h key ok = true /\
            array_get (values (table h)) (slot n) = v /\ v <> NULL
       else cell n = NULL /\ ok = NULL /\ v = NULL) /\
  (forall fuel dom h key value h' r,
     well_sized h ->
     mono_conc_g_hash_table_insert fuel dom h key value = Done (h', r) ->
     exists h1 n,
       (if element_count h >=? overflow_count h
        then expand_table fuel dom h = Done h1 else h1 = h) /\
       (n < fuel)%nat /\
       let slot := probe_slot (table_size (table h1)) (hash_func h) key in
       let cell := fun d => array_get (keys (table h1)) (slot d) in
       (forall d, (d < n)%nat ->
          is_live dom h1 (cell d) = true /\ insert_same h1 key (cell d) = false) /\
       ((is_live dom h1 (cell n) = false /\
         h' = insert_here h1 (table h1) (slot n) key value /\ r = NULL) \/
        (is_live dom h1 (cell n) = true /\ insert_same h1 key (cell n) = true /\
         h' = h1 /\ r = array_get (values (table h1)) (slot n)))) /\
  (forall fuel dom h key h' r ev,
     is_pow2 (table_size (table h)) ->
     mono_conc_g_hash_table_remove fuel dom h key = Done (h', r, ev) ->
     exists n, (n < fuel)%nat /\
       let slot := probe_slot (table_size (table h)) (hash_func h) key in
       let cell := fun d => array_get (keys (table h)) (slot d) in
       (forall d, (d < n)%nat ->
          cell d <> NULL /\ lookup_matches dom h key (cell d) = false) /\
       ((cell n = NULL /\ h' = h /\ r = NULL) \/
        (cell n <> NULL /\ lookup_matches dom h key (cell n) = true /\
         table h' = set_key_to_tombstone dom (set_value (table h) (slot n) NULL) (slot n) /\
         r = array_get (values (table h)) (slot n)))) /\
  (forall fuel t hf key value t',
     is_pow2 (table_size t) ->
     insert_one_local fuel t hf key value = Done t' ->
     exists n, Z.of_nat n < table_size t /\
       let slot := probe_slot (table_size t) hf key in
       (forall d, (d < n)%nat -> array_get (keys t) (slot d) <> NULL) /\
       array_get (keys t) (slot n) = NULL /\
       t' = set_value (set_key t (slot n) key) (slot n) value) /\
  (forall fuel dom h h',
     well_sized h -> expand_table fuel dom h = Done h' ->
     forall j, 0 <= j < table_size (table h') ->
       array_get (keys (table h')) j <> NULL ->
       exists n, Z.of_nat n < table_size (table h') /\
         let slot := probe_slot (table_size (table h')) (hash_func h)
                       (array_get (keys (table h')) j) in
         j = slot n /\
         forall d, (d < n)%nat -> array_get (keys (table h')) (slot d) <> NULL).
Proof.
  split; [| split; [| split; [| split; [| split; [| split; [| split]]]]]].
  - intros h. split; [apply mix_hash_spec | apply mix_hash_range].
  - intros C m HC. split; [apply land_mask | apply land_mask_range]; exact HC.
  - intros C hf key n HC. split; [apply home_slot_land | apply probe_slot_next]; exact HC.
  - intros fuel dom h key found ok v Hp H.
    destruct (lookup_reaches _ _ _ _ _ _ _ Hp H) as (n & Hn & (Hcell & Hbefore) & Hres).
    exists n. split; [exact Hn |]. cbv zeta. split; [exact Hbefore |].
    destruct found.
    + destruct Hres as (Hok & Hm & Hv & Hvn). auto.
    + destruct Hres as (Hok & Hv). auto.
  - intros fuel dom h key value h' r Hw H.
    destruct (insert_walk _ _ _ _ _ _ _ Hw H)
      as (_ & _ & h1 & n & Hfirst & _ & (Hhf & _) & _ & Hn & Hwalk).
    exists h1, n. split; [exact Hfirst |]. split; [exact Hn |].
    rewrite <- Hhf. exact Hwalk.
  - intros fuel dom h key h' r ev Hp H.
    destruct (remove_walk _ _ _ _ _ _ _ Hp H)
      as (_ & n & c & Hn & (Hcell & Hbefore) & Hres).
    exists n. split; [exact Hn |]. cbv zeta in Hres |- *. split; [exact Hbefore |].
    rewrite Hcell.
    destruct Hres as [(Hc & Hh & Hr & _) | (Hc & Hm & (Ht & _) & Hr & _)].
    + left. auto.
    + right. auto.
  - intros fuel t hf key value t' Hp H.
    destruct (insert_one_local_spec _ _ _ _ _ _ Hp H) as (n & Hn & Hnull & Hbefore & Ht).
    exists n. auto.
  - intros fuel dom h h' (n & Hn & Hg & _) E j Hj Hnn.
    destruct (expand_table_copies _ _ _ _ _ Hn Hg E) as [Hch _].
    exact (Hch j Hj Hnn).
Qed.

(** ** The theorems at work on concrete tables *)

Lemma mixing_and_addressing_witness :
  Z.land (mix_hash 8) (32 - 1) = mix_hash 8 mod 32 /\
  exists n, (n < 2)%nat /\
    let h := handle_with None 0
               (first_generation [(14, PTR_TOMBSTONE, NULL); (15, 160, 2)]) 1 24 in
    let slot := probe_slot (table_size (table h)) (hash_func h) 160 in
    let cell := fun d => array_get (keys (table h)) (slot d) in
    (forall d, (d < n)%nat ->
       cell d <> NULL /\ lookup_matches a_domain h 160 (cell d) = false) /\
    cell n = 160 /\ 160 <> NULL /\ lookup_matches a_domain h 160 160 = true /\
    array_get (values (table h)) (slot n) = 2 /\ 2 <> NULL.
Proof.
  destruct mixing_and_addressing as (_ & Hmask & _ & Hlookup & _).
  assert (Hp : is_pow2 32) by (exists 5; split; [lia | reflexivity]).
  split.
  - apply (Hmask 32 (mix_hash 8) Hp).
  - apply (Hlookup 2%nat a_domain
             (handle_with None 0
                (first_generation [(14, PTR_TOMBSTONE, NULL); (15, 160, 2)]) 1 24)
             160 true 160 2 Hp).
    reflexivity.
Defined.

Lemma capacity_invariant_witness :
  is_pow2 (table_size (table (worn_out_table MONO_HASH_CONSERVATIVE_GC))) /\
  32 <= table_size (table (worn_out_table MONO_HASH_CONSERVATIVE_GC)) /\
  overflow_count (worn_out_table MONO_HASH_CONSERVATIVE_GC)
    = load_factor_of (table_size (table (worn_out_table MONO_HASH_CONSERVATIVE_GC))).
Proof.
  destruct (capacity_invariant a_domain) as (_ & Hreach & _).
  apply Hreach.
  apply (table_after_reachable a_domain None MONO_HASH_CONSERVATIVE_GC
           (churn (aligned_keys 44))).
  reflexivity.
Defined.

Lemma usage_violations_witness :
  mono_conc_g_hash_table_new_type None None 7 = Fatal wrong_gc_type.
Proof.
  destruct usage_violations as (_ & _ & Hnew & _).
  apply (Hnew None None 7 wrong_gc_type); [lia |].
  split; [reflexivity |].
  intros [H | [H | [H | [H | []]]]]; discriminate H.
Defined.

Lemma null_hash_func_witness :
  exists h0,
    mono_conc_g_hash_table_new_type None None MONO_HASH_VALUE_GC = Done h0 /\
    mono_conc_g_hash_table_new_type (Some g_direct_hash) None MONO_HASH_VALUE_GC = Done h0 /\
    hash_func h0 = g_direct_hash.
Proof.
  destruct (null_hash_func_is_g_direct_hash a_domain None MONO_HASH_VALUE_GC)
    as (h0 & H1 & H2 & H3).
  - unfold MONO_HASH_VALUE_GC, MONO_HASH_KEY_VALUE_GC. cbn. lia.
  - exists h0. split; [exact H1 | split; [exact H2 |]].
    apply (H3 h0), reach_start.
Defined.

Lemma forall_below (p : Z -> bool) (n : nat) :
  forallb (fun k => p (Z.of_nat k)) (seq 0 n) = true ->
  forall i, 0 <= i < Z.of_nat n -> p i = true.
Proof.
  intros H i Hi. rewrite forallb_forall in H.
  specialize (H (Z.to_nat i)). rewrite Z2Nat.id in H by lia.
  apply H, in_seq. lia.
Qed.

Lemma insert_of_key_met_by_probe_witness :
  mono_conc_g_hash_table_insert 64 a_domain
    (handle_with None 0 (first_generation [(26, 8, 80)]) 1 24) 8 99
  = Done (handle_with None 0 (first_generation [(26, 8, 80)]) 1 24, 80) /\
  exists h h1,
    table_after a_domain None MONO_HASH_CONSERVATIVE_GC (fill 1 24) = Some h /\
    expand_table 64 a_domain h = Done h1 /\
    mono_conc_g_hash_table_insert 64 a_domain h 8 99 = Done (h1, 1) /\
    element_count h1 = element_count h /\
    table_size (table h1) = 2 * table_size (table h) /\
    mono_conc_g_hash_table_lookup_extended 64 a_domain h1 8 = Done (true, 8, 1).
Proof.
  split.
  - assert (Hrun : table_after a_domain None MONO_HASH_CONSERVATIVE_GC [Insert 8 80]
                   = Some (handle_with None 0 (first_generation [(26, 8, 80)]) 1 24))
      by reflexivity.
    apply (insert_of_key_met_by_probe a_domain
             (handle_with None 0 (first_generation [(26, 8, 80)]) 1 24) 8 99 0 8 80 64).
    + apply (reachable_well_sized a_domain), (table_after_reachable _ _ _ _ _ Hrun).
    + discriminate.
    + discriminate.
    + unfold found_at. cbv zeta.
      split; [reflexivity |]. split; [reflexivity |]. split; [discriminate |].
      split; [reflexivity |]. split; [reflexivity |]. intros d Hd. lia.
    + lia.
    + vm_compute. lia.
    + reflexivity.
  - eassert (H : option_map snapshot
                   (table_after a_domain None MONO_HASH_CONSERVATIVE_GC (fill 1 24))
                 = Some (_, _, _)) by (vm_compute; reflexivity).
    apply table_after_snapshot in H.
    pose proof (reachable_well_sized _ _ (table_after_reachable _ _ _ _ _ H)) as Hw.
    match type of H with _ = Some ?h0 => set (h := h0) in * end.
    destruct (insert_of_key_met_by_probe a_domain h 8 99 0 8 1 64 Hw) as [_ Hresize].
    + discriminate.
    + discriminate.
    + unfold found_at. cbv zeta.
      split; [vm_compute; reflexivity |]. split; [vm_compute; reflexivity |].
      split; [discriminate |].
      split; [reflexivity |]. split; [reflexivity |]. intros d Hd. lia.
    + lia.
    + vm_compute. lia.
    + destruct Hresize as (h1 & E & Hins & Hcount & Hsize & Hlook).
      * vm_compute. discriminate.
      * vm_compute. reflexivity.
      * intros i Hi Hlive Hmatch.
        pose proof (forall_below
          (fun i => implb (lookup_matches a_domain h 8 (array_get (keys (table h)) i))
                      ((array_get (keys (table h)) i =? 8)
                       && (array_get (values (table h)) i =? 1))) 32
          ltac:(vm_compute; reflexivity) i Hi) as Hb.
        cbv beta in Hb. rewrite Hmatch in Hb. cbn in Hb.
        apply andb_true_iff in Hb. destruct Hb as [Hb1 Hb2].
        apply Z.eqb_eq in Hb1, Hb2. auto.
      * reflexivity.
      * exists h, h1. repeat split; assumption.
Defined.

(** ** Three small tables *)

Lemma empty_table_new :
  mono_conc_g_hash_table_new_type (Some low_bits) None MONO_HASH_CONSERVATIVE_GC
  = Done empty_table.
Proof. reflexivity. Qed.

Lemma table_of_8_run : run 64 a_domain empty_table [Insert 8 80] = Done table_of_8.
Proof. reflexivity. Qed.

Lemma table_of_8_16_run :
  run 64 a_domain empty_table [Insert 8 80; Insert 16 2] = Done table_of_8_16.
Proof. reflexivity. Qed.

Lemma no_tombstone_8_16 :
  keys_no_tombstone a_domain empty_table [Insert 8 80; Insert 16 2] /\
  keys_no_tombstone a_domain empty_table [Insert 8 80].
Proof. split; repeat constructor. Qed.

Lemma small_tables_sound :
  sound a_domain empty_table /\
  (sound a_domain table_of_8 /\ counted a_domain table_of_8) /\
  (sound a_domain table_of_8_16 /\ counted a_domain table_of_8_16).
Proof.
  pose proof (new_type_sound a_domain _ _ _ _ empty_table_new eq_refl) as Hs.
  pose proof (new_type_counted a_domain _ _ _ _ empty_table_new) as Hc.
  destruct no_tombstone_8_16 as [H2 H1].
  split; [exact Hs |]. split.
  - apply (run_counted 64 a_domain _ empty_table table_of_8 Hs Hc H1 table_of_8_run).
  - apply (run_counted 64 a_domain _ empty_table table_of_8_16 Hs Hc H2 table_of_8_16_run).
Qed.

Lemma absent_check dom h key :
  forallb (fun c => (c =? NULL) || negb (lookup_matches dom h key c)) (keys (table h)) = true ->
  absent dom h key (keys (table h)).
Proof.
  intros H c Hin Hnn. rewrite forallb_forall in H. specialize (H c Hin).
  apply Z.eqb_neq in Hnn. rewrite Hnn in H. cbn in H. apply negb_true_iff, H.
Qed.

Lemma single_entry_check dom h key ok v0 :
  forallb (fun n => implb (is_live dom h (array_get (keys (table h)) (Z.of_nat n))
                           && lookup_matches dom h key (array_get (keys (table h)) (Z.of_nat n)))
                      ((array_get (keys (table h)) (Z.of_nat n) =? ok)
                       && (array_get (values (table h)) (Z.of_nat n) =? v0)))
    (seq 0 (Z.to_nat (table_size (table h)))) = true ->
  single_entry dom h (table h) key ok v0.
Proof.
  intros H i Hi Hlive Hmatch.
  pose proof (forall_below
    (fun i => implb (is_live dom h (array_get (keys (table h)) i)
                     && lookup_matches dom h key (array_get (keys (table h)) i))
                ((array_get (keys (table h)) i =? ok)
                 && (array_get (values (table h)) i =? v0)))
    (Z.to_nat (table_size (table h))) H i ltac:(lia)) as Hb.
  cbv beta in Hb. rewrite Hlive, Hmatch in Hb. cbn in Hb.
  apply andb_true_iff in Hb. destruct Hb as [Hb1 Hb2].
  apply Z.eqb_eq in Hb1, Hb2. auto.
Qed.

Lemma one_entry_check dom h key j0 :
  forallb (fun n => implb (is_live dom h (array_get (keys (table h)) (Z.of_nat n))
                           && lookup_matches dom h key (array_get (keys (table h)) (Z.of_nat n)))
                      (Z.of_nat n =? j0))
    (seq 0 (Z.to_nat (table_size (table h)))) = true ->
  one_entry dom h key.
Proof.
  intros H.
  assert (Hat : forall i, 0 <= i < table_size (table h) ->
            is_live dom h (array_get (keys (table h)) i) = true ->
            lookup_matches dom h key (array_get (keys (table h)) i) = true -> i = j0).
  { intros i Hi Hl Hm.
    pose proof (forall_below
      (fun i => implb (is_live dom h (array_get (keys (table h)) i)
                       && lookup_matches dom h key (array_get (keys (table h)) i))
                  (i =? j0))
      (Z.to_nat (table_size (table h))) H i ltac:(lia)) as Hb.
    cbv beta in Hb. rewrite Hl, Hm in Hb. apply Z.eqb_eq, Hb. }
  intros i j Hi Hj Hli Hlj Hmi Hmj.
  rewrite (Hat i Hi Hli Hmi), (Hat j Hj Hlj Hmj). reflexivity.
Qed.

Lemma with_destroy_funcs_shape h kf vf :
  (well_sized h -> well_sized (with_destroy_funcs h kf vf)) /\
  (modes_agree h -> modes_agree (with_destroy_funcs h kf vf)).
Proof. split; intros H; exact H. Qed.

(** ** The further theorems at work on these tables *)

Lemma lookup_reports_witness :
  mono_conc_g_hash_table_lookup 2 a_domain table_of_8 8 = Done 80 /\
  In 8 (keys (table table_of_8)).
Proof.
  destruct (lookup_reports_a_pair_or_nothing 2 a_domain table_of_8 8) as (Hhit & _).
  destruct (Hhit 8 80 eq_refl) as (_ & _ & _ & Hin & _ & H). auto.
Defined.

Lemma remove_returns_what_lookup_finds_witness :
  exists h',
    mono_conc_g_hash_table_remove 64 a_domain table_of_8_16 16 = Done (h', 2, []) /\
    element_count h' = 1.
Proof.
  destruct (remove_returns_what_lookup_finds 64 a_domain table_of_8_16 16 true 16 2)
    as (h' & Hrem & _ & Hcount).
  - exists 5. split; [lia | reflexivity].
  - discriminate.
  - reflexivity.
  - exists h'. split; [exact Hrem | exact Hcount].
Defined.

Lemma absent_key_witness :
  mono_conc_g_hash_table_lookup 32 a_domain table_of_8_16 24 = Done NULL /\
  mono_conc_g_hash_table_remove 32 a_domain table_of_8_16 24
  = Done (table_of_8_16, NULL, []).
Proof.
  destruct small_tables_sound as (_ & _ & (Hw & _) & _).
  destruct (absent_key_is_reported_missing 32 a_domain table_of_8_16 24 Hw)
    as (_ & Hl & Hr).
  - apply absent_check. reflexivity.
  - apply Nat.ltb_lt. reflexivity.
  - apply Nat.leb_le. reflexivity.
  - split; [exact Hl | apply Hr; discriminate].
Defined.

Lemma insert_keeps_the_other_entries_witness :
  mono_conc_g_hash_table_lookup_extended 64 a_domain table_of_8_16 8 = Done (true, 8, 80) /\
  exists h h' r,
    table_after a_domain None MONO_HASH_CONSERVATIVE_GC (fill 1 24) = Some h /\
    element_count h >= overflow_count h /\
    mono_conc_g_hash_table_insert 64 a_domain h 200 25 = Done (h', r) /\
    mono_conc_g_hash_table_lookup_extended 64 a_domain h' 8 = Done (true, 8, 1).
Proof.
  split.
  - destruct small_tables_sound as (_ & ((Hw & _) & _) & _).
    destruct (insert_keeps_the_other_entries 64 64 a_domain table_of_8 16 2 table_of_8_16 NULL 8 8 80
                Hw eq_refl eq_refl eq_refl (fun _ => eq_refl)) as [Hbelow _].
    apply Hbelow. reflexivity.
  - eassert (H : option_map snapshot
                   (table_after a_domain None MONO_HASH_CONSERVATIVE_GC (fill 1 24))
                 = Some (_, _, _)) by (vm_compute; reflexivity).
    apply table_after_snapshot in H.
    pose proof (reachable_well_sized _ _ (table_after_reachable _ _ _ _ _ H)) as Hw.
    match type of H with _ = Some ?h0 => set (h := h0) in * end.
    assert (Hc : element_count h >= overflow_count h) by (vm_compute; discriminate).
    destruct (insert_with_resize_completes 64 a_domain h 200 25 Hw) as (h' & r & E);
      [vm_compute; reflexivity | exact Hc | discriminate | discriminate
      | vm_compute; lia |].
    assert (L : mono_conc_g_hash_table_lookup_extended 64 a_domain h 8 = Done (true, 8, 1))
      by (vm_compute; reflexivity).
    destruct (insert_keeps_the_other_entries 64 64 a_domain h 200 25 h' r 8 8 1
                Hw E L eq_refl (fun _ => eq_refl)) as [_ Hresize].
    exists h, h', r. split; [exact H |]. split; [exact Hc |]. split; [exact E |].
    apply Hresize.
    + exact Hc.
    + apply single_entry_check. vm_compute. reflexivity.
    + reflexivity.
    + vm_compute. lia.
Defined.

Lemma remove_keeps_the_other_entries_witness :
  mono_conc_g_hash_table_lookup_extended 64 a_domain
    (handle_with None 0
       (first_generation [(26, 8, 80); (20, PTR_TOMBSTONE, NULL)]) 1 24) 8
  = Done (true, 8, 80).
Proof.
  destruct small_tables_sound as (_ & _ & (Hw & Hma & _) & _).
  apply (remove_keeps_the_other_entries 64 64 a_domain table_of_8_16 16
           (handle_with None 0
              (first_generation [(26, 8, 80); (20, PTR_TOMBSTONE, NULL)]) 1 24)
           2 [] 8 8 80 Hw Hma).
  - discriminate.
  - reflexivity.
  - reflexivity.
  - reflexivity.
  - intros _. reflexivity.
Defined.

Lemma insert_then_lookup_witness :
  mono_conc_g_hash_table_lookup 64 a_domain table_of_8_16 16 = Done 2.
Proof.
  destruct small_tables_sound as (_ & ((Hw & _) & _) & _).
  destruct (insert_then_lookup_finds_the_pair 64 a_domain table_of_8 16 2
              table_of_8_16 NULL Hw) as (_ & _ & Hl).
  - discriminate.
  - discriminate.
  - reflexivity.
  - apply absent_check. reflexivity.
  - reflexivity.
  - exact Hl.
Defined.

Lemma insert_remove_lookup_round_trip_witness :
  mono_conc_g_hash_table_lookup_extended 64 a_domain table_of_8 8 = Done (true, 8, 80) /\
  exists h2,
    mono_conc_g_hash_table_remove 64 a_domain table_of_8 8 = Done (h2, 80, []) /\
    mono_conc_g_hash_table_lookup_extended 32 a_domain h2 8 = Done (false, NULL, NULL).
Proof.
  destruct small_tables_sound as ((Hw & Hma & _) & _).
  destruct (insert_remove_lookup_round_trip 64 32 a_domain empty_table 8 80 table_of_8 NULL
              Hw Hma eq_refl eq_refl) as (_ & Hl & h2 & Hrem & Hmiss).
  - apply absent_check. reflexivity.
  - reflexivity.
  - apply Nat.ltb_lt. reflexivity.
  - apply Nat.leb_le. reflexivity.
  - split; [exact Hl |]. exists h2. auto.
Defined.

Lemma remove_then_lookup_witness :
  mono_conc_g_hash_table_lookup_extended 32 a_domain
    (handle_with None 0
       (first_generation [(26, PTR_TOMBSTONE, NULL); (20, 16, 2)]) 1 24) 8
  = Done (false, NULL, NULL).
Proof.
  destruct small_tables_sound as (_ & _ & (Hw & Hma & _) & _).
  destruct (remove_then_lookup_reports_a_miss 32 32 a_domain table_of_8_16 8 8 80
              (handle_with None 0
                 (first_generation [(26, PTR_TOMBSTONE, NULL); (20, 16, 2)]) 1 24)
              80 [] Hw Hma (fun _ => eq_refl)) as (_ & Hmiss & _).
  - apply (one_entry_check a_domain table_of_8_16 8 26). reflexivity.
  - reflexivity.
  - reflexivity.
  - apply Nat.ltb_lt. reflexivity.
  - apply Nat.leb_le. reflexivity.
  - exact Hmiss.
Defined.

Lemma foreach_visits_live_pairs_witness :
  (exists s, 0 <= s < table_size (table table_of_8_16) /\
     array_get (keys (table table_of_8_16)) s = 16 /\
     array_get (values (table table_of_8_16)) s = 2) /\
  (length (mono_conc_g_hash_table_foreach a_domain table_of_8_16) <= 32)%nat.
Proof.
  destruct (foreach_visits_live_pairs a_domain table_of_8_16) as (Hk & _ & Hlen).
  split; [| exact Hlen].
  apply (Hk 16 2). left. reflexivity.
Defined.

Lemma destroy_calls_back_witness :
  mono_conc_g_hash_table_destroy a_domain (with_destroy_funcs table_of_8_16 1 2)
  = flat_map (fun kv => [Call 1 (fst kv); Call 2 (snd kv)])
      (mono_conc_g_hash_table_foreach a_domain (with_destroy_funcs table_of_8_16 1 2)) /\
  mono_conc_g_hash_table_destroy a_domain table_of_8_16 = [].
Proof.
  split.
  - apply (destroy_calls_back_on_what_foreach_visits a_domain
             (with_destroy_funcs table_of_8_16 1 2)).
  - apply (destroy_calls_back_on_what_foreach_visits a_domain table_of_8_16); reflexivity.
Defined.

Lemma destroy_callbacks_witness :
  key_destroy_func table_of_8_16 = None /\ value_destroy_func table_of_8_16 = None /\
  mono_conc_g_hash_table_destroy a_domain table_of_8_16 = [].
Proof.
  destruct (destroy_callbacks_are_never_installed a_domain table_of_8_16)
    as (Hk & Hv & Hd & _).
  - apply (run_reachable a_domain 64 _ _ _ empty_table _ _ empty_table_new table_of_8_16_run).
  - auto.
Defined.

Lemma new_table_is_empty_witness :
  mono_conc_g_hash_table_foreach a_domain empty_table = [] /\
  mono_conc_g_hash_table_lookup 1 a_domain empty_table 8 = Done NULL /\
  mono_conc_g_hash_table_remove 1 a_domain empty_table 8 = Done (empty_table, NULL, []).
Proof.
  destruct (new_table_is_empty a_domain (Some low_bits) None MONO_HASH_CONSERVATIVE_GC
              empty_table eq_refl) as (_ & Hf & _ & Hl & Hr).
  split; [exact Hf |]. split.
  - apply (Hl 1%nat 8). lia.
  - apply (Hr 1%nat 8); [lia | discriminate].
Defined.

Lemma remove_takes_one_pair_witness :
  exists before after ok,
    mono_conc_g_hash_table_foreach a_domain table_of_8_16 = before ++ (ok, 80) :: after /\
    mono_conc_g_hash_table_foreach a_domain
      (handle_with None 0
         (first_generation [(26, PTR_TOMBSTONE, NULL); (20, 16, 2)]) 1 24)
    = before ++ after /\
    lookup_matches a_domain table_of_8_16 8 ok = true.
Proof.
  destruct small_tables_sound as (_ & _ & (Hw & Hma & _) & _).
  destruct (remove_takes_one_pair_out_of_the_iteration 64 a_domain table_of_8_16 8
              (handle_with None 0
                 (first_generation [(26, PTR_TOMBSTONE, NULL); (20, 16, 2)]) 1 24)
              80 [] Hw Hma (fun _ => eq_refl) eq_refl)
    as [(_ & H & _) | (before & after & ok & H1 & H2 & H3 & _)].
  - discriminate H.
  - exists before, after, ok. auto.
Defined.

Lemma removed_pair_witness :
  exists before after,
    mono_conc_g_hash_table_destroy a_domain (with_destroy_funcs table_of_8_16 1 2)
    = before ++ [Call 1 8; Call 2 80] ++ after /\
    mono_conc_g_hash_table_destroy a_domain
      (with_destroy_funcs
         (handle_with None 0
            (first_generation [(26, PTR_TOMBSTONE, NULL); (20, 16, 2)]) 1 24) 1 2)
    = before ++ after.
Proof.
  destruct small_tables_sound as (_ & _ & (Hw & Hma & _) & _).
  apply (removed_pair_is_not_destroyed_again 64 a_domain
           (with_destroy_funcs table_of_8_16 1 2) 8
           (with_destroy_funcs
              (handle_with None 0
                 (first_generation [(26, PTR_TOMBSTONE, NULL); (20, 16, 2)]) 1 24) 1 2)
           80 [Call 1 8; Call 2 80]).
  - apply with_destroy_funcs_shape, Hw.
  - apply with_destroy_funcs_shape, Hma.
  - intros _. reflexivity.
  - reflexivity.
Defined.

Lemma resize_moves_the_pairs_witness :
  exists h',
    expand_table 64 a_domain table_of_8_16 = Done h' /\
    Permutation (mono_conc_g_hash_table_foreach a_domain h')
                (mono_conc_g_hash_table_foreach a_domain table_of_8_16) /\
    table_size (table h') = 64 /\ element_count h' = 2.
Proof.
  destruct small_tables_sound as (_ & _ & (Hw & _) & _).
  eassert (E : expand_table 64 a_domain table_of_8_16 = Done _) by reflexivity.
  destruct (resize_moves_the_pairs_and_drops_the_tombstones 64 a_domain table_of_8_16 _
              Hw E) as (Hperm & _ & Hsize & _ & Hcount).
  eexists. split; [exact E |]. split; [exact Hperm |]. split; [exact Hsize | exact Hcount].
Defined.

Lemma resize_keeps_what_lookup_finds_witness :
  exists h1,
    expand_table 64 a_domain table_of_8_16 = Done h1 /\
    mono_conc_g_hash_table_lookup_extended 64 a_domain h1 8 = Done (true, 8, 80).
Proof.
  destruct small_tables_sound as (_ & _ & (Hw & _) & _).
  eassert (E : expand_table 64 a_domain table_of_8_16 = Done _) by reflexivity.
  eexists. split; [exact E |].
  apply (resize_keeps_what_lookup_finds 64 64 64 a_domain table_of_8_16 _ 8 8 80 Hw E).
  - reflexivity.
  - intros _. reflexivity.
  - reflexivity.
  - apply single_entry_check. reflexivity.
  - apply Nat.leb_le. reflexivity.
Defined.

Lemma insert_adds_one_pair_witness :
  Permutation (mono_conc_g_hash_table_foreach a_domain table_of_8_16)
              ((16, 2) :: mono_conc_g_hash_table_foreach a_domain table_of_8) /\
  element_count table_of_8_16 = 2.
Proof.
  destruct small_tables_sound as (_ & ((Hw & _ & _ & Hok & _) & _) & _).
  apply (insert_adds_one_pair_to_the_iteration 64 a_domain table_of_8 16 2
           table_of_8_16 NULL Hw Hok eq_refl eq_refl).
Defined.

Lemma operations_keep_the_invariants_witness : sound a_domain table_of_8_16.
Proof.
  destruct (operations_keep_the_invariants a_domain) as (_ & _ & _ & _ & _ & Hrun).
  apply (Hrun 64%nat (Some low_bits) None MONO_HASH_CONSERVATIVE_GC empty_table
           [Insert 8 80; Insert 16 2] table_of_8_16 empty_table_new eq_refl).
  - repeat constructor.
  - exact table_of_8_16_run.
Defined.

Lemma lookup_finds_only_pairs_witness :
  In (8, 80) (mono_conc_g_hash_table_foreach a_domain table_of_8_16).
Proof.
  destruct small_tables_sound as (_ & _ & (Hw & _ & _ & Hok & _) & _).
  apply (lookup_finds_only_pairs_of_the_iteration 64 a_domain table_of_8_16 8 8 80 Hw Hok). reflexivity.
Defined.

Lemma lookup_finds_every_pair_witness :
  exists ok v',
    mono_conc_g_hash_table_lookup_extended 32 a_domain table_of_8_16 16
    = Done (true, ok, v') /\
    In (ok, v') (mono_conc_g_hash_table_foreach a_domain table_of_8_16).
Proof.
  destruct small_tables_sound as (_ & _ & Hs & _).
  destruct (lookup_finds_every_pair_of_the_iteration 32 a_domain table_of_8_16 16 2 Hs)
    as (ok & v' & Hl & _ & Hin).
  - left. reflexivity.
  - reflexivity.
  - apply Nat.leb_le. reflexivity.
  - exists ok, v'. auto.
Defined.

Lemma element_count_witness :
  element_count table_of_8_16
  = Z.of_nat (length (mono_conc_g_hash_table_foreach a_domain table_of_8_16)).
Proof.
  destruct (element_count_counts_the_pairs 64 a_domain (Some low_bits) None
              MONO_HASH_CONSERVATIVE_GC empty_table [Insert 8 80; Insert 16 2]
              table_of_8_16 empty_table_new eq_refl (proj1 no_tombstone_8_16)
              table_of_8_16_run) as (_ & _ & Hexact & _).
  apply Hexact. reflexivity.
Defined.

Lemma insert_returns_witness :
  exists h' r, mono_conc_g_hash_table_insert 64 a_domain table_of_8_16 24 3 = Done (h', r).
Proof.
  apply (insert_returns_without_key_tracking 64 64 a_domain (Some low_bits) None
           MONO_HASH_CONSERVATIVE_GC empty_table [Insert 8 80; Insert 16 2]
           table_of_8_16 24 3 empty_table_new eq_refl (proj1 no_tombstone_8_16)
           table_of_8_16_run).
  - discriminate.
  - discriminate.
  - reflexivity.
  - apply Nat.leb_le. reflexivity.
Defined.

Lemma remove_and_lookup_return_witness :
  (exists h' r ev,
     mono_conc_g_hash_table_remove 32 a_domain table_of_8_16 8 = Done (h', r, ev)) /\
  (exists found ok v,
     mono_conc_g_hash_table_lookup_extended 32 a_domain table_of_8_16 8
     = Done (found, ok, v)).
Proof.
  destruct small_tables_sound as (_ & _ & (Hw & _ & _ & Hok & _) & _).
  destruct (remove_and_lookup_return_while_a_slot_is_empty 32 a_domain table_of_8_16 8 Hw)
    as [Hrem Hlook].
  - apply Nat.ltb_lt. reflexivity.
  - apply Nat.leb_le. reflexivity.
  - split; [apply Hrem; discriminate | apply Hlook; [exact Hok | intros _; reflexivity]].
Defined.
